(** * Hybrid storage / sync engine: a shallow embedding

    Embeds [src/lib/storage/indexeddb-adapter.ts] (the local adapter),
    [src/lib/storage/sync-manager.ts] (the synchroniser) and
    [src/lib/storage/storage-manager.ts], and states the properties of the
    specification over them. The synchroniser is kept in the source tree
    behind [supabase-adapter.ts], in the same file, from line 223 on; the
    line numbers quoted for it are those of that file.

    Conventions of the embedding
    - a JavaScript value is a [value]; numbers are integers ([Z]): the
      counters and clock readings the code manipulates are integral, and
      IEEE doubles are exact on integers of magnitude below 2^53;
    - a record is an open attribute map, [gmap string value]; object spread
      is map union, a property write is an insert;
    - a rejected promise or a thrown exception is [Err], a resolved promise
      is [Ok]; every operation passes the state it works on explicitly;
    - the wall clock and [Math.random] are read through an [Env] value that
      the caller supplies for each reading. *)

From Stdlib Require Import ZArith Ascii String List.
From stdpp Require Import base option list strings pretty sorting gmap fin_maps.

Local Open Scope string_scope.
Local Open Scope list_scope.
Local Open Scope Z_scope.

(** ** JavaScript values *)

Inductive value : Type :=
  | VUndef
  | VNull
  | VBool (b : bool)
  | VNum (n : Z)
  | VStr (s : string).

#[global] Instance value_eq_dec : EqDecision value.
Proof. solve_decision. Defined.

Definition value_encode (v : value) : unit + unit + bool + Z + string :=
  match v with
  | VUndef => inl (inl (inl (inl tt)))
  | VNull => inl (inl (inl (inr tt)))
  | VBool b => inl (inl (inr b))
  | VNum n => inl (inr n)
  | VStr s => inr s
  end.

Definition value_decode (x : unit + unit + bool + Z + string) : value :=
  match x with
  | inl (inl (inl (inl _))) => VUndef
  | inl (inl (inl (inr _))) => VNull
  | inl (inl (inr b)) => VBool b
  | inl (inr n) => VNum n
  | inr s => VStr s
  end.

#[global] Instance value_countable : Countable value.
Proof.
  apply (inj_countable' value_encode value_decode).
  by intros [].
Defined.

(** Truthiness, as used by [||], [if (...)] and [!]. *)
Definition truthy (v : value) : bool :=
  match v with
  | VUndef | VNull => false
  | VBool b => b
  | VNum n => negb (n =? 0)
  | VStr s => negb (String.eqb s "")
  end.

(** [a || b] *)
Definition js_or (a b : value) : value := if truthy a then a else b.

(** [ToString], as performed by a template literal. *)
Definition js_toString (v : value) : string :=
  match v with
  | VUndef => "undefined"
  | VNull => "null"
  | VBool true => "true"
  | VBool false => "false"
  | VNum n => pretty n
  | VStr s => s
  end.

(** [(v || 0) + 1]: numeric addition, except that a non-empty string makes
    [+] a concatenation. [undefined], [null], [false], [0] and the empty
    string are replaced by [0] first. *)
Definition or0_plus1 (v : value) : value :=
  match js_or v (VNum 0) with
  | VNum n => VNum (n + 1)
  | VStr s => VStr (s +:+ "1")
  | VBool true => VNum 2
  | VBool false | VNull | VUndef => VNum 1
  end.

(** Records: open attribute maps. A missing property reads [undefined]. *)
Abbreviation record := (gmap string value).

Definition getp (r : record) (k : string) : value := default VUndef (r !! k).

(** ** Errors and results *)

Inductive error : Type :=
  | Error (message : string)        (* [throw new Error(message)] *)
  | DOMException (name : string).   (* raised by the IndexedDB runtime *)

Inductive result (A : Type) : Type :=
  | Ok (a : A)
  | Err (e : error).
Arguments Ok {A} a.
Arguments Err {A} e.

Definition is_ok {A} (r : result A) : bool :=
  match r with Ok _ => true | Err _ => false end.

(** The value a result carries, [d] for a rejection. *)
Definition result_value {A} (d : A) (r : result A) : A :=
  match r with Ok a => a | Err _ => d end.

(** ** The environment: clock and random source *)

(** One [Env] is what one call of [addMetadata] can observe:
    [new Date()] (milliseconds since the epoch), and, inside [generateId],
    [Date.now()] and the nine-character suffix
    [Math.random().toString(36).substr(2, 9)]. *)
Record Env : Type := mkEnv {
  clock : Z;
  id_clock : Z;
  random36 : string
}.

Definition digit36 (d : Z) : ascii :=
  nth (Z.to_nat d)
      (list_ascii_of_string "0123456789abcdefghijklmnopqrstuvwxyz") "0"%char.

Fixpoint to_base36 (fuel : nat) (n : Z) (acc : string) : string :=
  let acc' := String (digit36 (n mod 36)) acc in
  match fuel with
  | O => acc'
  | S f => if n / 36 =? 0 then acc' else to_base36 f (n / 36) acc'
  end.

(** [Number.prototype.toString(36)] on an integer. *)
Definition toString36 (n : Z) : string :=
  if n <? 0 then "-" +:+ to_base36 (Z.to_nat (Z.log2 (- n))) (- n) ""
  else to_base36 (Z.to_nat (Z.log2 n)) n "".

(** [generateId()] *)
Definition generateId (e : Env) : string :=
  toString36 (id_clock e) +:+ random36 e.

(** ** The fixed table set and its schema (indexeddb-adapter.ts, 6-14, 43-82) *)

Definition TABLES : list string :=
  [ "clients"; "products"; "product_components"; "projects";
    "project_products"; "transactions"; "stock_movements" ].

(** The names of the indexes [initialize] creates on a table. *)
Definition indexNames (table : string) : list string :=
  ([ "created_at"; "updated_at"; "_sync_status"; "_version" ] ++
   if String.eqb table "products" then [ "name"; "category"; "type" ]
   else if String.eqb table "clients" then [ "name"; "email" ]
   else if String.eqb table "projects" then [ "client_id"; "status"; "number" ]
   else if String.eqb table "product_components"
        then [ "parent_product_id"; "component_product_id" ]
   else if String.eqb table "project_products" then [ "project_id"; "product_id" ]
   else if String.eqb table "transactions" then [ "type"; "date"; "project_id" ]
   else if String.eqb table "stock_movements"
        then [ "product_id"; "project_id"; "movement_date" ]
   else [])%list.

(** The indexes created with [{ unique: true }]. *)
Definition uniqueIndexes (table : string) : list string :=
  if String.eqb table "projects" then [ "number" ] else [].

(** ** Object stores *)

(** What IndexedDB accepts as a key, among the values of the embedding. *)
Definition valid_key (v : value) : bool :=
  match v with
  | VNum _ | VStr _ => true
  | _ => false
  end.

(** The key order: numbers before strings, then the natural order. *)
Definition key_le (a b : value) : bool :=
  match a, b with
  | VNum x, VNum y => x <=? y
  | VNum _, VStr _ => true
  | VStr x, VStr y => String.leb x y
  | VStr _, VNum _ => false
  | _, _ => true
  end.

(** An object store with key path ['id']: records by primary key. *)
Abbreviation store := (gmap value record).
(** A database: object stores by name. *)
Abbreviation database := (gmap string (gmap value record)).

Definition entry_le (x y : value * record) : Prop := key_le x.1 y.1 = true.

#[global] Instance entry_le_dec : RelDecision entry_le.
Proof. intros x y. unfold entry_le. apply _. Defined.

(** [store.getAll()]: every record, in key order. *)
Definition getAll (s : store) : list record :=
  (merge_sort entry_le (map_to_list s)).*2.

(** A write of [r] under primary key [k] violates a unique index when
    another record carries the same (valid) index key. *)
Definition unique_clash (table : string) (s : store) (k : value) (r : record) : Prop :=
  ∃ ix, ix ∈ uniqueIndexes table ∧ valid_key (getp r ix) = true ∧
        map_Exists (λ k' r', k' ≠ k ∧ getp r' ix = getp r ix) s.

#[global] Instance unique_clash_dec table s k r : Decision (unique_clash table s k r).
Proof.
  unfold unique_clash.
  refine (cast_if (decide (Exists (λ ix, valid_key (getp r ix) = true ∧
      map_Exists (λ k' r', k' ≠ k ∧ getp r' ix = getp r ix) s) (uniqueIndexes table))));
    rewrite Exists_exists in *; naive_solver.
Defined.

(** [store.add(record)] *)
Definition store_add (table : string) (s : store) (r : record) : result store :=
  let k := getp r "id" in
  if negb (valid_key k) then Err (DOMException "DataError")
  else if bool_decide (is_Some (s !! k)) then Err (DOMException "ConstraintError")
  else if bool_decide (unique_clash table s k r) then Err (DOMException "ConstraintError")
  else Ok (<[k := r]> s).

(** [store.put(record)] *)
Definition store_put (table : string) (s : store) (r : record) : result store :=
  let k := getp r "id" in
  if negb (valid_key k) then Err (DOMException "DataError")
  else if bool_decide (unique_clash table s k r) then Err (DOMException "ConstraintError")
  else Ok (<[k := r]> s).

(** ** A state-and-exception monad for the asynchronous operations

    An [async] function runs on an object's state and either resolves or
    rejects; what it wrote before rejecting stays written. *)

Definition M (S A : Type) : Type := S → result A * S.

Definition ret {S A} (x : A) : M S A := λ s, (Ok x, s).

Definition bind {S A B} (m : M S A) (f : A → M S B) : M S B :=
  λ s, match m s with
       | (Ok a, s') => f a s'
       | (Err e, s') => (Err e, s')
       end.

Definition throw {S A} (e : error) : M S A := λ s, (Err e, s).

(** [try { m } catch (error) { h error }] *)
Definition try_catch {S A} (m : M S A) (h : error → M S A) : M S A :=
  λ s, match m s with
       | (Ok a, s') => (Ok a, s')
       | (Err e, s') => h e s'
       end.

Definition gets {S A} (f : S → A) : M S A := λ s, (Ok (f s), s).
Definition modify {S} (f : S → S) : M S unit := λ s, (Ok tt, f s).
Definition lift {S A} (r : result A) : M S A := λ s, (r, s).

Declare Scope sync_scope.
Delimit Scope sync_scope with sync.
Notation "x <- m ;; k" := (bind m (λ x, k))
  (at level 100, m at next level, right associativity) : sync_scope.
Notation "m ;;; k" := (bind m (λ _, k))
  (at level 100, right associativity) : sync_scope.
Local Open Scope sync_scope.

(** ** What the JavaScript runtime supplies *)

Class Runtime : Type := {
  (** [Date.prototype.toISOString] of the instant [t] *)
  toISOString : Z → string;
  (** [Date.parse]: the instant a string denotes, [None] for an invalid date *)
  Date_parse : string → option Z;
  (** [ToNumber] on a string, [None] for [NaN] *)
  StringToNumber : string → option Z;
  (** an ISO timestamp has 24 characters or more *)
  toISOString_nonempty : ∀ t, toISOString t ≠ ""
}.

(** ** The IndexedDB adapter (indexeddb-adapter.ts) *)

Record IndexedDBAdapter : Type := mkIDB {
  db : option database;      (* [null] until [initialize] *)
  deviceId : string
}.

Inductive sortOrder : Type := asc | desc.

Record QueryOptions : Type := mkQuery {
  orderBy : option string;
  order : option sortOrder;
  limit : option Z;
  offset : option Z;
  where_ : option (list (string * value))
}.

(** [{}] *)
Definition noOptions : QueryOptions := mkQuery None None None None None.

Section IndexedDB.
Context `{JS : Runtime}.

Definition ensureDb : M IndexedDBAdapter database :=
  λ a, match db a with
       | Some d => (Ok d, a)
       | None => (Err (Error "Database not initialized. Call initialize() first."), a)
       end.

(** [db.transaction(table, mode).objectStore(table)] *)
Definition objectStore (d : database) (table : string) : result store :=
  match d !! table with
  | Some s => Ok s
  | None => Err (DOMException "NotFoundError")
  end.

(** The effect of a committed transaction on one object store. *)
Definition commit (table : string) (s : store) : M IndexedDBAdapter unit :=
  modify (λ a, mkIDB (<[table := s]> <$> db a) (deviceId a)).

(** [addMetadata] (97-108) *)
Definition addMetadata (device : string) (e : Env) (data : record) : record :=
  let now := VStr (toISOString (clock e)) in
  <["_sync_status" := VStr "pending"]>
 (<["_device_id" := VStr device]>
 (<["_version" := or0_plus1 (getp data "_version")]>
 (<["updated_at" := now]>
 (<["created_at" := js_or (getp data "created_at") now]>
 (<["id" := js_or (getp data "id") (VStr (generateId e))]> data))))).

(** [get] (110-120) *)
Definition get (table : string) (id : value) : M IndexedDBAdapter (option record) :=
  d <- ensureDb ;;
  s <- lift (objectStore d table) ;;
  if valid_key id then ret (s !! id) else throw (DOMException "DataError").

(** [create] (126-138) *)
Definition create (e : Env) (table : string) (data : record)
  : M IndexedDBAdapter record :=
  d <- ensureDb ;;
  device <- gets deviceId ;;
  let record := addMetadata device e data in
  s <- lift (objectStore d table) ;;
  s' <- lift (store_add table s record) ;;
  commit table s' ;;;
  ret record.

(** [update] (140-162) *)
Definition update (e : Env) (table : string) (id : value) (data : record)
  : M IndexedDBAdapter record :=
  d <- ensureDb ;;
  existing <- get table id ;;
  match existing with
  | None =>
      throw (Error ("Record with id " +:+ js_toString id +:+ " not found in " +:+ table))
  | Some existing =>
      device <- gets deviceId ;;
      let updated := addMetadata device e (<["id" := id]> (data ∪ existing)) in
      s <- lift (objectStore d table) ;;
      s' <- lift (store_put table s updated) ;;
      commit table s' ;;;
      ret updated
  end.

(** [delete] (164-175) *)
Definition delete_ (table : string) (id : value) : M IndexedDBAdapter unit :=
  d <- ensureDb ;;
  s <- lift (objectStore d table) ;;
  if valid_key id then commit table (delete id s)
  else throw (DOMException "DataError").

(** [clear] (299-310) *)
Definition clear (table : string) : M IndexedDBAdapter unit :=
  d <- ensureDb ;;
  s <- lift (objectStore d table) ;;
  commit table ∅.

(** *** [query] (177-233) *)

(** [ToNumber] *)
Definition js_toNumber (v : value) : option Z :=
  match v with
  | VUndef => None
  | VNull => Some 0
  | VBool b => Some (if b then 1 else 0)
  | VNum n => Some n
  | VStr s => StringToNumber s
  end.

(** [a < b]: two strings compare by code units, anything else as numbers,
    and a comparison with [NaN] is false. [a > b] is [js_lt b a]. *)
Definition js_lt (a b : value) : bool :=
  match a, b with
  | VStr x, VStr y => String.ltb x y
  | _, _ =>
      match js_toNumber a, js_toNumber b with
      | Some x, Some y => x <? y
      | _, _ => false
      end
  end.

(** [Array.prototype.sort] is stable: an element moves behind another
    only when the comparator says it is strictly greater. With a
    comparator that is not a consistent order the result is
    implementation-defined; the embedding then fixes insertion order. *)
Fixpoint sort_insert {A} (cmp : A → A → Z) (x : A) (l : list A) : list A :=
  match l with
  | [] => [x]
  | y :: l' => if 0 <? cmp x y then y :: sort_insert cmp x l' else x :: y :: l'
  end.

Definition js_sort {A} (cmp : A → A → Z) (l : list A) : list A :=
  foldr (sort_insert cmp) [] l.

(** The comparator of lines 211-218. *)
Definition compareBy (field : string) (ord : sortOrder) (a b : record) : Z :=
  let aVal := getp a field in
  let bVal := getp b field in
  if js_lt aVal bVal then (match ord with asc => -1 | desc => 1 end)
  else if js_lt bVal aVal then (match ord with asc => 1 | desc => -1 end)
  else 0.

(** [arr.slice(start)] and [arr.slice(0, end)]: a negative argument counts
    from the end of the array. *)
Definition slice_from {A} (start : Z) (l : list A) : list A :=
  let len := Z.of_nat (length l) in
  let k := if start <? 0 then Z.max (len + start) 0 else Z.min start len in
  drop (Z.to_nat k) l.

Definition slice_to {A} (fin : Z) (l : list A) : list A :=
  let len := Z.of_nat (length l) in
  let k := if fin <? 0 then Z.max (len + fin) 0 else Z.min fin len in
  take (Z.to_nat k) l.

Definition key_cmp (a b : value) : Z :=
  if key_le a b then (if key_le b a then 0 else -1) else 1.

(** [index.getAll(query)]: the records that have a valid key on the index
    path; all of them in index order when [query] is [undefined] or
    [null], those whose index key is [query] otherwise. *)
Definition index_getAll (s : store) (path : string) (query : value)
  : result (list record) :=
  let indexed := filter (λ r, valid_key (getp r path) = true) (getAll s) in
  match query with
  | VUndef | VNull =>
      Ok (js_sort (λ a b, key_cmp (getp a path) (getp b path)) indexed)
  | _ =>
      if valid_key query
      then Ok (filter (λ r, getp r path = query) indexed)
      else Err (DOMException "DataError")
  end.

(** The request of lines 184-196. *)
Definition query_request (table : string) (s : store) (options : QueryOptions)
  : result (list record) :=
  match where_ options with
  | Some ((key, v) :: _) =>
      if bool_decide (key ∈ indexNames table) then index_getAll s key v
      else Ok (getAll s)
  | _ => Ok (getAll s)
  end.

Definition apply_where (options : QueryOptions) (results : list record) : list record :=
  match where_ options with
  | Some w => filter (λ item, Forall (λ kv, getp item kv.1 = kv.2) w) results
  | None => results
  end.

Definition apply_orderBy (options : QueryOptions) (results : list record) : list record :=
  match orderBy options with
  | Some field =>
      if truthy (VStr field)
      then js_sort (compareBy field (default asc (order options))) results
      else results
  | None => results
  end.

Definition apply_offset (options : QueryOptions) (results : list record) : list record :=
  match offset options with
  | Some n => if truthy (VNum n) then slice_from n results else results
  | None => results
  end.

Definition apply_limit (options : QueryOptions) (results : list record) : list record :=
  match limit options with
  | Some n => if truthy (VNum n) then slice_to n results else results
  | None => results
  end.

(** The [onsuccess] handler of lines 198-230. *)
Definition query_results (options : QueryOptions) (results : list record) : list record :=
  apply_limit options (apply_offset options (apply_orderBy options (apply_where options results))).

Definition query (table : string) (options : QueryOptions)
  : M IndexedDBAdapter (list record) :=
  d <- ensureDb ;;
  s <- lift (objectStore d table) ;;
  results <- lift (query_request table s options) ;;
  ret (query_results options results).

(** [list] (122-124) *)
Definition list_ (table : string) (options : option QueryOptions)
  : M IndexedDBAdapter (list record) :=
  query table (default noOptions options).

(** *** [bulkCreate] (235-255)

    All the [add] requests run in one transaction. A record whose id is
    not a valid key makes [add] throw at once: its promise rejects and the
    other requests go on. A request that fails aborts the transaction,
    which undoes every write of the call. *)
Fixpoint add_all (table : string) (s : store) (records : list record) : result store :=
  match records with
  | [] => Ok s
  | r :: rest =>
      if valid_key (getp r "id") then
        match store_add table s r with
        | Ok s' => add_all table s' rest
        | Err e => Err e
        end
      else add_all table s rest
  end.

Definition bulkCreate (es : nat → Env) (table : string) (data : list record)
  : M IndexedDBAdapter (list record) :=
  d <- ensureDb ;;
  device <- gets deviceId ;;
  let records := imap (λ i item, addMetadata device (es i) item) data in
  s <- lift (objectStore d table) ;;
  match List.find (λ r, negb (valid_key (getp r "id"))) records,
        add_all table s records with
  | None, Ok s' => commit table s' ;;; ret records
  | None, Err e => throw e
  | Some _, Ok s' => commit table s' ;;; throw (DOMException "DataError")
  | Some _, Err _ => throw (DOMException "DataError")
  end.

(** *** [export] and [import] (312-333) *)

(** [result[table] = records] on a plain object *)
Fixpoint obj_set {A} (k : string) (v : A) (o : list (string * A)) : list (string * A) :=
  match o with
  | [] => [(k, v)]
  | (k', v') :: o' => if String.eqb k' k then (k, v) :: o' else (k', v') :: obj_set k v o'
  end.

Fixpoint export_loop (tables : list string) (result : list (string * list record))
  : M IndexedDBAdapter (list (string * list record)) :=
  match tables with
  | [] => ret result
  | table :: rest =>
      records <- list_ table None ;;
      export_loop rest (obj_set table records result)
  end.

Definition export_ (tables : option (list string))
  : M IndexedDBAdapter (list (string * list record)) :=
  export_loop (default TABLES tables) [].

(** [ess i] supplies the clock and random readings of the [bulkCreate]
    that the [i]-th entry of the document triggers. *)
Fixpoint import_ (ess : nat → nat → Env) (data : list (string * list record))
  : M IndexedDBAdapter unit :=
  match data with
  | [] => ret tt
  | (table, records) :: rest =>
      (if bool_decide (table ∈ TABLES) then
         clear table ;;;
         if (0 <? Z.of_nat (length records))
         then bulkCreate (ess 0%nat) table records ;;; ret tt
         else ret tt
       else ret tt) ;;;
      import_ (λ i, ess (S i)) rest
  end.
End IndexedDB.

(** The database [onupgradeneeded] creates: the fixed tables, all empty. *)
Definition fresh_database : database :=
  list_to_map ((λ t, (t, (∅ : store))) <$> TABLES).

(** ** The adapter contract as the synchroniser uses it (types.ts, 50-80)

    The remote adapter is any implementation of the contract over a state
    [R] of its own: the client object together with the service behind it.
    Every call may reject, and may change [R] whether it rejects or not. *)

Class IStorageAdapter (R : Type) : Type := {
  adapter_list : string → option QueryOptions → M R (list record);
  adapter_create : string → record → M R record;
  adapter_update : string → value → record → M R record;
  adapter_delete : string → value → M R unit
}.

(** ** The synchroniser (sync-manager.ts) *)

Inductive SyncStrategy : Type := local_wins | remote_wins | manual | newest_wins.

Inductive Resolution : Type := res_local | res_remote | res_manual.

#[global] Instance SyncStrategy_eq_dec : EqDecision SyncStrategy.
Proof. solve_decision. Defined.

#[global] Instance Resolution_eq_dec : EqDecision Resolution.
Proof. solve_decision. Defined.

Record ConflictResolution : Type := mkConflict {
  c_record : record;
  c_local : record;
  c_remote : record;
  c_resolution : Resolution;
  c_resolvedData : option record
}.

Inductive OperationKind : Type := op_create | op_update | op_delete.

#[global] Instance OperationKind_eq_dec : EqDecision OperationKind.
Proof. solve_decision. Defined.

Record SyncOperation : Type := mkOp {
  op_id : string;
  op_table : string;
  op_operation : OperationKind;
  op_data : record;
  op_timestamp : string;
  op_retries : Z
}.

#[global] Instance ConflictResolution_eq_dec : EqDecision ConflictResolution.
Proof. solve_decision. Defined.

#[global] Instance SyncOperation_eq_dec : EqDecision SyncOperation.
Proof. solve_decision. Defined.

(** The fields of the class, the object behind each adapter reference, and
    two pieces of the surrounding browser: [saved], the value of the
    [localStorage] key ['pending_sync_operations'], and [reads], the number
    of readings of the clock and random source made so far. *)
Record SyncManager (R : Type) : Type := mkSync {
  isOnline : bool;
  isSyncing : bool;
  conflicts : gmap string ConflictResolution;
  pendingOperations : list SyncOperation;
  lastSyncTime : option Z;
  localAdapter : IndexedDBAdapter;
  remoteAdapter : option R;
  strategy : SyncStrategy;
  saved : list SyncOperation;
  reads : nat
}.
Arguments mkSync {R}.
Arguments isOnline {R}.
Arguments isSyncing {R}.
Arguments conflicts {R}.
Arguments pendingOperations {R}.
Arguments lastSyncTime {R}.
Arguments localAdapter {R}.
Arguments remoteAdapter {R}.
Arguments strategy {R}.
Arguments saved {R}.
Arguments reads {R}.

Section Setters.
Context {R : Type}.
Implicit Type st : SyncManager R.

Definition set_isOnline (b : bool) st : SyncManager R :=
  mkSync b (isSyncing st) (conflicts st) (pendingOperations st) (lastSyncTime st)
         (localAdapter st) (remoteAdapter st) (strategy st) (saved st) (reads st).
Definition set_isSyncing (b : bool) st : SyncManager R :=
  mkSync (isOnline st) b (conflicts st) (pendingOperations st) (lastSyncTime st)
         (localAdapter st) (remoteAdapter st) (strategy st) (saved st) (reads st).
Definition set_conflicts (c : gmap string ConflictResolution) st : SyncManager R :=
  mkSync (isOnline st) (isSyncing st) c (pendingOperations st) (lastSyncTime st)
         (localAdapter st) (remoteAdapter st) (strategy st) (saved st) (reads st).
Definition set_pendingOperations (q : list SyncOperation) st : SyncManager R :=
  mkSync (isOnline st) (isSyncing st) (conflicts st) q (lastSyncTime st)
         (localAdapter st) (remoteAdapter st) (strategy st) (saved st) (reads st).
Definition set_lastSyncTime (t : option Z) st : SyncManager R :=
  mkSync (isOnline st) (isSyncing st) (conflicts st) (pendingOperations st) t
         (localAdapter st) (remoteAdapter st) (strategy st) (saved st) (reads st).
Definition set_localAdapter (a : IndexedDBAdapter) st : SyncManager R :=
  mkSync (isOnline st) (isSyncing st) (conflicts st) (pendingOperations st) (lastSyncTime st)
         a (remoteAdapter st) (strategy st) (saved st) (reads st).
Definition set_remoteAdapter (r : option R) st : SyncManager R :=
  mkSync (isOnline st) (isSyncing st) (conflicts st) (pendingOperations st) (lastSyncTime st)
         (localAdapter st) r (strategy st) (saved st) (reads st).
Definition set_strategy (s : SyncStrategy) st : SyncManager R :=
  mkSync (isOnline st) (isSyncing st) (conflicts st) (pendingOperations st) (lastSyncTime st)
         (localAdapter st) (remoteAdapter st) s (saved st) (reads st).
Definition set_saved (q : list SyncOperation) st : SyncManager R :=
  mkSync (isOnline st) (isSyncing st) (conflicts st) (pendingOperations st) (lastSyncTime st)
         (localAdapter st) (remoteAdapter st) (strategy st) q (reads st).
Definition set_reads (n : nat) st : SyncManager R :=
  mkSync (isOnline st) (isSyncing st) (conflicts st) (pendingOperations st) (lastSyncTime st)
         (localAdapter st) (remoteAdapter st) (strategy st) (saved st) n.
End Setters.

Section Sync.
Context `{JS : Runtime} {R : Type} `{RA : IStorageAdapter R}.

(** [env n] is the [n]-th reading of the clock and random source;
    [quota q] tells whether [localStorage] accepts the serialised queue. *)
Variable env : nat → Env.
Variable quota : list SyncOperation → bool.

Definition readEnv : M (SyncManager R) Env :=
  λ st, (Ok (env (reads st)), set_reads (S (reads st)) st).

(** A call on [this.localAdapter]. *)
Definition onLocal {A} (m : M IndexedDBAdapter A) : M (SyncManager R) A :=
  λ st, let (r, a) := m (localAdapter st) in (r, set_localAdapter a st).

(** A call on [this.remoteAdapter]; on [null] the property access throws. *)
Definition onRemote {A} (m : M R A) : M (SyncManager R) A :=
  λ st, match remoteAdapter st with
        | Some r => let (res, r') := m r in (res, set_remoteAdapter (Some r') st)
        | None => (Err (Error "TypeError: Cannot read properties of null"), st)
        end.

Definition localCreate (table : string) (data : record) : M (SyncManager R) record :=
  e <- readEnv ;; onLocal (create e table data).

Definition localUpdate (table : string) (id : value) (data : record)
  : M (SyncManager R) record :=
  e <- readEnv ;; onLocal (update e table id data).

(** [savePendingOperations] (281-283) *)
Definition savePendingOperations : M (SyncManager R) unit :=
  λ st, if quota (pendingOperations st)
        then (Ok tt, set_saved (pendingOperations st) st)
        else (Err (DOMException "QuotaExceededError"), st).

(** *** Push: [processPendingOperations] (319-355) *)

(** The [switch] of lines 327-337. *)
Definition replay (op : SyncOperation) : M (SyncManager R) unit :=
  match op_operation op with
  | op_create =>
      onRemote (adapter_create (op_table op) (op_data op)) ;;; ret tt
  | op_update =>
      onRemote (adapter_update (op_table op) (getp (op_data op) "id") (op_data op)) ;;;
      ret tt
  | op_delete =>
      onRemote (adapter_delete (op_table op) (getp (op_data op) "id"))
  end.

Definition bump (op : SyncOperation) : SyncOperation :=
  mkOp (op_id op) (op_table op) (op_operation op) (op_data op) (op_timestamp op)
       (op_retries op + 1).

(** The loop over [operations], a shallow copy of the queue: the [i]-th
    element is the very object at position [i] of [this.pendingOperations],
    so [op.retries++] writes through to the queue. *)
Fixpoint push_loop (i : nat) (operations : list SyncOperation)
    (successfulOps : list string) : M (SyncManager R) (list string) :=
  match operations with
  | [] => ret successfulOps
  | op :: rest =>
      successfulOps' <-
        try_catch
          (replay op ;;; ret (successfulOps ++ [op_id op])%list)
          (λ _,
             modify (λ st, set_pendingOperations
                             (<[i := bump op]> (pendingOperations st)) st) ;;;
             if 3 <? op_retries (bump op)
             then ret (successfulOps ++ [op_id op])%list
             else ret successfulOps) ;;
      push_loop (S i) rest successfulOps'
  end.

Definition processPendingOperations : M (SyncManager R) unit :=
  λ st,
    match remoteAdapter st with
    | None => (Ok tt, st)
    | Some _ =>
        (successfulOps <- push_loop 0 (pendingOperations st) [] ;;
         modify (λ st, set_pendingOperations
                         (filter (λ op, op_id op ∉ successfulOps) (pendingOperations st))
                         st) ;;;
         savePendingOperations) st
    end.

(** *** Pull: [syncFromRemote] (357-403) and [resolveConflict] (405-430) *)

(** [new Date(v).getTime()], [None] for [NaN] *)
Definition getTime (v : value) : option Z :=
  match v with
  | VUndef => None
  | VNull => Some 0
  | VBool b => Some (if b then 1 else 0)
  | VNum n => if Z.abs n <=? 8640000000000000 then Some n else None
  | VStr s => Date_parse s
  end.

(** [a > b] on two numbers, false when either is [NaN] *)
Definition num_gt (a b : option Z) : bool :=
  match a, b with
  | Some x, Some y => y <? x
  | _, _ => false
  end.

Definition resolveConflict (local remote : record) : M (SyncManager R) Resolution :=
  λ st,
    match strategy st with
    | local_wins => (Ok res_local, st)
    | remote_wins => (Ok res_remote, st)
    | newest_wins =>
        let localTime :=
          getTime (js_or (getp local "updated_at") (getp local "created_at")) in
        let remoteTime :=
          getTime (js_or (getp remote "updated_at") (getp remote "created_at")) in
        (Ok (if num_gt localTime remoteTime then res_local else res_remote), st)
    | manual =>
        (e <- readEnv ;;
         let conflictId := js_toString (getp local "id") +:+ "_" +:+ pretty (clock e) in
         modify (λ st, set_conflicts
                         (<[conflictId := mkConflict local local remote res_manual None]>
                            (conflicts st)) st) ;;;
         ret res_manual) st
    end.

(** [new Map(records.map(r => [r.id, r]))]: a later entry replaces an
    earlier one with the same key. *)
Definition mapById (records : list record) : gmap value record :=
  foldl (λ m r, <[getp r "id" := r]> m) ∅ records.

(** The body of the loop of lines 378-392. *)
Definition pull_record (table : string) (localMap : gmap value record)
    (remoteRecord : record) : M (SyncManager R) unit :=
  match localMap !! getp remoteRecord "id" with
  | None => localCreate table remoteRecord ;;; ret tt
  | Some localRecord =>
      resolution <- resolveConflict localRecord remoteRecord ;;
      match resolution with
      | res_remote =>
          localUpdate table (getp remoteRecord "id") remoteRecord ;;; ret tt
      | res_local =>
          onRemote (adapter_update table (getp localRecord "id") localRecord) ;;; ret tt
      | res_manual => ret tt
      end
  end.

(** The body of the loop of lines 394-398. *)
Definition prune_record (table : string) (remoteMap : gmap value record)
    (localRecord : record) : M (SyncManager R) unit :=
  if negb (bool_decide (is_Some (remoteMap !! getp localRecord "id")))
     && bool_decide (getp localRecord "_sync_status" = VStr "synced")
  then onLocal (delete_ table (getp localRecord "id"))
  else ret tt.

(** [for (const x of xs) { await f(x) }] *)
Fixpoint forEach {S A} (f : A → M S unit) (xs : list A) : M S unit :=
  match xs with
  | [] => ret tt
  | x :: xs' => f x ;;; forEach f xs'
  end.

(** The [try] block of lines 371-398, for one table. *)
Definition syncTable_try (table : string) : M (SyncManager R) unit :=
  remoteRecords <- onRemote (adapter_list table None) ;;
  localRecords <- onLocal (list_ table None) ;;
  let localMap := mapById localRecords in
  let remoteMap := mapById remoteRecords in
  forEach (pull_record table localMap) remoteRecords ;;;
  forEach (prune_record table remoteMap) localRecords.

(** One turn of the loop over the tables: the failure is logged. *)
Definition syncTable (table : string) : M (SyncManager R) unit :=
  try_catch (syncTable_try table) (λ _, ret tt).

Definition syncFromRemote : M (SyncManager R) unit :=
  λ st,
    match remoteAdapter st with
    | None => (Ok tt, st)
    | Some _ => forEach syncTable TABLES st
    end.

(** *** [triggerSync] (301-317)

    An [async] function runs without interruption up to its first
    [await]. For [triggerSync] that is the guard and the assignment of
    line 306: [triggerSync_begin] gives the state in which the call is
    suspended at line 309, or [None] when the guard returned. What the
    call does once it is resumed is the [try] block with its [catch]
    (308-314), then the [finally] clause (315). *)
Definition triggerSync_begin (st : SyncManager R) : option (SyncManager R) :=
  if isSyncing st || negb (bool_decide (is_Some (remoteAdapter st))) || negb (isOnline st)
  then None
  else Some (set_isSyncing true st).

Definition triggerSync_try : M (SyncManager R) unit :=
  try_catch
    (processPendingOperations ;;;
     syncFromRemote ;;;
     e <- readEnv ;;
     modify (set_lastSyncTime (Some (clock e))))
    (λ _, ret tt).

Definition triggerSync_finally (st : SyncManager R) : SyncManager R :=
  set_isSyncing false st.

(** The call when nothing else runs in between. *)
Definition triggerSync : M (SyncManager R) unit :=
  λ st,
    match triggerSync_begin st with
    | None => (Ok tt, st)
    | Some st1 =>
        let (r, st2) := triggerSync_try st1 in
        (r, triggerSync_finally st2)
    end.

(** [addPendingOperation] (285-299). The sync it triggers is not awaited by
    the caller; in this sequential reading it runs to its end. *)
Definition addPendingOperation (table : string) (operation : OperationKind)
    (data : record) : M (SyncManager R) unit :=
  e <- readEnv ;;
  let syncOp := mkOp (generateId e) table operation data (toISOString (clock e)) 0 in
  modify (λ st, set_pendingOperations (pendingOperations st ++ [syncOp])%list st) ;;;
  savePendingOperations ;;;
  (λ st, if isOnline st && bool_decide (is_Some (remoteAdapter st))
         then triggerSync st else (Ok tt, st)).

(** *** [resolveConflictManually] (436-458) *)
Definition resolveConflictManually (conflictId : string) (resolution : Resolution)
    (customData : option record) : M (SyncManager R) unit :=
  λ st,
    match conflicts st !! conflictId with
    | None => (Err (Error ("Conflict " +:+ conflictId +:+ " not found")), st)
    | Some conflict =>
        let resolvedData :=
          match customData with
          | Some d => d
          | None => match resolution with
                    | res_local => c_local conflict
                    | _ => c_remote conflict
                    end
          end in
        let tableMatch :=
          List.find (λ c, bool_decide (getp (c_record c) "id" = getp (c_record conflict) "id"))
                    (map_to_list (conflicts st)).*2 in
        match tableMatch with
        | None => (Ok tt, st)
        | Some _ =>
            (localUpdate "unknown_table" (getp (c_record conflict) "id") resolvedData ;;;
             (λ st, match remoteAdapter st with
                    | Some _ =>
                        (onRemote (adapter_update "unknown_table"
                                     (getp (c_record conflict) "id") resolvedData) ;;;
                         ret tt) st
                    | None => (Ok tt, st)
                    end) ;;;
             modify (λ st, set_conflicts (delete conflictId (conflicts st)) st)) st
        end
    end.
End Sync.

(** ** Passes in flight

    [triggerSync] is asynchronous: between the moment a call is suspended
    and its [finally] clause, other callbacks of the single-threaded event
    loop run, among them further calls of [triggerSync]. A configuration
    pairs the synchroniser with the number of calls that are suspended:
    the passes in flight. The event loop runs, one at a time, the first
    lines of a new call ([triggerSync_begin]), the [finally] clause of a
    suspended call ([triggerSync_finally]), or some code between the two,
    which is any code but lines 306 and 315, the only assignments to
    [isSyncing] in the class. *)

Definition guard {R} (st : SyncManager R) : bool :=
  isSyncing st || negb (bool_decide (is_Some (remoteAdapter st))) || negb (isOnline st).

Inductive step {R : Type} : SyncManager R * nat → SyncManager R * nat → Prop :=
  | step_enter st st1 n :        (* a call that gets past the guard and is suspended *)
      triggerSync_begin st = Some st1 →
      step (st, n) (st1, S n)
  | step_skip st n :             (* a call that returns at the guard *)
      triggerSync_begin st = None →
      step (st, n) (st, n)
  | step_leave st n :            (* a suspended call runs its [finally] *)
      step (st, S n) (triggerSync_finally st, n)
  | step_other st st' n :        (* any code that does not assign [isSyncing] *)
      isSyncing st' = isSyncing st →
      step (st, n) (st', n).

Inductive reachable {R : Type} : SyncManager R * nat → Prop :=
  | reachable_init st :
      isSyncing st = false → reachable (st, O)
  | reachable_step c c' :
      reachable c → step c c' → reachable c'.

(** ** The storage manager (storage-manager.ts) *)

Inductive StorageProvider : Type :=
  provider_local | provider_supabase | provider_firebase | provider_custom.

Record StorageConfig : Type := mkConfig {
  provider : StorageProvider;
  autoSync : bool;
  syncInterval : option Z;
  syncStrategy : SyncStrategy;
  supabase : option (string * string)
}.

(** [localAdapter] is the object the synchroniser holds too: the one copy of
    its state is [localAdapter (syncManager m)]. [remoteAdapter] is kept as
    the fact that the reference is not [null]; [timer] is the handle of the
    auto-sync interval. *)
Record StorageManager (R : Type) : Type := mkManager {
  config : StorageConfig;
  hasRemoteAdapter : bool;
  syncManager : SyncManager R;
  timer : option Z
}.
Arguments mkManager {R}.
Arguments config {R}.
Arguments hasRemoteAdapter {R}.
Arguments syncManager {R}.
Arguments timer {R}.

Section Manager.
Context `{JS : Runtime} {R : Type} `{RA : IStorageAdapter R}.
Variable env : nat → Env.
Variable quota : list SyncOperation → bool.

Definition onSyncManager {A} (m : M (SyncManager R) A) : M (StorageManager R) A :=
  λ mg, let (r, st) := m (syncManager mg) in
        (r, mkManager (config mg) (hasRemoteAdapter mg) st (timer mg)).

(** [sync] (127-133) *)
Definition sync : M (StorageManager R) unit :=
  λ mg,
    if negb (hasRemoteAdapter mg)
    then (Err (Error "Remote adapter not configured. Enable cloud sync first."), mg)
    else onSyncManager (triggerSync env quota) mg.

(** [create] of [useStorageOperations] (kept behind [types.ts], 111-116): the
    write to the local adapter, then the queued intent. *)
Definition ops_create (table : string) (data : record) : M (StorageManager R) record :=
  onSyncManager
    (result <- localCreate env table data ;;
     addPendingOperation env quota table op_create result ;;;
     ret result).
End Manager.

(** ** Test doubles and sample data used by the examples *)

(** A runtime whose date functions are tabulated at the instants the
    examples use. *)
Definition sample_toISOString (t : Z) : string :=
  if t =? 1704067200000 then "2024-01-01T00:00:00.000Z"
  else if t =? 1704067260000 then "2024-01-01T00:01:00.000Z"
  else "T" +:+ pretty t.

Definition sample_Date_parse (s : string) : option Z :=
  if String.eqb s "2024-01-01T00:00:00.000Z" then Some 1704067200000
  else if String.eqb s "2024-01-01T00:01:00.000Z" then Some 1704067260000
  else None.

Definition sample_runtime : Runtime.
Proof.
  refine {| toISOString := sample_toISOString;
            Date_parse := sample_Date_parse;
            StringToNumber := λ _, None |}.
  intros t. unfold sample_toISOString.
  destruct (t =? 1704067200000); [discriminate|].
  destruct (t =? 1704067260000); discriminate.
Defined.

(** A remote that cannot be reached: every call rejects. *)
Inductive Unreachable : Type := unreachable.

Definition unreachable_adapter : IStorageAdapter Unreachable :=
  {| adapter_list := λ _ _, throw (Error "Failed to fetch");
     adapter_create := λ _ _, throw (Error "Failed to fetch");
     adapter_update := λ _ _ _, throw (Error "Failed to fetch");
     adapter_delete := λ _ _, throw (Error "Failed to fetch") |}.

(** A remote held in memory: tables of records, every call succeeds. *)
Definition memory_adapter : IStorageAdapter (gmap string (list record)) :=
  {| adapter_list := λ table _, gets (λ r, default [] (r !! table));
     adapter_create := λ table data,
       modify (λ r, <[table := (default [] (r !! table) ++ [data])%list]> r) ;;; ret data;
     adapter_update := λ table id data,
       modify (λ r, <[table := (λ x, if bool_decide (getp x "id" = id) then data ∪ x else x)
                                 <$> default [] (r !! table)]> r) ;;; ret data;
     adapter_delete := λ table id,
       modify (λ r, <[table := filter (λ x, getp x "id" ≠ id) (default [] (r !! table))]> r) |}.

Definition sample_env (n : nat) : Env :=
  mkEnv (1704067260000 + Z.of_nat n) (1704067260000 + Z.of_nat n) ("r" +:+ pretty n).

Definition sample_adapter : IndexedDBAdapter := mkIDB (Some fresh_database) "device_a".

Definition sample_record (id name : string) (version : Z) : record :=
  {[ "id" := VStr id;
     "name" := VStr name;
     "created_at" := VStr "2024-01-01T00:00:00.000Z";
     "updated_at" := VStr "2024-01-01T00:00:00.000Z";
     "_version" := VNum version;
     "_device_id" := VStr "device_a";
     "_sync_status" := VStr "pending" ]}.

Definition sample_clients : store :=
  {[ VStr "a" := sample_record "a" "Ana" 5;
     VStr "b" := sample_record "b" "Bia" 1;
     VStr "c" := sample_record "c" "Caio" 2 ]}.

(** A local adapter with three clients. *)
Definition sample_local : IndexedDBAdapter :=
  mkIDB (Some (<["clients" := sample_clients]> fresh_database)) "device_a".

(** ** Invariants of the local store *)

(** The record stored under key [k] of [table], if any. *)
Definition stored (a : IndexedDBAdapter) (table : string) (k : value) : option record :=
  d ← db a; s ← d !! table; s !! k.

(** What IndexedDB itself maintains for a store with key path ['id']: a
    record sits under the key its [id] holds, that key is valid, and no two
    records share a key of a unique index. *)
Definition in_line (s : store) : Prop :=
  ∀ k r, s !! k = Some r → getp r "id" = k ∧ valid_key k = true.

Definition unique_ok (table : string) (s : store) : Prop :=
  ∀ ix k1 r1 k2 r2,
    ix ∈ uniqueIndexes table → s !! k1 = Some r1 → s !! k2 = Some r2 →
    valid_key (getp r1 ix) = true → getp r1 ix = getp r2 ix → k1 = k2.

Definition store_ok (table : string) (s : store) : Prop := in_line s ∧ unique_ok table s.

(** The database of an initialised adapter: the fixed tables, each a
    consistent store. *)
Definition idb_ok (a : IndexedDBAdapter) : Prop :=
  ∃ d, db a = Some d ∧ (∀ t, t ∈ TABLES ↔ is_Some (d !! t)) ∧
       ∀ t s, d !! t = Some s → store_ok t s.

(** What [addMetadata] leaves on every record it returns. *)
Definition stamped (device : string) (r : record) : Prop :=
  truthy (getp r "id") = true ∧ truthy (getp r "created_at") = true ∧
  getp r "_device_id" = VStr device ∧ getp r "_sync_status" = VStr "pending".

Definition all_stamped (a : IndexedDBAdapter) : Prop :=
  ∀ t k r, stored a t k = Some r → stamped (deviceId a) r.

Definition all_pending (a : IndexedDBAdapter) : Prop :=
  ∀ t k r, stored a t k = Some r → getp r "_sync_status" = VStr "pending".

(** Every record of [a'] was already in [a] or carries the pending mark. *)
Definition writes_pending (a a' : IndexedDBAdapter) : Prop :=
  ∀ t k r, stored a' t k = Some r →
           stored a t k = Some r ∨ getp r "_sync_status" = VStr "pending".

(** Every record of [a'] was already in [a] or came out of [addMetadata];
    the device id is the same. *)
Definition writes_through `{JS : Runtime} (a a' : IndexedDBAdapter) : Prop :=
  deviceId a' = deviceId a ∧
  ∀ t k r, stored a' t k = Some r →
           stored a t k = Some r ∨ ∃ e data, r = addMetadata (deviceId a) e data.

(** Every stored record has a truthy [id]. *)
Definition truthy_ids (a : IndexedDBAdapter) : Prop :=
  ∀ t k r, stored a t k = Some r → truthy (getp r "id") = true.

(** Under key [k] of [table] there is a record that is not marked synced. *)
Definition unsynced_at (table : string) (k : value) (a : IndexedDBAdapter) : Prop :=
  ∃ r, stored a table k = Some r ∧ getp r "_sync_status" ≠ VStr "synced".

(** The database of [a] has an object store [table]. *)
Definition has_store (table : string) (a : IndexedDBAdapter) : Prop :=
  ∃ d s, db a = Some d ∧ d !! table = Some s.

(** An invariant that holds afterwards if it held before. *)
Definition keeps (I : IndexedDBAdapter → Prop) (a a' : IndexedDBAdapter) : Prop :=
  I a → I a'.

(** [s'] holds the records of [s], each passed through [addMetadata] with
    the reading its position in key order selects, under its own [id]. *)
Definition restamped `{JS : Runtime} (device : string) (es : nat → Env)
    (s s' : store) : Prop :=
  ∀ k r', s' !! k = Some r' ↔
          ∃ i item, getAll s !! i = Some item ∧ getp item "id" = k ∧
                    r' = addMetadata device (es i) item.

(** The export document of a database: each table with its records. *)
Definition document (d : database) (tables : list string) : list (string * list record) :=
  (λ t, (t, getAll (default ∅ (d !! t)))) <$> tables.

(** The invariants can be checked on a given adapter. *)
#[global] Instance in_line_dec (s : store) : Decision (in_line s).
Proof.
  refine (cast_if (decide (map_Forall (λ k r, getp r "id" = k ∧ valid_key k = true) s)));
    done.
Defined.

#[global] Instance unique_ok_dec table (s : store) : Decision (unique_ok table s).
Proof.
  refine (cast_if (decide (Forall (λ ix,
            map_Forall (λ k1 r1,
              map_Forall (λ k2 r2,
                valid_key (getp r1 ix) = true → getp r1 ix = getp r2 ix → k1 = k2) s) s)
            (uniqueIndexes table))));
    unfold unique_ok; rewrite Forall_forall in *; unfold map_Forall in *.
  - intros ix k1 r1 k2 r2 Hix Hk1 Hk2. by eapply f.
  - intros Hu. apply n. intros ix Hix k1 r1 Hk1 k2 r2 Hk2. by eapply Hu.
Defined.

#[global] Instance store_ok_dec table (s : store) : Decision (store_ok table s).
Proof. unfold store_ok. apply _. Defined.

#[global] Instance idb_ok_dec a : Decision (idb_ok a).
Proof.
  destruct (db a) as [d|] eqn:Hd.
  - refine (cast_if (decide (dom d = list_to_set (C := gset string) TABLES ∧
                             map_Forall (λ t s, store_ok t s) d))).
    + destruct a0 as [Hdom Hall]. exists d. split; [done|]. split; [|exact Hall].
      intros t. rewrite <- (elem_of_dom (D := gset string)), Hdom.
      by rewrite elem_of_list_to_set.
    + intros (d' & Hd' & Hdom & Hall). rewrite Hd in Hd'. injection Hd' as <-.
      apply n. split; [|exact Hall].
      apply set_eq. intros t. rewrite elem_of_dom, elem_of_list_to_set. by rewrite Hdom.
  - right. intros (d' & Hd' & _). by rewrite Hd in Hd'.
Defined.

#[global] Instance truthy_ids_dec a : Decision (truthy_ids a).
Proof.
  destruct (db a) as [d|] eqn:Hd.
  - refine (cast_if (decide (map_Forall (λ (t : string) (s : store),
              map_Forall (λ (k : value) (r : record), truthy (getp r "id") = true) s) d))).
    + intros t k r Hr. unfold stored in Hr. rewrite Hd in Hr. simpl in Hr.
      destruct (d !! t) as [s|] eqn:Hs; [|done]. simpl in Hr. by eapply m.
    + intros Ht. apply n. intros t s Hs k r Hk. apply (Ht t k r).
      unfold stored. rewrite Hd. simpl. by rewrite Hs.
  - left. intros t k r Hr. unfold stored in Hr. by rewrite Hd in Hr.
Defined.

#[global] Instance all_stamped_dec a : Decision (all_stamped a).
Proof.
  destruct (db a) as [d|] eqn:Hd.
  - refine (cast_if (decide (map_Forall (λ (t : string) (s : store),
              map_Forall (λ (k : value) (r : record), stamped (deviceId a) r) s) d))).
    + intros t k r Hr. unfold stored in Hr. rewrite Hd in Hr. simpl in Hr.
      destruct (d !! t) as [s|] eqn:Hs; [|done]. simpl in Hr. by eapply m.
    + intros Ht. apply n. intros t s Hs k r Hk. apply (Ht t k r).
      unfold stored. rewrite Hd. simpl. by rewrite Hs.
  - left. intros t k r Hr. unfold stored in Hr. by rewrite Hd in Hr.
Defined.

(** The adapters that can arise: a fresh database, then any sequence of
    the writing operations of the contract, whatever each one returns. *)
Inductive adapter_history `{JS : Runtime} : IndexedDBAdapter → Prop :=
  | history_init device :
      adapter_history (mkIDB (Some fresh_database) device)
  | history_create e table data a :
      adapter_history a → adapter_history (create e table data a).2
  | history_update e table id data a :
      adapter_history a → adapter_history (update e table id data a).2
  | history_delete table id a :
      adapter_history a → adapter_history (delete_ table id a).2
  | history_clear table a :
      adapter_history a → adapter_history (clear table a).2
  | history_bulkCreate es table data a :
      adapter_history a → adapter_history (bulkCreate es table data a).2
  | history_import ess data a :
      adapter_history a → adapter_history (import_ ess data a).2.

(** A computation relates the state it starts in to the state it ends in,
    whether it resolves or rejects. *)
Definition preserves {S A} (Q : S → S → Prop) (m : M S A) : Prop :=
  ∀ s r s', m s = (r, s') → Q s s'.

(** A relation on adapters, read on the local adapter of a synchroniser. *)
Definition on_local {R} (P : IndexedDBAdapter → IndexedDBAdapter → Prop)
  (st st' : SyncManager R) : Prop :=
  P (localAdapter st) (localAdapter st').

(** The flag [isSyncing] is the same in both states. *)
Definition same_flag {R} (st st' : SyncManager R) : Prop :=
  isSyncing st' = isSyncing st.

(** A remote record that claims to be synced already. *)
Definition sample_remote_record : record :=
  {[ "id" := VStr "r1"; "name" := VStr "Rui";
     "created_at" := VStr "2024-01-01T00:00:00.000Z";
     "_version" := VNum 3; "_sync_status" := VStr "synced" ]}.

(** A storage manager in local-only mode, online, nothing queued. *)
Definition sample_manager : StorageManager Unreachable :=
  mkManager (mkConfig provider_local false (Some 300000) newest_wins None) false
            (mkSync true false ∅ [] None (mkIDB (Some fresh_database) "device_a")
                    None newest_wins [] O)
            None.

Definition sample_client (name : string) : record := {[ "name" := VStr name ]}.

(** Five clients created through [useStorageOperations]. *)
Definition create_five : M (StorageManager Unreachable) unit :=
  let mk := ops_create (JS := sample_runtime) (RA := unreachable_adapter)
              sample_env (λ _, true) "clients" in
  mk (sample_client "Ana") ;;; mk (sample_client "Bia") ;;; mk (sample_client "Caio") ;;;
  mk (sample_client "Duda") ;;; mk (sample_client "Edu") ;;; ret tt.

(** Two states of a synchroniser whose remote cannot be reached: in the
    middle of a pass, and idle. *)
Definition sample_busy : SyncManager Unreachable :=
  mkSync true true ∅ [] None sample_local (Some unreachable) newest_wins [] O.

Definition sample_idle : SyncManager Unreachable :=
  mkSync true false ∅ [] None sample_local (Some unreachable) newest_wins [] O.

(** A conflict on client ["a"], as the manual strategy records it. *)
Definition sample_conflict : ConflictResolution :=
  mkConflict (sample_record "a" "Ana" 5) (sample_record "a" "Ana" 5)
             (sample_record "a" "Ana Lima" 6) res_manual None.

Definition sample_conflicted : SyncManager (gmap string (list record)) :=
  mkSync true false {[ "a_1704067260000" := sample_conflict ]} [] None sample_local
         (Some {[ "clients" := [sample_record "a" "Ana Lima" 6] ]}) manual [] O.

(** ** The push phase, as the specification words it *)

Section PushSpec.
Context {R : Type} `{RA : IStorageAdapter R}.

(** The call that replays a queued operation, on the remote adapter. *)
Definition remote_call (op : SyncOperation) : M R unit :=
  match op_operation op with
  | op_create => adapter_create (op_table op) (op_data op) ;;; ret tt
  | op_update =>
      adapter_update (op_table op) (getp (op_data op) "id") (op_data op) ;;; ret tt
  | op_delete => adapter_delete (op_table op) (getp (op_data op) "id")
  end.

(** Replay every queued operation in queue order, each on the remote as the
    previous one left it. An operation that succeeds leaves the queue; one
    that fails has its retry count incremented and stays, unless the count
    now exceeds the ceiling of 3, in which case it is dropped. The result
    is the new queue and the remote after the last call. *)
Fixpoint push_spec (ops : list SyncOperation) (r : R) : list SyncOperation * R :=
  match ops with
  | [] => ([], r)
  | op :: rest =>
      let (res, r1) := remote_call op r in
      let (kept, r2) := push_spec rest r1 in
      (match res with
       | Ok _ => kept
       | Err _ => if 3 <? op_retries op + 1 then kept else bump op :: kept
       end, r2)
  end.

(** The loop of [processPendingOperations] seen from outside: each
    operation as the loop leaves it, and whether its id went into
    [successfulOps]. *)
Fixpoint push_marks (ops : list SyncOperation) (r : R) : list (SyncOperation * bool) :=
  match ops with
  | [] => []
  | op :: rest =>
      let (res, r1) := remote_call op r in
      (match res with
       | Ok _ => (op, true)
       | Err _ => (bump op, 3 <? op_retries (bump op))
       end) :: push_marks rest r1
  end.

Definition marked_ids (marks : list (SyncOperation * bool)) : list string :=
  (λ m, op_id m.1) <$> filter (λ m, m.2 = true) marks.
End PushSpec.

(** A queue of one operation that has already failed three times, and one
    of a fresh operation, before a remote that cannot be reached. *)
Definition sample_op (retries : Z) : SyncOperation :=
  mkOp "lqu5ncyor0" "clients" op_create (sample_record "a" "Ana" 1)
       "2024-01-01T00:01:00.000Z" retries.

Definition sample_other_op : SyncOperation :=
  mkOp "lqu5ncypr1" "clients" op_delete {[ "id" := VStr "b" ]}
       "2024-01-01T00:01:00.000Z" 0.

(** A remote held in memory that refuses every [create]. *)
Definition refusing_adapter : IStorageAdapter (gmap string (list record)) :=
  {| adapter_list := adapter_list (IStorageAdapter := memory_adapter);
     adapter_create := λ _ _, throw (Error "new row violates row-level security policy");
     adapter_update := adapter_update (IStorageAdapter := memory_adapter);
     adapter_delete := adapter_delete (IStorageAdapter := memory_adapter) |}.

Definition sample_queue (retries : Z) : SyncManager (gmap string (list record)) :=
  mkSync true false ∅ [sample_op retries; sample_other_op] None sample_local
         (Some {[ "clients" := [sample_record "b" "Bia" 1] ]}) newest_wins [] O.

(** A local store with a client marked synced, one pending and one that
    the remote has too; the remote lists only the last. *)
Definition sample_synced_record : record :=
  <["_sync_status" := VStr "synced"]> (sample_record "s" "Sara" 2).

Definition sample_pull_local : IndexedDBAdapter :=
  mkIDB (Some (<["clients" := {[ VStr "s" := sample_synced_record;
                                 VStr "p" := sample_record "p" "Pedro" 1;
                                 VStr "c" := sample_record "c" "Caio" 2 ]}]>
                 fresh_database)) "device_a".

Definition sample_pull : SyncManager (gmap string (list record)) :=
  mkSync true false ∅ [] None sample_pull_local
         (Some {[ "clients" := [sample_record "c" "Caio" 2] ]}) newest_wins [] O.

(** The relations above are preorders. *)
#[global] Instance on_local_preorder {R} P `{!PreOrder P} : PreOrder (on_local (R := R) P).
Proof.
  split.
  - intros st. unfold on_local. reflexivity.
  - intros st1 st2 st3. unfold on_local. etransitivity; eauto.
Qed.

#[global] Instance same_flag_preorder {R} : PreOrder (same_flag (R := R)).
Proof.
  split.
  - by intros st.
  - intros st1 st2 st3. unfold same_flag. congruence.
Qed.

#[global] Instance writes_through_preorder `{JS : Runtime} : PreOrder writes_through.
Proof.
  split.
  - intros a. split; [done|]. intros t k r Hr. by left.
  - intros a1 a2 a3 [Hd12 H12] [Hd23 H23]. split; [congruence|].
    intros t k r Hr.
    destruct (H23 t k r Hr) as [Hr2|(e & data & ->)].
    + by apply H12.
    + right. exists e, data. by rewrite Hd12.
Qed.

#[global] Instance writes_pending_preorder : PreOrder writes_pending.
Proof.
  split.
  - intros a t k r Hr. by left.
  - intros a1 a2 a3 H12 H23 t k r Hr.
    destruct (H23 t k r Hr) as [Hr2|Hp]; [|by right].
    by apply H12.
Qed.

#[global] Instance keeps_preorder I : PreOrder (keeps I).
Proof. split; unfold keeps; [by intros a | intros a1 a2 a3; tauto]. Qed.

(** ** The rest of the local adapter (indexeddb-adapter.ts) *)

(** [getOrCreateDeviceId] (24-31). The state is [localStorage], a map from
    keys to strings; [room v] tells whether it has room for the value [v]
    ([setItem] throws when it has not). [Date.now()] and the random suffix
    are the [id_clock] and [random36] of the reading. *)
Definition getOrCreateDeviceId (room : string → bool) (e : Env)
  : M (gmap string string) string :=
  λ ls,
    match ls !! "device_id" with
    | Some deviceId =>
        if truthy (VStr deviceId) then (Ok deviceId, ls)
        else
          let deviceId := "device_" +:+ pretty (id_clock e) +:+ "_" +:+ random36 e in
          if room deviceId then (Ok deviceId, <["device_id" := deviceId]> ls)
          else (Err (DOMException "QuotaExceededError"), ls)
    | None =>
        let deviceId := "device_" +:+ pretty (id_clock e) +:+ "_" +:+ random36 e in
        if room deviceId then (Ok deviceId, <["device_id" := deviceId]> ls)
        else (Err (DOMException "QuotaExceededError"), ls)
    end.

(** The constructor (20-22). *)
Definition new_IndexedDBAdapter (room : string → bool) (e : Env)
  : M (gmap string string) IndexedDBAdapter :=
  deviceId <- getOrCreateDeviceId room e ;;
  ret (mkIDB None deviceId).

Definition DB_VERSION : Z := 1.

(** The handler of [onupgradeneeded] (43-82): each fixed table that is not
    an object store yet is created, empty. *)
Definition upgrade (d : database) : database :=
  foldl (λ d table, if bool_decide (is_Some (d !! table)) then d else <[table := ∅]> d)
        d TABLES.

(** [initialize] (33-84). [origin] is what the browser holds under
    [DB_NAME] when the database is opened: nothing, or a version and the
    object stores. A stored version above [DB_VERSION] makes [open] fail;
    one below it, or no database, runs the upgrade. *)
Definition initialize (origin : option (Z * database)) : M IndexedDBAdapter unit :=
  match origin with
  | None => modify (λ a, mkIDB (Some (upgrade ∅)) (deviceId a))
  | Some (version, d) =>
      if DB_VERSION <? version then throw (DOMException "VersionError")
      else if version <? DB_VERSION
           then modify (λ a, mkIDB (Some (upgrade d)) (deviceId a))
           else modify (λ a, mkIDB (Some d) (deviceId a))
  end.

Section IndexedDBRest.
Context `{JS : Runtime}.

(** [exists] (294-297) *)
Definition exists_ (table : string) (id : value) : M IndexedDBAdapter bool :=
  record <- get table id ;;
  ret (bool_decide (is_Some record)).

(** [count] (289-292) *)
Definition count (table : string) (options : option QueryOptions)
  : M IndexedDBAdapter Z :=
  results <- query table (default noOptions options) ;;
  ret (Z.of_nat (length results)).

(** [bulkUpdate] (257-266): one [update] after the other, each awaited;
    [es i] is the reading of the [i]-th. *)
Fixpoint bulkUpdate_loop (es : nat → Env) (table : string)
    (updates : list (value * record)) (results : list record)
  : M IndexedDBAdapter (list record) :=
  match updates with
  | [] => ret results
  | (id, data) :: rest =>
      result <- update (es O) table id data ;;
      bulkUpdate_loop (λ i, es (S i)) table rest (results ++ [result])
  end.

Definition bulkUpdate (es : nat → Env) (table : string) (updates : list (value * record))
  : M IndexedDBAdapter (list record) :=
  bulkUpdate_loop es table updates [].

(** [bulkDelete] (268-287). All the [delete] requests run in one
    transaction. An id that is not a valid key makes [delete] throw at
    once: its promise rejects, which rejects the call, while the other
    requests go on and the transaction commits. Deleting a key that is not
    there is no error. *)
Definition bulkDelete (table : string) (ids : list value) : M IndexedDBAdapter unit :=
  d <- ensureDb ;;
  s <- lift (objectStore d table) ;;
  commit table (foldl (λ s id, if valid_key id then delete id s else s) s ids) ;;;
  if forallb valid_key ids then ret tt else throw (DOMException "DataError").
End IndexedDBRest.

(** A computation rejects with [e] and leaves the state as it was. *)
Definition rejects_with {S A} (e : error) (m : M S A) (s : S) : Prop :=
  m s = (Err e, s).

(** The properties [addMetadata] writes. *)
Definition metadata_fields : list string :=
  [ "id"; "created_at"; "updated_at"; "_version"; "_device_id"; "_sync_status" ].

(** The number a record carries in a field; 0 when it carries none. *)
Definition field_num (field : string) (r : record) : Z :=
  match getp r field with VNum n => n | _ => 0 end.

(** The order [orderBy] asks for, on records that carry numbers. *)
Definition in_order (field : string) (ord : sortOrder) (r1 r2 : record) : Prop :=
  match ord with
  | asc => field_num field r1 ≤ field_num field r2
  | desc => field_num field r2 ≤ field_num field r1
  end.

(** ** The rest of the synchroniser (sync-manager.ts) and of the hook *)

Section SyncRest.
Context `{JS : Runtime} {R : Type} `{RA : IStorageAdapter R}.
Variable env : nat → Env.
Variable quota : list SyncOperation → bool.

(** [setStrategy] (471-473) and [setRemoteAdapter] (475-477) *)
Definition setStrategy (s : SyncStrategy) : M (SyncManager R) unit :=
  modify (set_strategy s).

Definition setRemoteAdapter (adapter : option R) : M (SyncManager R) unit :=
  modify (set_remoteAdapter adapter).

(** [clearPendingOperations] (479-482) *)
Definition clearPendingOperations : M (SyncManager R) unit :=
  modify (set_pendingOperations []) ;;;
  savePendingOperations quota.

(** [performFullSync] (484-490) *)
Definition performFullSync : M (SyncManager R) unit :=
  λ st, match remoteAdapter st with
        | None => (Err (Error "Remote adapter not configured"), st)
        | Some _ => triggerSync env quota st
        end.

(** [update] and [remove] of [useStorageOperations] (kept behind
    [types.ts], 118-129): the write to the local adapter, then the queued
    intent; [remove] queues the object [{ id }]. *)
Definition ops_update (table : string) (id : value) (data : record)
  : M (StorageManager R) record :=
  onSyncManager
    (result <- localUpdate env table id data ;;
     addPendingOperation env quota table op_update result ;;;
     ret result).

Definition ops_remove (table : string) (id : value) : M (StorageManager R) unit :=
  onSyncManager
    (onLocal (delete_ table id) ;;;
     addPendingOperation env quota table op_delete {[ "id" := id ]}).
End SyncRest.

(** The queue of [st'] is the queue of [st] with one more operation at its
    end: the given intent, not yet retried, and the queue is persisted. *)
Definition queued {R} (table : string) (kind : OperationKind) (data : record)
    (st st' : SyncManager R) : Prop :=
  ∃ op, pendingOperations st' = (pendingOperations st ++ [op])%list ∧
        op_table op = table ∧ op_operation op = kind ∧ op_data op = data ∧
        op_retries op = 0 ∧ saved st' = pendingOperations st'.

(** The synchroniser has no remote to talk to now. *)
Definition offline {R} (st : SyncManager R) : Prop :=
  isOnline st = false ∨ remoteAdapter st = None.

(** [rec] has every property of [rr] that is not one of the metadata,
    with the value [rr] gives it. *)
Definition carries (rr rec : record) : Prop :=
  ∀ f v, f ∉ metadata_fields → rr !! f = Some v → rec !! f = Some v.

(** [resolveConflict] answers ['remote'] for the pair under the strategy. *)
Definition answers_remote `{JS : Runtime} (s : SyncStrategy) (local remote : record)
  : Prop :=
  s = remote_wins ∨
  (s = newest_wins ∧
   num_gt (getTime (js_or (getp local "updated_at") (getp local "created_at")))
          (getTime (js_or (getp remote "updated_at") (getp remote "created_at")))
   = false).

(** The strategy is the same in both states. *)
Definition same_strategy {R} (st st' : SyncManager R) : Prop :=
  strategy st' = strategy st.

#[global] Instance same_strategy_preorder {R} : PreOrder (same_strategy (R := R)).
Proof.
  split.
  - by intros st.
  - intros st1 st2 st3. unfold same_strategy. congruence.
Qed.

#[global] Instance in_order_trans field ord : Transitive (in_order field ord).
Proof. intros x y z. unfold in_order. destruct ord; lia. Qed.

(** ** The rest of the storage manager (storage-manager.ts) *)

(** [Partial<StorageConfig>]: [None] for a property that is not given. *)
Record PartialConfig : Type := mkPartial {
  p_provider : option StorageProvider;
  p_autoSync : option bool;
  p_syncInterval : option Z;
  p_syncStrategy : option SyncStrategy;
  p_supabase : option (string * string)
}.

#[global] Instance StorageProvider_eq_dec : EqDecision StorageProvider.
Proof. solve_decision. Defined.

(** [{ ...config, ...newConfig }] *)
Definition merge_config (c : StorageConfig) (p : PartialConfig) : StorageConfig :=
  mkConfig (default (provider c) (p_provider p))
           (default (autoSync c) (p_autoSync p))
           (match p_syncInterval p with Some i => Some i | None => syncInterval c end)
           (default (syncStrategy c) (p_syncStrategy p))
           (match p_supabase p with Some s => Some s | None => supabase c end).

(** [DEFAULT_CONFIG] (6-11) *)
Definition DEFAULT_CONFIG : StorageConfig :=
  mkConfig provider_local false (Some 300000) newest_wins None.

(** What [JSON.parse] gives back of a configuration that [JSON.stringify]
    wrote: the properties that were defined. *)
Definition parsed_config (c : StorageConfig) : PartialConfig :=
  mkPartial (Some (provider c)) (Some (autoSync c)) (syncInterval c)
            (Some (syncStrategy c)) (supabase c).

(** The constructor of [SyncManager] (249-256, with
    [loadPendingOperations], 269-279): [online] is [navigator.onLine] and
    [savedQueue] the queue found in [localStorage]. *)
Definition new_SyncManager {R} (online : bool) (savedQueue : list SyncOperation)
    (local : IndexedDBAdapter) (remote : option R) (s : SyncStrategy) : SyncManager R :=
  mkSync online false ∅ savedQueue None local remote s savedQueue O.

(** The constructor of [StorageManager] (20-30) with [loadConfig] (32-41):
    the synchroniser is built with the strategy of the argument, then the
    saved configuration, if there is one, replaces the configuration. *)
Definition new_StorageManager {R} (online : bool) (savedQueue : list SyncOperation)
    (device : string) (saved : option StorageConfig) (config : PartialConfig)
  : StorageManager R :=
  let c := merge_config DEFAULT_CONFIG config in
  mkManager
    (match saved with
     | Some s => merge_config DEFAULT_CONFIG (parsed_config s)
     | None => c
     end)
    false
    (new_SyncManager online savedQueue (mkIDB None device) None (syncStrategy c))
    None.

(** The page the manager lives in: the manager, the configuration saved
    in [localStorage] under ['storage_config'], the intervals the manager
    has set and not cleared (handle and period), and the number of timer
    handles issued so far ([setInterval] returns the next positive
    integer). *)
Record Page (R : Type) : Type := mkPage {
  manager : StorageManager R;
  savedConfig : option StorageConfig;
  intervals : gmap Z Z;
  handles : nat
}.
Arguments mkPage {R}.
Arguments manager {R}.
Arguments savedConfig {R}.
Arguments intervals {R}.
Arguments handles {R}.

Section ManagerRest.
Context `{JS : Runtime} {R : Type} `{RA : IStorageAdapter R}.
Variable env : nat → Env.
Variable quota : list SyncOperation → bool.

(** [createClient url anonKey] is the state of a new Supabase client, or
    the exception the construction of the adapter raises;
    [configRoom c] tells whether [localStorage] has room for the
    serialised configuration [c]. *)
Variable createClient : string → string → result R.
Variable configRoom : StorageConfig → bool.

Definition set_config (c : StorageConfig) (mg : StorageManager R) : StorageManager R :=
  mkManager c (hasRemoteAdapter mg) (syncManager mg) (timer mg).

Definition set_hasRemoteAdapter (b : bool) (mg : StorageManager R) : StorageManager R :=
  mkManager (config mg) b (syncManager mg) (timer mg).

Definition set_timer (t : option Z) (mg : StorageManager R) : StorageManager R :=
  mkManager (config mg) (hasRemoteAdapter mg) (syncManager mg) t.

Definition onManager {A} (m : M (StorageManager R) A) : M (Page R) A :=
  λ p, let (r, mg) := m (manager p) in
       (r, mkPage mg (savedConfig p) (intervals p) (handles p)).

(** [SupabaseAdapter.initialize] (supabase-adapter.ts, 21-27) *)
Definition supabase_initialize (url anonKey : string) : result R :=
  if negb (truthy (VStr url)) || negb (truthy (VStr anonKey))
  then Err (Error "Supabase URL and anon key are required")
  else createClient url anonKey.

(** [saveConfig] (43-45) *)
Definition saveConfig : M (Page R) unit :=
  λ p, if configRoom (config (manager p))
       then (Ok tt, mkPage (manager p) (Some (config (manager p)))
                           (intervals p) (handles p))
       else (Err (DOMException "QuotaExceededError"), p).

(** [setupRemoteAdapter] (59-74): the manager's reference is assigned
    first, the synchroniser's once the adapter is initialised; a failure
    sets both to [null]. *)
Definition setupRemoteAdapter : M (StorageManager R) unit :=
  λ mg,
    match provider (config mg), supabase (config mg) with
    | provider_supabase, Some (url, anonKey) =>
        try_catch
          (modify (set_hasRemoteAdapter true) ;;;
           r <- lift (supabase_initialize url anonKey) ;;
           onSyncManager (setRemoteAdapter (Some r)))
          (λ _, modify (set_hasRemoteAdapter false) ;;;
                onSyncManager (setRemoteAdapter None)) mg
    | _, _ => (Ok tt, mg)
    end.

(** [stopAutoSync] (147-152) *)
Definition stopAutoSync : M (Page R) unit :=
  λ p, match timer (manager p) with
       | Some h =>
           if truthy (VNum h)
           then (Ok tt, mkPage (set_timer None (manager p)) (savedConfig p)
                               (delete h (intervals p)) (handles p))
           else (Ok tt, p)
       | None => (Ok tt, p)
       end.

(** [this.config.syncInterval || 300000] *)
Definition period (c : StorageConfig) : Z :=
  match syncInterval c with
  | Some i => if truthy (VNum i) then i else 300000
  | None => 300000
  end.

(** [startAutoSync] (135-145) *)
Definition startAutoSync : M (Page R) unit :=
  stopAutoSync ;;;
  modify (λ p, let h := Z.of_nat (S (handles p)) in
               mkPage (set_timer (Some h) (manager p)) (savedConfig p)
                      (<[h := period (config (manager p))]> (intervals p))
                      (S (handles p))).

(** [destroy] (201-203) *)
Definition destroy : M (Page R) unit := stopAutoSync.

(** The callback of the interval (139-143); [online] is
    [navigator.onLine]. *)
Definition autoSyncTick (online : bool) : M (StorageManager R) unit :=
  λ mg, if online && hasRemoteAdapter mg
        then try_catch (onSyncManager (triggerSync env quota)) (λ _, ret tt) mg
        else (Ok tt, mg).

(** [initialize] (47-57) *)
Definition manager_initialize (origin : option (Z * database)) : M (Page R) unit :=
  onManager (onSyncManager (onLocal (initialize origin))) ;;;
  (λ p, match provider (config (manager p)) with
        | provider_supabase => onManager setupRemoteAdapter p
        | _ => (Ok tt, p)
        end) ;;;
  (λ p, if autoSync (config (manager p)) && hasRemoteAdapter (manager p)
        then startAutoSync p else (Ok tt, p)).

(** [updateConfig] (76-105) *)
Definition updateConfig (newConfig : PartialConfig) : M (Page R) unit :=
  λ p,
    let oldProvider := provider (config (manager p)) in
    (onManager (modify (λ mg, set_config (merge_config (config mg) newConfig) mg)) ;;;
     saveConfig ;;;
     match p_provider newConfig with
     | Some newProvider =>
         if bool_decide (newProvider ≠ oldProvider) then
           match newProvider with
           | provider_local =>
               onManager (modify (set_hasRemoteAdapter false) ;;;
                          onSyncManager (setRemoteAdapter None)) ;;;
               stopAutoSync
           | _ =>
               onManager setupRemoteAdapter ;;;
               (λ p, if autoSync (config (manager p)) then startAutoSync p
                     else (Ok tt, p))
           end
         else ret tt
     | None => ret tt
     end ;;;
     match p_syncStrategy newConfig with
     | Some s => onManager (onSyncManager (setStrategy s))
     | None => ret tt
     end ;;;
     match p_autoSync newConfig with
     | Some b =>
         (λ p, if b && hasRemoteAdapter (manager p) then startAutoSync p
               else stopAutoSync p)
     | None => ret tt
     end) p.

(** [testConnection] (187-199) *)
Definition testConnection : M (StorageManager R) bool :=
  λ mg,
    if negb (hasRemoteAdapter mg) then (Ok false, mg)
    else
      try_catch
        (onSyncManager
           (onRemote (adapter_list "clients" (Some (mkQuery None None (Some 1) None None)))) ;;;
         ret true)
        (λ _, ret false) mg.
End ManagerRest.

(** What the manager maintains: its reference to the remote adapter is
    [null] exactly when the synchroniser's is; the intervals it has set and
    not cleared are the one whose handle it holds, if it holds one; a
    handle it holds was issued, and is positive. *)
Definition manager_ok {R} (p : Page R) : Prop :=
  hasRemoteAdapter (manager p)
  = bool_decide (is_Some (remoteAdapter (syncManager (manager p)))) ∧
  dom (intervals p)
  = match timer (manager p) with Some h => {[ h ]} | None => (∅ : gset Z) end ∧
  ∀ h, timer (manager p) = Some h → 0 < h ≤ Z.of_nat (handles p).

(** An invariant of the page that holds afterwards if it held before. *)
Definition keeps_page {R} (I : Page R → Prop) (p p' : Page R) : Prop := I p → I p'.

#[global] Instance keeps_page_preorder {R} (I : Page R → Prop) : PreOrder (keeps_page I).
Proof. split; unfold keeps_page; [by intros p | intros p1 p2 p3; tauto]. Qed.

(** The remote reference of the synchroniser is [null] in both states or
    in neither. *)
Definition same_remote {R} (st st' : SyncManager R) : Prop :=
  is_Some (remoteAdapter st') ↔ is_Some (remoteAdapter st).

#[global] Instance same_remote_preorder {R} : PreOrder (same_remote (R := R)).
Proof.
  split.
  - by intros st.
  - intros st1 st2 st3. unfold same_remote. tauto.
Qed.

(** The configuration and the strategy of the synchroniser are the same in
    both states. *)
Definition same_settings {R} (p p' : Page R) : Prop :=
  config (manager p') = config (manager p) ∧
  strategy (syncManager (manager p')) = strategy (syncManager (manager p)).

#[global] Instance same_settings_preorder {R} : PreOrder (same_settings (R := R)).
Proof.
  split.
  - by intros p.
  - intros p1 p2 p3 [H12 H12'] [H23 H23']. split; congruence.
Qed.

(** ** More sample data *)

(** The database of [sample_local]. *)
Definition sample_database : database := <["clients" := sample_clients]> fresh_database.

(** An adapter that was constructed and not initialised. *)
Definition sample_closed : IndexedDBAdapter := mkIDB None "device_a".

(** The remote lists client ["c"] under another name and a client ["n"]
    that the local store does not have; the remote wins. *)
Definition sample_listing : list record :=
  [sample_record "c" "Caio Lima" 3; sample_record "n" "Nina" 1].

Definition sample_remote_wins : SyncManager (gmap string (list record)) :=
  mkSync true false ∅ [] None sample_local (Some {[ "clients" := sample_listing ]})
         remote_wins [] O.

(** A manager on Supabase with its interval running. *)
Definition sample_cloud_config : StorageConfig :=
  mkConfig provider_supabase true (Some 60000) manual
           (Some ("https://example.supabase.co", "anon-key")).

Definition sample_page : Page (gmap string (list record)) :=
  mkPage (mkManager sample_cloud_config true
            (mkSync true false ∅ [sample_other_op] None sample_local
                    (Some ∅) manual [sample_other_op] O)
            (Some 1))
         (Some sample_cloud_config) {[ 1 := 60000 ]} 1.

(** A client library that always connects, to an empty service. *)
Definition sample_createClient (url anonKey : string)
  : result (gmap string (list record)) := Ok ∅.

(** Two projects, one marked synced and one pending with number 5; the
    remote lists neither, and lists a project of its own with number 5. *)
Definition sample_project (id : string) (number : Z) : record :=
  <["number" := VNum number]> (sample_record id "Obra" 1).

Definition sample_projects : store :=
  {[ VStr "s" := <["_sync_status" := VStr "synced"]> (sample_project "s" 7);
     VStr "p" := sample_project "p" 5 ]}.

Definition sample_projects_local : IndexedDBAdapter :=
  mkIDB (Some (<["projects" := sample_projects]> fresh_database)) "device_a".

Definition sample_clash : SyncManager (gmap string (list record)) :=
  mkSync true false ∅ [] None sample_projects_local
         (Some {[ "projects" := [sample_project "n" 5] ]}) newest_wins [] O.

(** * Properties *)

(** ** Reading the monad *)

Ltac unfold_monad :=
  unfold bind, ret, throw, lift, gets, modify, try_catch in *.

Lemma bind_ok {S A B} (m : M S A) (f : A → M S B) s a s' :
  m s = (Ok a, s') → bind m f s = f a s'.
Proof. intros Hm. unfold bind. by rewrite Hm. Qed.

Lemma bind_err {S A B} (m : M S A) (f : A → M S B) s e s' :
  m s = (Err e, s') → bind m f s = (Err e, s').
Proof. intros Hm. unfold bind. by rewrite Hm. Qed.

Lemma bind_inv_ok {S A B} (m : M S A) (f : A → M S B) s b s2 :
  bind m f s = (Ok b, s2) → ∃ a s1, m s = (Ok a, s1) ∧ f a s1 = (Ok b, s2).
Proof.
  unfold bind. destruct (m s) as [[a|e] s1]; [eauto | discriminate].
Qed.

Lemma run_ok {S A} (x : result A * S) (d : A) :
  is_ok x.1 = true → x = (Ok (result_value d x.1), x.2).
Proof. destruct x as [[a|e] s]; [done | discriminate]. Qed.

Lemma run_ok_unit {S} (x : result unit * S) : is_ok x.1 = true → x = (Ok tt, x.2).
Proof. destruct x as [[[]|e] s]; [done | discriminate]. Qed.

Lemma run_err {S A} (x : result A * S) (e : error) : x.1 = Err e → x = (Err e, x.2).
Proof. destruct x as [r s]. simpl. by intros ->. Qed.

Lemma some_default {A} (o : option A) (d : A) :
  bool_decide (is_Some o) = true → o = Some (default d o).
Proof. intros Ho. apply bool_decide_eq_true_1 in Ho as [x ->]. done. Qed.

Lemma filter_iff_in {A} (P1 P2 : A → Prop)
    `{!∀ x, Decision (P1 x), !∀ x, Decision (P2 x)} (l : list A) :
  (∀ x, x ∈ l → P1 x ↔ P2 x) → filter P1 l = filter P2 l.
Proof.
  induction l as [|a l IH]; intros Hl; [done|].
  rewrite !filter_cons.
  rewrite IH by (intros x Hx; apply Hl; by right).
  pose proof (Hl a (list_elem_of_here a l)) as Ha.
  destruct (decide (P1 a)), (decide (P2 a)); tauto.
Qed.

(** ** Properties and records *)

Lemma getp_insert_eq (r : record) k v : getp (<[k := v]> r) k = v.
Proof. unfold getp. by rewrite lookup_insert_eq. Qed.

Lemma getp_insert_ne (r : record) k k' v : k ≠ k' → getp (<[k := v]> r) k' = getp r k'.
Proof. intros. unfold getp. by rewrite lookup_insert_ne. Qed.

Lemma getp_union_l (r1 r2 : record) k : r1 !! k = None → getp (r1 ∪ r2) k = getp r2 k.
Proof. intros Hk. unfold getp. by rewrite lookup_union_r. Qed.

Lemma truthy_or (a b : value) : truthy a = true → js_or a b = a.
Proof. unfold js_or. by intros ->. Qed.


(** ** [query]: offset and limit *)

Lemma slice_from_pos {A} (n : Z) (l : list A) :
  0 < n → slice_from n l = drop (Z.to_nat n) l.
Proof.
  intros Hn. unfold slice_from.
  destruct (Z.ltb_spec n 0); [lia|].
  destruct (Z.le_gt_cases n (Z.of_nat (length l))).
  - by rewrite Z.min_l.
  - rewrite Z.min_r by lia. rewrite Nat2Z.id.
    rewrite !drop_ge; [done | lia | lia].
Qed.

Lemma slice_to_pos {A} (n : Z) (l : list A) :
  0 < n → slice_to n l = take (Z.to_nat n) l.
Proof.
  intros Hn. unfold slice_to.
  destruct (Z.ltb_spec n 0); [lia|].
  destruct (Z.le_gt_cases n (Z.of_nat (length l))).
  - by rewrite Z.min_l.
  - rewrite Z.min_r by lia. rewrite Nat2Z.id.
    rewrite !take_ge; [done | lia | lia].
Qed.

Section QueryProperties.
Context `{JS : Runtime}.

Lemma query_unfold table options a :
  query table options a =
  match db a with
  | None => (Err (Error "Database not initialized. Call initialize() first."), a)
  | Some d =>
      match objectStore d table with
      | Err e => (Err e, a)
      | Ok s =>
          match query_request table s options with
          | Err e => (Err e, a)
          | Ok results => (Ok (query_results options results), a)
          end
      end
  end.
Proof.
  unfold query, ensureDb. unfold_monad.
  destruct (db a) as [d|]; [|done].
  destruct (objectStore d table); [|done].
  by destruct (query_request _ _ _).
Qed.

(** C10. In [query], and in [list] which hands its options to [query],
    a limit of 0 and an offset of 0 behave as an absent option: limit 0
    returns every matching record and offset 0 skips none. When both are
    given (and positive) the offset is applied first and the limit to
    what remains. *)
Theorem query_limit_offset_falsy :
  (∀ table ob ord off w a,
     query table (mkQuery ob ord (Some 0) off w) a
     = query table (mkQuery ob ord None off w) a) ∧
  (∀ table ob ord lim w a,
     query table (mkQuery ob ord lim (Some 0) w) a
     = query table (mkQuery ob ord lim None w) a) ∧
  (∀ table options a, list_ table (Some options) a = query table options a) ∧
  (∀ table ob ord w a (o l : Z),
     0 < o → 0 < l →
     query table (mkQuery ob ord (Some l) (Some o) w) a
     = (all <- query table (mkQuery ob ord None None w) ;;
        ret (take (Z.to_nat l) (drop (Z.to_nat o) all))) a).
Proof.
  split_and!.
  - intros. by rewrite !query_unfold.
  - intros. by rewrite !query_unfold.
  - done.
  - intros table ob ord w a o l Ho Hl.
    unfold bind. rewrite !query_unfold.
    destruct (db a) as [d|]; [|done].
    destruct (objectStore d table) as [s|]; [|done].
    unfold query_request. simpl.
    assert (∀ results,
      query_results (mkQuery ob ord (Some l) (Some o) w) results =
      take (Z.to_nat l) (drop (Z.to_nat o)
        (query_results (mkQuery ob ord None None w) results))) as Hq.
    { intros results.
      unfold query_results, apply_limit, apply_offset. simpl.
      destruct (Z.eqb_spec o 0); [lia|]. destruct (Z.eqb_spec l 0); [lia|]. simpl.
      by rewrite slice_from_pos, slice_to_pos. }
    destruct w as [[|[key v] w']|]; simpl.
    + by rewrite Hq.
    + case_bool_decide.
      * destruct (index_getAll s key v); [by rewrite Hq | done].
      * by rewrite Hq.
    + by rewrite Hq.
Qed.
End QueryProperties.

(** ** [addMetadata] and the single-record writes *)

Section AdapterProperties.
Context `{JS : Runtime}.

Lemma addMetadata_sync_status device e data :
  getp (addMetadata device e data) "_sync_status" = VStr "pending".
Proof. unfold addMetadata. by rewrite getp_insert_eq. Qed.

Lemma addMetadata_device_id device e data :
  getp (addMetadata device e data) "_device_id" = VStr device.
Proof.
  unfold addMetadata. rewrite getp_insert_ne by done. by rewrite getp_insert_eq.
Qed.

Lemma addMetadata_version device e data :
  getp (addMetadata device e data) "_version" = or0_plus1 (getp data "_version").
Proof.
  unfold addMetadata. rewrite !getp_insert_ne by done. by rewrite getp_insert_eq.
Qed.

Lemma addMetadata_updated_at device e data :
  getp (addMetadata device e data) "updated_at" = VStr (toISOString (clock e)).
Proof.
  unfold addMetadata. rewrite !getp_insert_ne by done. by rewrite getp_insert_eq.
Qed.

Lemma addMetadata_created_at device e data :
  getp (addMetadata device e data) "created_at"
  = js_or (getp data "created_at") (VStr (toISOString (clock e))).
Proof.
  unfold addMetadata. rewrite !getp_insert_ne by done. by rewrite getp_insert_eq.
Qed.

Lemma addMetadata_id device e data :
  getp (addMetadata device e data) "id" = js_or (getp data "id") (VStr (generateId e)).
Proof.
  unfold addMetadata. rewrite !getp_insert_ne by done. by rewrite getp_insert_eq.
Qed.

Lemma addMetadata_other device e data f :
  f ∉ [ "id"; "created_at"; "updated_at"; "_version"; "_device_id"; "_sync_status" ] →
  addMetadata device e data !! f = data !! f.
Proof.
  intros Hf. unfold addMetadata.
  rewrite !lookup_insert_ne; [done | set_solver..].
Qed.

Lemma get_unfold table id a :
  get table id a =
  match db a with
  | None => (Err (Error "Database not initialized. Call initialize() first."), a)
  | Some d =>
      match d !! table with
      | None => (Err (DOMException "NotFoundError"), a)
      | Some s => if valid_key id then (Ok (s !! id), a)
                  else (Err (DOMException "DataError"), a)
      end
  end.
Proof.
  unfold get, ensureDb, objectStore. unfold_monad.
  destruct (db a) as [d|]; [|done].
  destruct (d !! table); [|done].
  by destruct (valid_key id).
Qed.

Lemma get_stored table id a r :
  get table id a = (Ok (Some r), a) → stored a table id = Some r.
Proof.
  rewrite get_unfold. unfold stored.
  destruct (db a) as [d|]; [|done]. simpl.
  destruct (d !! table) as [s|]; [|done]. simpl.
  destruct (valid_key id); [|done]. by intros [= ->].
Qed.

(** What a resolved [update] did. *)
Lemma update_inv e table id data a updated a' :
  update e table id data a = (Ok updated, a') →
  ∃ d s existing,
    db a = Some d ∧ d !! table = Some s ∧ valid_key id = true ∧
    s !! id = Some existing ∧
    updated = addMetadata (deviceId a) e (<["id" := id]> (data ∪ existing)) ∧
    a' = mkIDB (Some (<[table := <[getp updated "id" := updated]> s]> d)) (deviceId a).
Proof.
  unfold update, ensureDb. unfold bind at 1.
  destruct (db a) as [d|] eqn:Hd; [|done].
  unfold bind at 1. rewrite get_unfold, Hd.
  destruct (d !! table) as [s|] eqn:Hs; [|done].
  destruct (valid_key id) eqn:Hid; [|done].
  destruct (s !! id) as [existing|] eqn:Hex; [|done].
  unfold commit, objectStore. unfold_monad. rewrite Hs.
  unfold store_put.
  destruct (negb _); [done|].
  case_bool_decide; [done|].
  intros [= <- <-]. rewrite Hd. simpl.
  by exists d, s, existing.
Qed.

End AdapterProperties.



(** ** The writes of the adapter, case by case *)

Lemma store_add_inv table s r s' :
  store_add table s r = Ok s' →
  s' = <[getp r "id" := r]> s ∧ valid_key (getp r "id") = true ∧
  s !! getp r "id" = None ∧ ¬ unique_clash table s (getp r "id") r.
Proof.
  unfold store_add.
  destruct (valid_key (getp r "id")); [|done]. simpl.
  case_bool_decide as Hin; [done|].
  case_bool_decide; [done|].
  intros [= <-]. split_and!; [done | done | | done].
  by apply eq_None_not_Some.
Qed.

Lemma store_put_inv table s r s' :
  store_put table s r = Ok s' →
  s' = <[getp r "id" := r]> s ∧ valid_key (getp r "id") = true ∧
  ¬ unique_clash table s (getp r "id") r.
Proof.
  unfold store_put.
  destruct (valid_key (getp r "id")); [|done]. simpl.
  case_bool_decide; [done|].
  by intros [= <-].
Qed.

Lemma stored_commit d device table s table' k :
  stored (mkIDB (Some (<[table := s]> d)) device) table' k
  = if decide (table = table') then s !! k else stored (mkIDB (Some d) device) table' k.
Proof.
  unfold stored. simpl. case_decide as Ht.
  - subst. by rewrite lookup_insert_eq.
  - by rewrite lookup_insert_ne.
Qed.

Lemma stored_eq a d table s k :
  db a = Some d → d !! table = Some s → stored a table k = s !! k.
Proof. intros Hd Hs. unfold stored. rewrite Hd. simpl. by rewrite Hs. Qed.

Lemma stored_inv a table k r :
  stored a table k = Some r →
  ∃ d s, db a = Some d ∧ d !! table = Some s ∧ s !! k = Some r.
Proof.
  unfold stored. destruct (db a) as [d|]; [|done]. simpl.
  destruct (d !! table) as [s|] eqn:Hs; [|done]. simpl. eauto.
Qed.

Lemma stored_same_db a device table k :
  stored (mkIDB (db a) device) table k = stored a table k.
Proof. done. Qed.

Lemma elem_of_getAll (s : store) r : r ∈ getAll s ↔ ∃ k, s !! k = Some r.
Proof.
  unfold getAll. rewrite list_elem_of_fmap. split.
  - intros ([k r'] & -> & Hin).
    rewrite merge_sort_Permutation in Hin.
    apply elem_of_map_to_list in Hin. eauto.
  - intros [k Hk]. exists (k, r). split; [done|].
    rewrite merge_sort_Permutation. by apply elem_of_map_to_list.
Qed.

Section WriteCases.
Context `{JS : Runtime}.

Lemma create_unfold e table data a :
  create e table data a =
  match db a with
  | None => (Err (Error "Database not initialized. Call initialize() first."), a)
  | Some d =>
      match d !! table with
      | None => (Err (DOMException "NotFoundError"), a)
      | Some s =>
          match store_add table s (addMetadata (deviceId a) e data) with
          | Err err => (Err err, a)
          | Ok s' => (Ok (addMetadata (deviceId a) e data),
                      mkIDB (Some (<[table := s']> d)) (deviceId a))
          end
      end
  end.
Proof.
  unfold create, ensureDb, commit, objectStore. unfold_monad.
  destruct (db a) as [d|] eqn:Hd; [|done].
  destruct (d !! table); [|done].
  destruct (store_add _ _ _); [|done].
  by rewrite Hd.
Qed.

Lemma update_unfold e table id data a :
  update e table id data a =
  match db a with
  | None => (Err (Error "Database not initialized. Call initialize() first."), a)
  | Some d =>
      match d !! table with
      | None => (Err (DOMException "NotFoundError"), a)
      | Some s =>
          if valid_key id then
            match s !! id with
            | None => (Err (Error ("Record with id " +:+ js_toString id +:+
                                   " not found in " +:+ table)), a)
            | Some existing =>
                let updated :=
                  addMetadata (deviceId a) e (<["id" := id]> (data ∪ existing)) in
                match store_put table s updated with
                | Err err => (Err err, a)
                | Ok s' => (Ok updated, mkIDB (Some (<[table := s']> d)) (deviceId a))
                end
            end
          else (Err (DOMException "DataError"), a)
      end
  end.
Proof.
  unfold update, ensureDb. unfold bind at 1.
  destruct (db a) as [d|] eqn:Hd; [|done].
  unfold bind at 1. rewrite get_unfold, Hd.
  destruct (d !! table) as [s|] eqn:Hs; [|done].
  destruct (valid_key id); [|done].
  destruct (s !! id) as [existing|]; [|done].
  unfold commit, objectStore. unfold_monad. rewrite Hs.
  destruct (store_put _ _ _); [|done].
  by rewrite Hd.
Qed.

Lemma delete_unfold table id a :
  delete_ table id a =
  match db a with
  | None => (Err (Error "Database not initialized. Call initialize() first."), a)
  | Some d =>
      match d !! table with
      | None => (Err (DOMException "NotFoundError"), a)
      | Some s =>
          if valid_key id
          then (Ok tt, mkIDB (Some (<[table := delete id s]> d)) (deviceId a))
          else (Err (DOMException "DataError"), a)
      end
  end.
Proof.
  unfold delete_, ensureDb, commit, objectStore. unfold_monad.
  destruct (db a) as [d|] eqn:Hd; [|done].
  destruct (d !! table); [|done].
  destruct (valid_key id); [|done].
  by rewrite Hd.
Qed.

Lemma clear_unfold table a :
  clear table a =
  match db a with
  | None => (Err (Error "Database not initialized. Call initialize() first."), a)
  | Some d =>
      match d !! table with
      | None => (Err (DOMException "NotFoundError"), a)
      | Some s => (Ok tt, mkIDB (Some (<[table := ∅]> d)) (deviceId a))
      end
  end.
Proof.
  unfold clear, ensureDb, commit, objectStore. unfold_monad.
  destruct (db a) as [d|] eqn:Hd; [|done].
  destruct (d !! table); [|done].
  by rewrite Hd.
Qed.

Lemma bulkCreate_unfold es table data a :
  bulkCreate es table data a =
  match db a with
  | None => (Err (Error "Database not initialized. Call initialize() first."), a)
  | Some d =>
      match d !! table with
      | None => (Err (DOMException "NotFoundError"), a)
      | Some s =>
          let records := imap (λ i item, addMetadata (deviceId a) (es i) item) data in
          match List.find (λ r, negb (valid_key (getp r "id"))) records,
                add_all table s records with
          | None, Ok s' => (Ok records, mkIDB (Some (<[table := s']> d)) (deviceId a))
          | None, Err err => (Err err, a)
          | Some _, Ok s' =>
              (Err (DOMException "DataError"),
               mkIDB (Some (<[table := s']> d)) (deviceId a))
          | Some _, Err _ => (Err (DOMException "DataError"), a)
          end
      end
  end.
Proof.
  unfold bulkCreate, ensureDb, commit, objectStore. unfold_monad.
  destruct (db a) as [d|] eqn:Hd; [|done].
  destruct (d !! table); [|done].
  destruct (List.find _ _), (add_all _ _ _); by rewrite ?Hd.
Qed.

Lemma list_unfold table a :
  list_ table None a =
  match db a with
  | None => (Err (Error "Database not initialized. Call initialize() first."), a)
  | Some d =>
      match d !! table with
      | None => (Err (DOMException "NotFoundError"), a)
      | Some s => (Ok (getAll s), a)
      end
  end.
Proof.
  unfold list_. rewrite query_unfold. simpl.
  destruct (db a) as [d|]; [|done].
  unfold objectStore. by destruct (d !! table).
Qed.

Lemma add_all_elem table s records s' :
  add_all table s records = Ok s' →
  ∀ k r, s' !! k = Some r → s !! k = Some r ∨ r ∈ records.
Proof.
  revert s. induction records as [|x rest IH]; intros s; simpl.
  - intros [= <-]. auto.
  - destruct (valid_key (getp x "id")).
    + destruct (store_add table s x) as [s1|] eqn:Hadd; [|done].
      intros Hrest k r Hk.
      apply store_add_inv in Hadd as (-> & _ & _ & _).
      destruct (IH _ Hrest k r Hk) as [Hin|Hin]; [|right; by constructor].
      destruct (decide (getp x "id" = k)) as [<-|Hne].
      * rewrite lookup_insert_eq in Hin. injection Hin as <-. right. constructor.
      * rewrite lookup_insert_ne in Hin by done. by left.
    + intros Hrest k r Hk.
      destruct (IH _ Hrest k r Hk); [by left | right; by constructor].
Qed.
End WriteCases.

(** ** Relations kept by every step of a computation *)

Section Preserves.
Context {S : Type} (Q : S → S → Prop) `{!PreOrder Q}.

Lemma preserves_ret {A} (x : A) : preserves Q (ret x).
Proof. intros s r s' [= <- <-]. reflexivity. Qed.

Lemma preserves_throw {A} e : preserves Q (throw (A := A) e).
Proof. intros s r s' [= <- <-]. reflexivity. Qed.

Lemma preserves_lift {A} (x : result A) : preserves Q (lift x).
Proof. intros s r s' [= <- <-]. reflexivity. Qed.

Lemma preserves_gets {A} (f : S → A) : preserves Q (gets f).
Proof. intros s r s' [= <- <-]. reflexivity. Qed.

Lemma preserves_modify (f : S → S) : (∀ s, Q s (f s)) → preserves Q (modify f).
Proof. intros Hf s r s' [= <- <-]. apply Hf. Qed.

Lemma preserves_bind {A B} (m : M S A) (f : A → M S B) :
  preserves Q m → (∀ a, preserves Q (f a)) → preserves Q (bind m f).
Proof.
  intros Hm Hf s r s'. unfold bind.
  destruct (m s) as [[a|e] s1] eqn:Hms.
  - intros Hfa. transitivity s1; [by eapply Hm | by eapply Hf].
  - intros [= <- <-]. by eapply Hm.
Qed.

Lemma preserves_try_catch {A} (m : M S A) (h : error → M S A) :
  preserves Q m → (∀ e, preserves Q (h e)) → preserves Q (try_catch m h).
Proof.
  intros Hm Hh s r s'. unfold try_catch.
  destruct (m s) as [[a|e] s1] eqn:Hms.
  - intros [= <- <-]. by eapply Hm.
  - intros Hhe. transitivity s1; [by eapply Hm | by eapply Hh].
Qed.

Lemma preserves_forEach {A} (f : A → M S unit) (xs : list A) :
  (∀ x, x ∈ xs → preserves Q (f x)) → preserves Q (forEach f xs).
Proof.
  induction xs as [|x xs IH]; intros Hf; simpl.
  - apply preserves_ret.
  - apply preserves_bind.
    + apply Hf. constructor.
    + intros _. apply IH. intros y Hy. apply Hf. by constructor.
Qed.

Lemma preserves_if {A} (b : bool) (m1 m2 : M S A) :
  preserves Q m1 → preserves Q m2 → preserves Q (if b then m1 else m2).
Proof. by destruct b. Qed.
End Preserves.

(** ** Every write goes through [addMetadata] *)

Lemma preserves_weaken {S A} (Q Q' : S → S → Prop) (m : M S A) :
  (∀ s s', Q s s' → Q' s s') → preserves Q m → preserves Q' m.
Proof. intros HQ Hm s r s' Hrun. apply HQ. by eapply Hm. Qed.

Section Pending.
Context `{JS : Runtime}.

Lemma writes_through_insert a d s table k e data :
  db a = Some d → d !! table = Some s →
  writes_through a
    (mkIDB (Some (<[table := <[k := addMetadata (deviceId a) e data]> s]> d)) (deviceId a)).
Proof.
  intros Hd Hs. split; [done|]. intros t k' r' Hr'.
  rewrite stored_commit in Hr'. case_decide as Ht.
  - subst t. destruct (decide (k = k')) as [<-|Hne].
    + rewrite lookup_insert_eq in Hr'. injection Hr' as <-. right. eauto.
    + rewrite lookup_insert_ne in Hr' by done. left.
      by rewrite (stored_eq a d table s).
  - left. unfold stored in *. by rewrite Hd.
Qed.

Lemma writes_through_subset a d s s' table :
  db a = Some d → d !! table = Some s → s' ⊆ s →
  writes_through a (mkIDB (Some (<[table := s']> d)) (deviceId a)).
Proof.
  intros Hd Hs Hsub. split; [done|]. intros t k' r' Hr'.
  rewrite stored_commit in Hr'. left. case_decide as Ht.
  - subst t. rewrite (stored_eq a d table s) by done.
    by eapply lookup_weaken.
  - unfold stored in *. by rewrite Hd.
Qed.

Lemma create_writes_through e table data :
  preserves writes_through (create e table data).
Proof.
  intros a r a'. rewrite create_unfold.
  destruct (db a) as [d|] eqn:Hd; [|intros [= <- <-]; reflexivity].
  destruct (d !! table) as [s|] eqn:Hs; [|intros [= <- <-]; reflexivity].
  destruct (store_add _ _ _) as [s'|] eqn:Hadd; [|intros [= <- <-]; reflexivity].
  intros [= <- <-]. apply store_add_inv in Hadd as (-> & _).
  by apply writes_through_insert.
Qed.

Lemma update_writes_through e table id data :
  preserves writes_through (update e table id data).
Proof.
  intros a r a'. rewrite update_unfold.
  destruct (db a) as [d|] eqn:Hd; [|intros [= <- <-]; reflexivity].
  destruct (d !! table) as [s|] eqn:Hs; [|intros [= <- <-]; reflexivity].
  destruct (valid_key id); [|intros [= <- <-]; reflexivity].
  destruct (s !! id) as [existing|]; [|intros [= <- <-]; reflexivity].
  simpl. destruct (store_put _ _ _) as [s'|] eqn:Hput; [|intros [= <- <-]; reflexivity].
  intros [= <- <-]. apply store_put_inv in Hput as (-> & _).
  by apply writes_through_insert.
Qed.

Lemma delete_writes_through table id :
  preserves writes_through (delete_ table id).
Proof.
  intros a r a'. rewrite delete_unfold.
  destruct (db a) as [d|] eqn:Hd; [|intros [= <- <-]; reflexivity].
  destruct (d !! table) as [s|] eqn:Hs; [|intros [= <- <-]; reflexivity].
  destruct (valid_key id); [|intros [= <- <-]; reflexivity].
  intros [= <- <-]. eapply writes_through_subset; [done | done |].
  apply delete_subseteq.
Qed.

Lemma clear_writes_through table : preserves writes_through (clear table).
Proof.
  intros a r a'. rewrite clear_unfold.
  destruct (db a) as [d|] eqn:Hd; [|intros [= <- <-]; reflexivity].
  destruct (d !! table) as [s|] eqn:Hs; [|intros [= <- <-]; reflexivity].
  intros [= <- <-]. eapply writes_through_subset; [done | done |].
  apply map_empty_subseteq.
Qed.

Lemma elem_of_imap_addMetadata device (es : nat → Env) (data : list record) r :
  r ∈ imap (λ i item, addMetadata device (es i) item) data →
  ∃ i item, data !! i = Some item ∧ r = addMetadata device (es i) item.
Proof.
  intros Hin. apply list_elem_of_lookup in Hin as [i Hi].
  rewrite list_lookup_imap in Hi.
  destruct (data !! i) as [item|] eqn:Hitem; [|done]. simpl in Hi.
  injection Hi as <-. eauto.
Qed.

Lemma writes_through_add_all a d s s' table es (data : list record) :
  db a = Some d → d !! table = Some s →
  add_all table s (imap (λ i item, addMetadata (deviceId a) (es i) item) data) = Ok s' →
  writes_through a (mkIDB (Some (<[table := s']> d)) (deviceId a)).
Proof.
  intros Hd Hs Hadd. split; [done|]. intros t k r Hr.
  rewrite stored_commit in Hr. case_decide as Ht.
  - subst t. rewrite (stored_eq a d table s) by done.
    destruct (add_all_elem _ _ _ _ Hadd k r Hr) as [?|Hin]; [by left | right].
    apply elem_of_imap_addMetadata in Hin as (i & item & _ & ->). eauto.
  - left. unfold stored in *. by rewrite Hd.
Qed.

Lemma bulkCreate_writes_through es table data :
  preserves writes_through (bulkCreate es table data).
Proof.
  intros a r a'. rewrite bulkCreate_unfold.
  destruct (db a) as [d|] eqn:Hd; [|intros [= <- <-]; reflexivity].
  destruct (d !! table) as [s|] eqn:Hs; [|intros [= <- <-]; reflexivity].
  simpl.
  destruct (List.find _ _), (add_all _ _ _) as [s'|] eqn:Hadd;
    intros [= <- <-]; try reflexivity;
    by eapply writes_through_add_all.
Qed.

Lemma import_writes_through ess data : preserves writes_through (import_ ess data).
Proof.
  revert ess. induction data as [|[table records] rest IH]; intros ess; simpl.
  - apply preserves_ret; apply _.
  - apply preserves_bind; [apply _ | | intros _; apply IH].
    apply preserves_if; [|apply preserves_ret; apply _].
    apply preserves_bind; [apply _ | apply clear_writes_through |].
    intros _. apply preserves_if; [|apply preserves_ret; apply _].
    apply preserves_bind; [apply _ | apply bulkCreate_writes_through |].
    intros _. apply preserves_ret; apply _.
Qed.

Lemma writes_through_pending a a' : writes_through a a' → writes_pending a a'.
Proof.
  intros [_ Hw] t k r Hr.
  destruct (Hw t k r Hr) as [?|(e & data & ->)]; [by left | right].
  apply addMetadata_sync_status.
Qed.

Lemma create_writes_pending e table data :
  preserves writes_pending (create e table data).
Proof.
  eapply preserves_weaken; [apply writes_through_pending | apply create_writes_through].
Qed.

Lemma update_writes_pending e table id data :
  preserves writes_pending (update e table id data).
Proof.
  eapply preserves_weaken; [apply writes_through_pending | apply update_writes_through].
Qed.

Lemma delete_writes_pending table id :
  preserves writes_pending (delete_ table id).
Proof.
  eapply preserves_weaken; [apply writes_through_pending | apply delete_writes_through].
Qed.

Lemma clear_writes_pending table : preserves writes_pending (clear table).
Proof.
  eapply preserves_weaken; [apply writes_through_pending | apply clear_writes_through].
Qed.

Lemma bulkCreate_writes_pending es table data :
  preserves writes_pending (bulkCreate es table data).
Proof.
  eapply preserves_weaken; [apply writes_through_pending | apply bulkCreate_writes_through].
Qed.

Lemma import_writes_pending ess data : preserves writes_pending (import_ ess data).
Proof.
  eapply preserves_weaken; [apply writes_through_pending | apply import_writes_through].
Qed.

Lemma all_pending_writes a a' : all_pending a → writes_pending a a' → all_pending a'.
Proof.
  intros Ha Hw t k r Hr. destruct (Hw t k r Hr) as [Hold|Hp]; [|done].
  by eapply Ha.
Qed.

Lemma fresh_database_empty table s k :
  fresh_database !! table = Some s → s !! k = None.
Proof.
  unfold fresh_database, TABLES. simpl. intros Hs.
  repeat (apply lookup_insert_Some in Hs as [[_ <-]|[_ Hs]]; [done|]).
  done.
Qed.

(** Whatever the adapter did, it wrote through [addMetadata]. *)
Lemma adapter_history_writes a :
  adapter_history a →
  ∃ device, writes_through (mkIDB (Some fresh_database) device) a.
Proof.
  induction 1 as [device | e table data a _ [device IH] | e table id data a _ [device IH]
                  | table id a _ [device IH] | table a _ [device IH]
                  | es table data a _ [device IH] | ess data a _ [device IH]];
    exists device; [reflexivity | etransitivity; [exact IH|]..].
  - by eapply create_writes_through, surjective_pairing.
  - by eapply update_writes_through, surjective_pairing.
  - by eapply delete_writes_through, surjective_pairing.
  - by eapply clear_writes_through, surjective_pairing.
  - by eapply bulkCreate_writes_through, surjective_pairing.
  - by eapply import_writes_through, surjective_pairing.
Qed.

Lemma adapter_history_all_pending a : adapter_history a → all_pending a.
Proof.
  intros [device Hw%writes_through_pending]%adapter_history_writes t k r Hr.
  destruct (Hw t k r Hr) as [Hold|Hp]; [|done].
  apply stored_inv in Hold as (d & s & [= <-] & Hs & Hk).
  by rewrite (fresh_database_empty _ _ _ Hs) in Hk.
Qed.
End Pending.

(** ** Relations kept by the synchroniser

    A relation on synchroniser states that every primitive step keeps is
    kept by the push phase, by the pull phase and by a whole pass but for
    its two assignments to [isSyncing]. *)

Section SyncPreserves.
Context `{JS : Runtime} {R : Type} `{RA : IStorageAdapter R}.
Variable env : nat → Env.
Variable quota : list SyncOperation → bool.
Variable Q : SyncManager R → SyncManager R → Prop.
Context `{!PreOrder Q}.

Hypothesis Q_create : ∀ e t d, preserves Q (onLocal (create e t d)).
Hypothesis Q_update : ∀ e t id d, preserves Q (onLocal (update e t id d)).
Hypothesis Q_delete : ∀ t id, preserves Q (onLocal (delete_ t id)).
Hypothesis Q_list : ∀ t o, preserves Q (onLocal (list_ t o)).
Hypothesis Q_remote : ∀ A (m : M R A), preserves Q (onRemote m).
Hypothesis Q_reads : ∀ n st, Q st (set_reads n st).
Hypothesis Q_conflicts : ∀ c st, Q st (set_conflicts c st).
Hypothesis Q_pending : ∀ q st, Q st (set_pendingOperations q st).
Hypothesis Q_saved : ∀ q st, Q st (set_saved q st).
Hypothesis Q_lastSync : ∀ t st, Q st (set_lastSyncTime t st).

Lemma readEnv_preserves : preserves Q (readEnv env).
Proof. intros st r st' [= <- <-]. apply Q_reads. Qed.

Lemma localCreate_preserves table data : preserves Q (localCreate env table data).
Proof.
  apply preserves_bind; [done | apply readEnv_preserves | intros e; apply Q_create].
Qed.

Lemma localUpdate_preserves table id data : preserves Q (localUpdate env table id data).
Proof.
  apply preserves_bind; [done | apply readEnv_preserves | intros e; apply Q_update].
Qed.

Lemma savePendingOperations_preserves : preserves Q (savePendingOperations quota).
Proof.
  intros st r st'. unfold savePendingOperations.
  destruct (quota _); intros [= <- <-]; [apply Q_saved | reflexivity].
Qed.

Lemma replay_preserves op : preserves Q (replay op).
Proof.
  unfold replay. destruct (op_operation op).
  - apply preserves_bind; [done | apply Q_remote | intros; by apply preserves_ret].
  - apply preserves_bind; [done | apply Q_remote | intros; by apply preserves_ret].
  - apply Q_remote.
Qed.

Lemma push_loop_preserves i operations successfulOps :
  preserves Q (push_loop i operations successfulOps).
Proof.
  revert i successfulOps.
  induction operations as [|op rest IH]; intros i successfulOps; simpl.
  - by apply preserves_ret.
  - apply preserves_bind; [done | | intros; apply IH].
    apply preserves_try_catch; [done | |].
    + apply preserves_bind; [done | apply replay_preserves |].
      intros; by apply preserves_ret.
    + intros _. apply preserves_bind; [done | |].
      * apply preserves_modify. intros st. apply Q_pending.
      * intros _. apply preserves_if; by apply preserves_ret.
Qed.

Lemma processPendingOperations_preserves :
  preserves Q (processPendingOperations quota).
Proof.
  intros st r st'. unfold processPendingOperations.
  destruct (remoteAdapter st); [|intros [= <- <-]; reflexivity].
  intros Hrun. refine (preserves_bind Q _ _ _ _ st r st' Hrun);
    [apply push_loop_preserves|].
  intros succ. apply preserves_bind; [done | |].
  - apply preserves_modify. intros st0. apply Q_pending.
  - intros _. apply savePendingOperations_preserves.
Qed.

Lemma resolveConflict_preserves local remote :
  preserves Q (resolveConflict env local remote).
Proof.
  intros st r st'. unfold resolveConflict.
  destruct (strategy st); try (intros [= <- <-]; reflexivity).
  intros Hrun. refine (preserves_bind Q _ _ _ _ st r st' Hrun);
    [apply readEnv_preserves|].
  intros e. apply preserves_bind; [done | |].
  - apply preserves_modify. intros st0. apply Q_conflicts.
  - intros _. by apply preserves_ret.
Qed.

Lemma pull_record_preserves table localMap remoteRecord :
  preserves Q (pull_record env table localMap remoteRecord).
Proof.
  unfold pull_record. destruct (localMap !! _) as [localRecord|].
  - apply preserves_bind; [done | apply resolveConflict_preserves |].
    intros [| |].
    + apply preserves_bind; [done | apply Q_remote | intros; by apply preserves_ret].
    + apply preserves_bind; [done | apply localUpdate_preserves |].
      intros; by apply preserves_ret.
    + by apply preserves_ret.
  - apply preserves_bind; [done | apply localCreate_preserves |].
    intros; by apply preserves_ret.
Qed.

Lemma prune_record_preserves table remoteMap localRecord :
  preserves Q (prune_record table remoteMap localRecord).
Proof.
  unfold prune_record. apply preserves_if; [apply Q_delete | by apply preserves_ret].
Qed.

Lemma syncTable_preserves table : preserves Q (syncTable env table).
Proof.
  apply preserves_try_catch; [done | | intros; by apply preserves_ret].
  apply preserves_bind; [done | apply Q_remote |]. intros remoteRecords.
  apply preserves_bind; [done | apply Q_list |]. intros localRecords.
  apply preserves_bind; [done | |].
  - apply preserves_forEach; [done|]. intros; apply pull_record_preserves.
  - intros _. apply preserves_forEach; [done|]. intros; apply prune_record_preserves.
Qed.

Lemma syncFromRemote_preserves : preserves Q (syncFromRemote env).
Proof.
  intros st r st'. unfold syncFromRemote.
  destruct (remoteAdapter st); [|intros [= <- <-]; reflexivity].
  intros Hrun. refine (preserves_forEach Q _ _ _ st r st' Hrun).
  intros; apply syncTable_preserves.
Qed.

(** The [try] block of [triggerSync], with its [catch]. *)
Lemma pass_body_preserves :
  preserves Q
    (try_catch
       (processPendingOperations quota ;;;
        syncFromRemote env ;;;
        e <- readEnv env ;;
        modify (set_lastSyncTime (Some (clock e))))
       (λ _, ret tt)).
Proof.
  apply preserves_try_catch; [done | | intros; by apply preserves_ret].
  apply preserves_bind; [done | apply processPendingOperations_preserves |]. intros _.
  apply preserves_bind; [done | apply syncFromRemote_preserves |]. intros _.
  apply preserves_bind; [done | apply readEnv_preserves |]. intros e.
  apply preserves_modify. intros st. apply Q_lastSync.
Qed.
End SyncPreserves.

Section SyncLocal.
Context `{JS : Runtime} {R : Type} `{RA : IStorageAdapter R}.
Variable env : nat → Env.
Variable quota : list SyncOperation → bool.

Lemma onLocal_on_local {A} P (m : M IndexedDBAdapter A) :
  preserves P m → preserves (on_local (R := R) P) (onLocal m).
Proof.
  intros Hm st r st'. unfold onLocal, on_local.
  destruct (m (localAdapter st)) as [r0 a'] eqn:Hrun.
  intros [= <- <-]. simpl. by eapply Hm.
Qed.

Lemma onRemote_on_local {A} P `{!PreOrder P} (m : M R A) :
  preserves (on_local P) (onRemote m).
Proof.
  intros st r st'. unfold onRemote, on_local.
  destruct (remoteAdapter st) as [r0|]; [|intros [= <- <-]; reflexivity].
  destruct (m r0). intros [= <- <-]. simpl. reflexivity.
Qed.

Lemma list_state table options a : (list_ table options a).2 = a.
Proof.
  unfold list_. rewrite query_unfold.
  destruct (db a) as [d|]; [|done].
  destruct (objectStore d table); [|done].
  by destruct (query_request _ _ _).
Qed.

Lemma list_preserves P `{!PreOrder P} table options : preserves P (list_ table options).
Proof.
  intros a r a' Hrun. pose proof (list_state table options a) as Hst.
  rewrite Hrun in Hst. simpl in Hst. subst. reflexivity.
Qed.

(** The local writes of a pull pass are writes of the adapter. *)
Lemma syncFromRemote_writes_pending :
  preserves (on_local writes_pending) (syncFromRemote (R := R) env).
Proof.
  apply syncFromRemote_preserves; try apply _.
  - intros. apply onLocal_on_local, create_writes_pending.
  - intros. apply onLocal_on_local, update_writes_pending.
  - intros. apply onLocal_on_local, delete_writes_pending.
  - intros. apply onLocal_on_local, list_preserves. apply _.
  - intros. apply onRemote_on_local. apply _.
  - intros n st. unfold on_local. simpl. reflexivity.
  - intros c st. unfold on_local. simpl. reflexivity.
Qed.

Lemma prune_pending_noop table remoteMap localRecord (st : SyncManager R) :
  getp localRecord "_sync_status" = VStr "pending" →
  prune_record table remoteMap localRecord st = (Ok tt, st).
Proof.
  intros Hp. unfold prune_record. rewrite Hp.
  rewrite (bool_decide_eq_false_2 (VStr "pending" = VStr "synced")) by done.
  by rewrite andb_false_r.
Qed.

(** C3. Whatever [_sync_status] the input carries, [addMetadata] stamps
    ['pending'], and so does every record that [create], [update],
    [bulkCreate] or [import] puts in the local store: after any of them a
    stored record is one that was there before or is pending. The same
    holds for a pull pass, so that a record inserted from the remote is
    pending, not synced. A store that only the adapter wrote holds no
    synced record, and the deletion rule of the pull phase does nothing on
    a pending record. *)
Theorem local_writes_are_pending :
  (∀ device e data,
     getp (addMetadata device e data) "_sync_status" = VStr "pending") ∧
  (∀ e table data a r a',
     create e table data a = (r, a') → writes_pending a a') ∧
  (∀ e table id data a r a',
     update e table id data a = (r, a') → writes_pending a a') ∧
  (∀ es table data a r a',
     bulkCreate es table data a = (r, a') → writes_pending a a') ∧
  (∀ ess data a r a',
     import_ ess data a = (r, a') → writes_pending a a') ∧
  (∀ (st : SyncManager R) r st',
     syncFromRemote env st = (r, st') →
     writes_pending (localAdapter st) (localAdapter st')) ∧
  (∀ table remoteRecord (st : SyncManager R) r st',
     localCreate env table remoteRecord st = (Ok r, st') →
     getp r "_sync_status" = VStr "pending" ∧
     stored (localAdapter st') table (getp r "id") = Some r) ∧
  (∀ a table k r,
     adapter_history a → stored a table k = Some r →
     getp r "_sync_status" = VStr "pending" ∧ getp r "_sync_status" ≠ VStr "synced") ∧
  (∀ table remoteMap localRecord (st : SyncManager R),
     getp localRecord "_sync_status" = VStr "pending" →
     prune_record table remoteMap localRecord st = (Ok tt, st)).
Proof.
  split_and!.
  - apply addMetadata_sync_status.
  - intros e table data. apply create_writes_pending.
  - intros e table id data. apply update_writes_pending.
  - intros es table data. apply bulkCreate_writes_pending.
  - intros ess data. apply import_writes_pending.
  - apply syncFromRemote_writes_pending.
  - intros table remoteRecord st r st'. unfold localCreate, readEnv, onLocal, bind.
    simpl. rewrite create_unfold.
    destruct (db (localAdapter st)) as [d|]; [|done].
    destruct (d !! table) as [s|]; [|done].
    destruct (store_add _ _ _) as [s'|] eqn:Hadd; [|done].
    intros [= <- <-]. simpl. split; [apply addMetadata_sync_status|].
    apply store_add_inv in Hadd as (-> & _).
    rewrite stored_commit. rewrite decide_True by done. apply lookup_insert_eq.
  - intros a table k r Hhist Hr.
    apply adapter_history_all_pending in Hhist.
    rewrite (Hhist _ _ _ Hr). done.
  - apply prune_pending_noop.
Qed.
End SyncLocal.

(** A remote record marked synced is stored pending. *)
Lemma local_writes_are_pending_witness :
  let run := create (JS := sample_runtime) (sample_env 0) "clients" sample_remote_record
               sample_local in
  is_ok run.1 = true ∧
  getp sample_remote_record "_sync_status" = VStr "synced" ∧
  ∀ r, stored run.2 "clients" (VStr "r1") = Some r →
       getp r "_sync_status" = VStr "pending".
Proof.
  intros run. split; [vm_compute; reflexivity|]. split; [vm_compute; reflexivity|].
  intros r Hr.
  destruct (local_writes_are_pending (JS := sample_runtime) (RA := unreachable_adapter)
              sample_env) as (_ & Hcreate & _).
  destruct (Hcreate (sample_env 0) "clients" sample_remote_record sample_local
              run.1 run.2 (surjective_pairing _) "clients" (VStr "r1") r Hr)
    as [Hold|Hp]; [|done].
  vm_compute in Hold. discriminate.
Defined.

(** ** Mutual exclusion of passes *)

Section MutualExclusion.
Context `{JS : Runtime} {R : Type} `{RA : IStorageAdapter R}.
Variable env : nat → Env.
Variable quota : list SyncOperation → bool.

Lemma onLocal_same_flag {A} (m : M IndexedDBAdapter A) :
  preserves (same_flag (R := R)) (onLocal m).
Proof.
  intros st r st'. unfold onLocal.
  destruct (m (localAdapter st)). by intros [= <- <-].
Qed.

Lemma onRemote_same_flag {A} (m : M R A) : preserves same_flag (onRemote m).
Proof.
  intros st r st'. unfold onRemote.
  destruct (remoteAdapter st) as [r0|]; [|by intros [= <- <-]].
  destruct (m r0). by intros [= <- <-].
Qed.

(** Between its two assignments a pass never writes [isSyncing]. *)
Lemma pass_body_same_flag :
  preserves (same_flag (R := R))
    (try_catch
       (processPendingOperations quota ;;;
        syncFromRemote env ;;;
        e <- readEnv env ;;
        modify (set_lastSyncTime (Some (clock e))))
       (λ _, ret tt)).
Proof.
  apply pass_body_preserves; try apply _; try done.
  - intros. apply onLocal_same_flag.
  - intros. apply onLocal_same_flag.
  - intros. apply onLocal_same_flag.
  - intros. apply onLocal_same_flag.
  - intros. apply onRemote_same_flag.
Qed.

Lemma triggerSync_unfold st :
  triggerSync env quota st =
  if guard st then (Ok tt, st)
  else
    let run :=
      try_catch
        (processPendingOperations quota ;;;
         syncFromRemote env ;;;
         e <- readEnv env ;;
         modify (set_lastSyncTime (Some (clock e))))
        (λ _, ret tt) (set_isSyncing true st) in
    (run.1, set_isSyncing false run.2).
Proof.
  unfold triggerSync, triggerSync_begin, triggerSync_try, triggerSync_finally, guard.
  destruct (_ || _ || _); [done|].
  by destruct (try_catch _ _ _).
Qed.

Lemma triggerSync_begin_guard (st : SyncManager R) :
  triggerSync_begin st = if guard st then None else Some (set_isSyncing true st).
Proof. done. Qed.

(** The [try] block never assigns the flag. *)
Lemma triggerSync_try_same_flag :
  preserves (same_flag (R := R)) (triggerSync_try env quota).
Proof. apply pass_body_same_flag. Qed.

(** A call of [triggerSync] that passes the guard is an entry, some work
    that leaves the flag alone, and an exit. *)
Lemma triggerSync_steps st :
  guard st = false →
  ∃ st2,
    step (st, O) (set_isSyncing true st, 1%nat) ∧
    step (set_isSyncing true st, 1%nat) (st2, 1%nat) ∧
    step (st2, 1%nat) ((triggerSync env quota st).2, O).
Proof.
  intros Hg. rewrite triggerSync_unfold, Hg. simpl.
  eexists. split_and!.
  - apply step_enter. by rewrite triggerSync_begin_guard, Hg.
  - apply step_other. eapply pass_body_same_flag. apply surjective_pairing.
  - apply step_leave.
Qed.

Lemma reachable_flag (c : SyncManager R * nat) :
  reachable c → c.2 = if isSyncing c.1 then 1%nat else O.
Proof.
  induction 1 as [st Hst | c c' _ IH Hstep]; simpl.
  - by rewrite Hst.
  - destruct Hstep as [st st1 n Hb | st n Hb | st n | st st' n Hflag]; simpl in *.
    + rewrite triggerSync_begin_guard in Hb. unfold guard in Hb.
      destruct (isSyncing st); [done|].
      destruct (_ || _); [done|]. injection Hb as <-. simpl. by rewrite IH.
    + done.
    + destruct (isSyncing st); [by injection IH as -> | done].
    + by rewrite Hflag.
Qed.

(** C6. A call of [triggerSync] while the flag is set, while offline or
    without a remote adapter returns at its guard: it is not suspended and
    changes nothing. A call that gets past the guard sets the flag before
    it is suspended for the first time; the [try] block never assigns the
    flag, so that it is still set when the [finally] clause runs, which
    clears it, whatever failed on the way; and the call resolves. In every
    state the event loop can reach by starting calls, running code between
    and finishing calls, at most one call is suspended, and the flag is set
    exactly when one is: a call that arrives during a pass starts no second
    one. *)
Theorem triggerSync_mutual_exclusion :
  (∀ st, isSyncing st = true ∨ remoteAdapter st = None ∨ isOnline st = false →
         triggerSync_begin st = None ∧ triggerSync env quota st = (Ok tt, st)) ∧
  (∀ st, guard st = false →
         (triggerSync env quota st).1 = Ok tt ∧
         isSyncing (triggerSync env quota st).2 = false) ∧
  (∀ st, guard st = false →
         ∃ st1, triggerSync_begin st = Some st1 ∧
                isSyncing st1 = true ∧
                isSyncing (triggerSync_try env quota st1).2 = true ∧
                triggerSync env quota st
                = ((triggerSync_try env quota st1).1,
                   triggerSync_finally (triggerSync_try env quota st1).2) ∧
                step (st, O) (st1, 1%nat) ∧
                step (st1, 1%nat) ((triggerSync_try env quota st1).2, 1%nat) ∧
                step ((triggerSync_try env quota st1).2, 1%nat)
                     ((triggerSync env quota st).2, O)) ∧
  (∀ st r st', triggerSync_try env quota st = (r, st') → isSyncing st' = isSyncing st) ∧
  (∀ (st : SyncManager R) n,
     reachable (st, n) → (n ≤ 1)%nat ∧ (isSyncing st = true ↔ n = 1%nat)) ∧
  (∀ (st st' : SyncManager R) n n',
     reachable (st, n) → isSyncing st = true → step (st, n) (st', n') → (n' ≤ n)%nat).
Proof.
  split_and!.
  - intros st Hst.
    assert (guard st = true) as Hg.
    { unfold guard. destruct Hst as [-> | [-> | ->]]; [done| |].
      + rewrite bool_decide_eq_false_2 by (by intros [? ?]).
        by rewrite orb_true_r.
      + by rewrite orb_true_r. }
    by rewrite triggerSync_unfold, triggerSync_begin_guard, Hg.
  - intros st Hg. rewrite triggerSync_unfold, Hg. simpl. split; [|done].
    unfold try_catch. by destruct (bind _ _ _) as [[[]|e] s1].
  - intros st Hg. exists (set_isSyncing true st).
    assert (triggerSync_begin st = Some (set_isSyncing true st)) as Hb
      by (by rewrite triggerSync_begin_guard, Hg).
    assert (isSyncing (triggerSync_try env quota (set_isSyncing true st)).2 = true)
      as Hheld.
    { by rewrite (triggerSync_try_same_flag _ _ _ (surjective_pairing _)). }
    assert (triggerSync env quota st
            = ((triggerSync_try env quota (set_isSyncing true st)).1,
               triggerSync_finally (triggerSync_try env quota (set_isSyncing true st)).2))
      as Hrun.
    { unfold triggerSync. rewrite Hb.
      by destruct (triggerSync_try env quota (set_isSyncing true st)). }
    split_and!; [done | done | done | done | | |].
    + by apply step_enter.
    + apply step_other. by rewrite Hheld.
    + rewrite Hrun. apply step_leave.
  - intros st r st' Hrun. exact (triggerSync_try_same_flag _ _ _ Hrun).
  - intros st n Hreach. apply reachable_flag in Hreach. simpl in Hreach.
    destruct (isSyncing st); subst n; split; try lia; done.
  - intros st st' n n' Hreach Hflag Hstep.
    inversion Hstep as [? ? ? Hb | | |]; subst; try lia.
    rewrite triggerSync_begin_guard in Hb. unfold guard in Hb.
    by rewrite Hflag in Hb.
Qed.
End MutualExclusion.

(** ** [sync] in local-only mode *)

Section SyncLocalOnly.
Context `{JS : Runtime} {R : Type} `{RA : IStorageAdapter R}.
Variable env : nat → Env.
Variable quota : list SyncOperation → bool.

(** C7. With no remote adapter, [sync] rejects with the configuration
    error and the manager is left as it was: configuration, local store,
    pending queue and everything else. *)
Theorem sync_without_remote (mg : StorageManager R) :
  hasRemoteAdapter mg = false →
  sync env quota mg
  = (Err (Error "Remote adapter not configured. Enable cloud sync first."), mg).
Proof. intros Hno. unfold sync. by rewrite Hno. Qed.
End SyncLocalOnly.

(** The scenario of the specification: five clients created in local-only
    mode, then [sync]. *)
Lemma sync_without_remote_witness :
  let mg := (create_five sample_manager).2 in
  is_ok (create_five sample_manager).1 = true ∧
  length (pendingOperations (syncManager mg)) = 5%nat ∧
  (size <$> (db (localAdapter (syncManager mg)) ≫= (.!! "clients"))) = Some 5%nat ∧
  sync (JS := sample_runtime) (RA := unreachable_adapter) sample_env (λ _, true) mg
  = (Err (Error "Remote adapter not configured. Enable cloud sync first."), mg).
Proof.
  intros mg. split_and!.
  - vm_compute. reflexivity.
  - vm_compute. reflexivity.
  - vm_compute. reflexivity.
  - apply sync_without_remote. vm_compute. reflexivity.
Defined.

(** A call on the busy synchroniser returns at the guard; a call on the
    idle one is suspended with the flag set, a second call that arrives
    then returns at the guard, and the first ends with the flag cleared. *)
Lemma triggerSync_mutual_exclusion_witness :
  (triggerSync_begin sample_busy = None ∧
   triggerSync (JS := sample_runtime) (RA := unreachable_adapter) sample_env (λ _, true)
     sample_busy = (Ok tt, sample_busy)) ∧
  isSyncing (triggerSync (JS := sample_runtime) (RA := unreachable_adapter) sample_env
               (λ _, true) sample_idle).2 = false ∧
  ∃ st1, triggerSync_begin sample_idle = Some st1 ∧ isSyncing st1 = true ∧
         triggerSync_begin st1 = None.
Proof.
  destruct (triggerSync_mutual_exclusion (JS := sample_runtime) (RA := unreachable_adapter)
              sample_env (λ _, true)) as (Hskip & Hpass & Hheld & _).
  split; [|split].
  - apply Hskip. left. reflexivity.
  - apply Hpass. vm_compute. reflexivity.
  - destruct (Hheld sample_idle) as (st1 & Hbegin & Hflag & _); [vm_compute; reflexivity|].
    exists st1. split; [exact Hbegin|]. split; [exact Hflag|].
    apply Hskip. left. exact Hflag.
Defined.

(** ** Conflict resolution *)

Lemma fixed_tables_unknown a d :
  idb_ok a → db a = Some d → d !! "unknown_table" = None.
Proof.
  intros (d' & Hd' & Htables & _) Hd. rewrite Hd in Hd'. injection Hd' as <-.
  apply eq_None_not_Some. rewrite <- Htables.
  unfold TABLES. rewrite !elem_of_cons, elem_of_nil.
  intros [?|[?|[?|[?|[?|[?|[?|[]]]]]]]]; discriminate.
Qed.

Section Conflicts.
Context `{JS : Runtime} {R : Type} `{RA : IStorageAdapter R}.
Variable env : nat → Env.

(** C4. [resolveConflict] follows the configured strategy: ['local-wins']
    answers ['local'] and ['remote-wins'] answers ['remote'] for every pair
    of records; ['newest-wins'] compares [updated_at], or [created_at] where
    [updated_at] is missing, and answers ['remote'] exactly when the remote
    instant is at or after the local one; ['manual'] answers ['manual'],
    touches neither adapter and sets one entry of the conflict map, the
    Conflict Record of the pair, which is one more record when its id is
    new. In a pull pass the manual answer writes to neither copy. *)
Theorem resolveConflict_policy (local remote : record) (st : SyncManager R) :
  (strategy st = local_wins →
   resolveConflict env local remote st = (Ok res_local, st)) ∧
  (strategy st = remote_wins →
   resolveConflict env local remote st = (Ok res_remote, st)) ∧
  (strategy st = newest_wins →
   ∀ t1 t2,
     getTime (js_or (getp local "updated_at") (getp local "created_at")) = Some t1 →
     getTime (js_or (getp remote "updated_at") (getp remote "created_at")) = Some t2 →
     ∃ r, resolveConflict env local remote st = (Ok r, st) ∧
          (r = res_remote ↔ t2 >= t1) ∧ (r = res_local ↔ t1 > t2)) ∧
  (strategy st = manual →
   let conflictId :=
     js_toString (getp local "id") +:+ "_" +:+ pretty (clock (env (reads st))) in
   let record := mkConflict local local remote res_manual None in
   ∃ st',
     resolveConflict env local remote st = (Ok res_manual, st') ∧
     conflicts st' = <[conflictId := record]> (conflicts st) ∧
     localAdapter st' = localAdapter st ∧
     remoteAdapter st' = remoteAdapter st ∧
     (conflicts st !! conflictId = None → size (conflicts st') = S (size (conflicts st))) ∧
     ∀ table localMap,
       localMap !! getp remote "id" = Some local →
       pull_record env table localMap remote st = (Ok tt, st')).
Proof.
  split_and!.
  - intros Hs. unfold resolveConflict. by rewrite Hs.
  - intros Hs. unfold resolveConflict. by rewrite Hs.
  - intros Hs t1 t2 Ht1 Ht2. unfold resolveConflict. rewrite Hs, Ht1, Ht2. simpl.
    destruct (Z.ltb_spec t2 t1).
    + exists res_local. split; [done|]. split; split; (done || lia).
    + exists res_remote. split; [done|]. split; split; (done || lia).
  - intros Hs conflictId record.
    unfold resolveConflict. rewrite Hs. unfold readEnv. unfold_monad. simpl.
    eexists. split; [reflexivity|]. simpl. split_and!; try done.
    + intros Hfresh. by apply map_size_insert_None.
    + intros table localMap Hlocal. unfold pull_record. rewrite Hlocal.
      unfold resolveConflict, bind. rewrite Hs. by unfold readEnv.
Qed.

(** [tableMatch] is never [undefined]: the conflict itself matches. *)
Lemma tableMatch_found (cs : gmap string ConflictResolution) conflictId conflict :
  cs !! conflictId = Some conflict →
  List.find (λ c, bool_decide (getp (c_record c) "id" = getp (c_record conflict) "id"))
            (map_to_list cs).*2 ≠ None.
Proof.
  intros Hc Hnone.
  eapply find_none with (x := conflict) in Hnone.
  - by rewrite bool_decide_eq_true_2 in Hnone.
  - apply list_elem_of_In, list_elem_of_fmap. exists (conflictId, conflict).
    split; [done|]. by apply elem_of_map_to_list.
Qed.

(** C1, on the code. [resolveConflictManually] addresses both adapters at
    the table ['unknown_table']. The local database has no object store of
    that name (its stores are the fixed tables), so for every recorded
    conflict the call rejects with IndexedDB's [NotFoundError], writes to
    neither copy and leaves the Conflict Record in the conflict set. *)
Theorem resolveConflictManually_unknown_table
    conflictId resolution customData (st : SyncManager R) conflict d :
  conflicts st !! conflictId = Some conflict →
  db (localAdapter st) = Some d →
  d !! "unknown_table" = None →
  ∃ st',
    resolveConflictManually env conflictId resolution customData st
    = (Err (DOMException "NotFoundError"), st') ∧
    conflicts st' !! conflictId = Some conflict ∧
    localAdapter st' = localAdapter st ∧
    remoteAdapter st' = remoteAdapter st.
Proof.
  intros Hc Hd Hnone. unfold resolveConflictManually. rewrite Hc.
  destruct (List.find _ _) eqn:Hfind;
    [|exfalso; by eapply tableMatch_found].
  unfold localUpdate, readEnv, onLocal. unfold bind at 1. unfold bind at 1.
  simpl. rewrite update_unfold, Hd, Hnone.
  eexists. split; [reflexivity|]. simpl.
  split_and!; [done | | done].
  by destruct (localAdapter st).
Qed.
End Conflicts.

Lemma resolveConflict_policy_witness :
  let local := sample_record "a" "Ana" 5 in
  let remote :=
    <["updated_at" := VStr "2024-01-01T00:01:00.000Z"]> (sample_record "a" "Ana Lima" 6) in
  ∃ r, resolveConflict (JS := sample_runtime) sample_env local remote sample_idle
       = (Ok r, sample_idle) ∧
       (r = res_remote ↔ 1704067260000 >= 1704067200000).
Proof.
  intros local remote.
  destruct (resolveConflict_policy (JS := sample_runtime) (RA := unreachable_adapter)
              sample_env local remote sample_idle) as (_ & _ & Hnewest & _).
  destruct (Hnewest eq_refl 1704067200000 1704067260000) as (r & Hr & Hiff & _).
  - vm_compute. reflexivity.
  - vm_compute. reflexivity.
  - by exists r.
Defined.

Lemma resolveConflictManually_unknown_table_witness :
  ∃ st',
    resolveConflictManually (JS := sample_runtime) (RA := memory_adapter) sample_env
      "a_1704067260000" res_remote None sample_conflicted
    = (Err (DOMException "NotFoundError"), st') ∧
    conflicts st' !! "a_1704067260000" = Some sample_conflict ∧
    localAdapter st' = localAdapter sample_conflicted ∧
    remoteAdapter st' = remoteAdapter sample_conflicted.
Proof.
  apply (resolveConflictManually_unknown_table (JS := sample_runtime) (RA := memory_adapter)
           sample_env "a_1704067260000" res_remote None sample_conflicted sample_conflict
           (<["clients" := sample_clients]> fresh_database)).
  - vm_compute. reflexivity.
  - reflexivity.
  - vm_compute. reflexivity.
Defined.

Lemma query_limit_offset_witness :
  (λ r, getp r "name") <$>
    result_value []
      (query (JS := sample_runtime) "clients" (mkQuery None None (Some 1) (Some 1) None)
         sample_local).1
  = [VStr "Bia"].
Proof.
  destruct (query_limit_offset_falsy (JS := sample_runtime)) as (_ & _ & _ & Hboth).
  rewrite (Hboth "clients" None None None sample_local 1 1) by lia.
  vm_compute. reflexivity.
Defined.

(** ** The push phase *)

Section Push.
Context {R : Type} `{RA : IStorageAdapter R}.
Variable quota : list SyncOperation → bool.

Lemma replay_remote op (st : SyncManager R) r :
  remoteAdapter st = Some r →
  replay op st = ((remote_call op r).1, set_remoteAdapter (Some (remote_call op r).2) st).
Proof.
  intros Hr. unfold replay, remote_call, onRemote.
  destruct (op_operation op); unfold_monad; rewrite Hr.
  - by destruct (adapter_create _ _ r) as [[x|e] r1].
  - by destruct (adapter_update _ _ _ r) as [[x|e] r1].
  - by destruct (adapter_delete _ _ r) as [[x|e] r1].
Qed.

Lemma push_marks_ids ops (r : R) : (λ m, op_id m.1) <$> push_marks ops r = op_id <$> ops.
Proof.
  revert r. induction ops as [|op rest IH]; intros r; simpl; [done|].
  destruct (remote_call op r) as [[[]|e] r1]; simpl; by rewrite IH.
Qed.

Lemma marked_ids_subset ops (r : R) x :
  x ∈ marked_ids (push_marks ops r) → x ∈ op_id <$> ops.
Proof.
  unfold marked_ids. rewrite <- (push_marks_ids ops r).
  rewrite !list_elem_of_fmap. intros (m & -> & Hm).
  apply list_elem_of_filter in Hm as [_ Hm]. eauto.
Qed.

Lemma marked_ids_cons m ms :
  marked_ids (m :: ms) = (if m.2 then [op_id m.1] else []) ++ marked_ids ms.
Proof.
  unfold marked_ids. rewrite filter_cons.
  destruct m as [op [|]];
    [rewrite decide_True by done | rewrite decide_False by done]; done.
Qed.

(** The loop, run from a queue [pre ++ ops] whose first [i] elements are
    done. *)
Lemma push_loop_run ops : ∀ i successfulOps (st : SyncManager R) pre r,
  pendingOperations st = (pre ++ ops)%list → length pre = i →
  remoteAdapter st = Some r →
  push_loop i ops successfulOps st
  = (Ok (successfulOps ++ marked_ids (push_marks ops r))%list,
     set_pendingOperations (pre ++ (push_marks ops r).*1)%list
       (set_remoteAdapter (Some (push_spec ops r).2) st)).
Proof.
  induction ops as [|op rest IH]; intros i succ st pre r Hq Hlen Hr; simpl.
  - unfold ret, marked_ids. simpl. rewrite !app_nil_r. rewrite app_nil_r in Hq.
    destruct st; simpl in *; by subst.
  - unfold bind at 1. unfold try_catch. unfold bind at 1.
    rewrite (replay_remote op st r Hr).
    destruct (remote_call op r) as [[[]|e] r1] eqn:Hcall; simpl.
    + rewrite (IH (S i) (succ ++ [op_id op]) (set_remoteAdapter (Some r1) st)
                 (pre ++ [op]) r1);
        [| by simpl; rewrite Hq, <- app_assoc | rewrite length_app; simpl; lia | done].
      rewrite marked_ids_cons. simpl.
      destruct (push_spec rest r1) as [kept r2]. simpl.
      by rewrite <- !app_assoc.
    + unfold modify, bind. simpl.
      rewrite Hq. rewrite insert_app_r_alt by lia.
      replace (i - length pre)%nat with O by lia. simpl.
      rewrite marked_ids_cons. simpl.
      destruct (3 <? op_retries op + 1) eqn:Hover; unfold ret at 1.
      * rewrite (IH (S i) (succ ++ [op_id op])
                   (set_pendingOperations (pre ++ bump op :: rest)
                      (set_remoteAdapter (Some r1) st))
                   (pre ++ [bump op]) r1);
          [| by simpl; rewrite <- app_assoc | rewrite length_app; simpl; lia | done].
        destruct (push_spec rest r1) as [kept r2]. simpl.
        by rewrite <- !app_assoc.
      * rewrite (IH (S i) succ
                   (set_pendingOperations (pre ++ bump op :: rest)
                      (set_remoteAdapter (Some r1) st))
                   (pre ++ [bump op]) r1);
          [| by simpl; rewrite <- app_assoc | rewrite length_app; simpl; lia | done].
        destruct (push_spec rest r1) as [kept r2]. simpl.
        by rewrite <- !app_assoc.
Qed.

Lemma push_marks_cons op rest (r : R) :
  push_marks (op :: rest) r
  = (match (remote_call op r).1 with
     | Ok _ => (op, true)
     | Err _ => (bump op, 3 <? op_retries op + 1)
     end) :: push_marks rest (remote_call op r).2.
Proof. simpl. by destruct (remote_call op r). Qed.

Lemma push_spec_cons op rest (r : R) :
  push_spec (op :: rest) r
  = (match (remote_call op r).1 with
     | Ok _ => (push_spec rest (remote_call op r).2).1
     | Err _ => if 3 <? op_retries op + 1
                then (push_spec rest (remote_call op r).2).1
                else bump op :: (push_spec rest (remote_call op r).2).1
     end, (push_spec rest (remote_call op r).2).2).
Proof.
  simpl. destruct (remote_call op r) as [res r1]. simpl.
  destruct (push_spec rest r1) as [kept r2]. simpl.
  destruct res as [[]|e]; [done|]. by destruct (3 <? op_retries op + 1).
Qed.

Lemma filter_extra_ids (extra : list string) (ms : list (SyncOperation * bool)) :
  (∀ x, x ∈ extra → x ∉ (λ m, op_id m.1) <$> ms) →
  filter (λ op, op_id op ∉ extra ++ marked_ids ms) ms.*1
  = filter (λ op, op_id op ∉ marked_ids ms) ms.*1.
Proof.
  intros Hex. apply filter_iff_in.
  intros x Hx. rewrite not_elem_of_app. split; [by intros [_ ?]|].
  intros Hm. split; [|done]. intros Hin. apply (Hex _ Hin).
  apply list_elem_of_fmap in Hx as (m & -> & Hm').
  apply list_elem_of_fmap. by exists m.
Qed.

Lemma filter_marked ops (r : R) :
  NoDup (op_id <$> ops) →
  filter (λ op, op_id op ∉ marked_ids (push_marks ops r)) (push_marks ops r).*1
  = (push_spec ops r).1.
Proof.
  revert r. induction ops as [|op rest IH]; intros r Hnd; [done|].
  rewrite fmap_cons in Hnd. apply NoDup_cons in Hnd as [Hfresh Hnd].
  rewrite push_marks_cons, push_spec_cons.
  specialize (IH (remote_call op r).2 Hnd).
  rewrite marked_ids_cons, fmap_cons, filter_cons.
  assert (filter (λ op0, op_id op0 ∉ [op_id op] ++
                           marked_ids (push_marks rest (remote_call op r).2))
                 (push_marks rest (remote_call op r).2).*1
          = (push_spec rest (remote_call op r).2).1) as Hdrop.
  { rewrite filter_extra_ids; [done|].
    intros x ->%list_elem_of_singleton. by rewrite push_marks_ids. }
  destruct (remote_call op r).1 as [[]|e]; cbn [fst snd].
  - rewrite decide_False by (intros Hn; apply Hn; by left). exact Hdrop.
  - destruct (3 <? op_retries op + 1) eqn:Hover; cbn [fst snd app].
    + rewrite decide_False by (intros Hn; apply Hn; by left). exact Hdrop.
    + rewrite decide_True; [by rewrite IH|].
      intros Hin. by apply marked_ids_subset in Hin.
Qed.

Lemma processPendingOperations_run (st : SyncManager R) r :
  remoteAdapter st = Some r →
  NoDup (op_id <$> pendingOperations st) →
  let queue := (push_spec (pendingOperations st) r).1 in
  let st1 := set_pendingOperations queue
               (set_remoteAdapter (Some (push_spec (pendingOperations st) r).2) st) in
  processPendingOperations quota st
  = if quota queue then (Ok tt, set_saved queue st1)
    else (Err (DOMException "QuotaExceededError"), st1).
Proof.
  intros Hr Hnd queue st1. unfold processPendingOperations. rewrite Hr.
  unfold bind at 1.
  rewrite (push_loop_run _ O [] st [] r); [|done..]. simpl.
  unfold modify, bind, savePendingOperations. simpl.
  rewrite (filter_marked _ r Hnd). fold queue.
  by destruct (quota queue).
Qed.

Lemma push_spec_app pre post (r : R) :
  push_spec (pre ++ post) r
  = ((push_spec pre r).1 ++ (push_spec post (push_spec pre r).2).1,
     (push_spec post (push_spec pre r).2).2)%list.
Proof.
  revert r. induction pre as [|op pre IH]; intros r; simpl.
  - by destruct (push_spec post r).
  - destruct (remote_call op r) as [res r1]. rewrite IH.
    destruct (push_spec pre r1) as [kept r2]. simpl.
    destruct res as [[]|e]; [done|]. by destruct (3 <? op_retries op + 1).
Qed.

Lemma push_spec_ids ops (r : R) x :
  x ∈ (push_spec ops r).1 → op_id x ∈ op_id <$> ops.
Proof.
  revert r. induction ops as [|op rest IH]; intros r; simpl; [by intros ?%elem_of_nil|].
  destruct (remote_call op r) as [res r1]. specialize (IH r1).
  destruct (push_spec rest r1) as [kept r2]. simpl in *.
  destruct res as [[]|e].
  - intros Hx. right. by apply IH.
  - destruct (3 <? op_retries op + 1).
    + intros Hx. right. by apply IH.
    + intros [->|Hx]%elem_of_cons; [by left | right; by apply IH].
Qed.

(** C5. The push phase replays the queue as the specification words it:
    the queue after the pass is what [push_spec] computes, every operation
    having been tried on the remote in queue order, and that queue is what
    is persisted. So an operation whose replay fails stays in the queue
    with its retry count incremented as long as the count does not exceed
    3, and leaves the queue when it does (the fourth failure of an operation
    that started at 0); the operations behind it are tried all the same,
    on the remote as its attempt left it. *)
Theorem push_retry_and_evict (st : SyncManager R) r0 :
  remoteAdapter st = Some r0 →
  NoDup (op_id <$> pendingOperations st) →
  let st' := (processPendingOperations quota st).2 in
  pendingOperations st' = (push_spec (pendingOperations st) r0).1 ∧
  remoteAdapter st' = Some (push_spec (pendingOperations st) r0).2 ∧
  (quota (pendingOperations st') = true → saved st' = pendingOperations st') ∧
  ∀ pre op post,
    pendingOperations st = (pre ++ op :: post)%list →
    let r1 := (push_spec pre r0).2 in
    let r2 := (remote_call op r1).2 in
    is_ok (remote_call op r1).1 = false →
    (op_retries op + 1 <= 3 → bump op ∈ pendingOperations st') ∧
    (op_retries op + 1 > 3 →
     ∀ op', op' ∈ pendingOperations st' → op_id op' ≠ op_id op) ∧
    pendingOperations st'
    = ((push_spec pre r0).1 ++
       (if 3 <? op_retries op + 1 then [] else [bump op]) ++
       (push_spec post r2).1)%list ∧
    remoteAdapter st' = Some (push_spec post r2).2.
Proof.
  intros Hr Hnd st'.
  assert (pendingOperations st' = (push_spec (pendingOperations st) r0).1 ∧
          remoteAdapter st' = Some (push_spec (pendingOperations st) r0).2 ∧
          (quota (pendingOperations st') = true → saved st' = pendingOperations st'))
    as (Hq & Hrem & Hsaved).
  { unfold st'. rewrite (processPendingOperations_run st r0 Hr Hnd).
    destruct (quota _) eqn:Hquota; simpl; split_and!; try done.
    by rewrite Hquota. }
  split_and!; [done..|].
  intros pre op post Hsplit r1 r2 Hfail.
  assert (push_spec (pendingOperations st) r0
          = ((push_spec pre r0).1 ++
             (if 3 <? op_retries op + 1 then [] else [bump op]) ++
             (push_spec post r2).1, (push_spec post r2).2)%list) as Hspec.
  { rewrite Hsplit, push_spec_app. fold r1. simpl.
    unfold r2. destruct (remote_call op r1) as [[[]|e] r2'] eqn:Hcall; [done|].
    simpl. destruct (push_spec post r2') as [kept r3]. simpl.
    by destruct (3 <? op_retries op + 1). }
  rewrite Hq, Hrem, Hspec. simpl. split_and!; [| |done..].
  - intros Hle. destruct (Z.ltb_spec 3 (op_retries op + 1)); [lia|].
    rewrite !elem_of_app. right. left. by apply list_elem_of_singleton.
  - intros Hgt op' Hin Heq.
    destruct (Z.ltb_spec 3 (op_retries op + 1)); [|lia]. simpl in Hin.
    rewrite Hsplit in Hnd. rewrite fmap_app, fmap_cons in Hnd.
    apply NoDup_app in Hnd as (_ & Hdisj & Hnd').
    apply NoDup_cons in Hnd' as [Hpost _].
    apply elem_of_app in Hin as [Hin|Hin]; apply push_spec_ids in Hin.
    + apply (Hdisj _ Hin). rewrite Heq. by left.
    + apply Hpost. by rewrite <- Heq.
Qed.
End Push.

(** An operation that fails every time: after the first three passes it is
    still queued, with retry counts 1, 2 and 3; the fourth pass removes it
    and the fifth finds the queue empty. The delete queued behind it was
    replayed in the first pass. *)
Lemma push_retry_and_evict_witness :
  let pass st :=
    (processPendingOperations (RA := refusing_adapter)
       (λ _, true) st).2 in
  op_retries <$> pendingOperations (pass (sample_queue 0)) = [1] ∧
  remoteAdapter (pass (sample_queue 0)) = Some {[ "clients" := [] ]} ∧
  op_retries <$> pendingOperations (pass (pass (pass (sample_queue 0)))) = [3] ∧
  pendingOperations (pass (pass (pass (pass (sample_queue 0))))) = [] ∧
  pendingOperations (pass (pass (pass (pass (pass (sample_queue 0)))))) = [] ∧
  (∀ op', op' ∈ pendingOperations (pass (sample_queue 3)) → op_id op' ≠ "lqu5ncyor0") ∧
  saved (pass (sample_queue 3)) = pendingOperations (pass (sample_queue 3)).
Proof.
  intros pass.
  assert (NoDup (op_id <$> pendingOperations (sample_queue 3))) as Hnd
    by (apply (bool_decide_unpack _); vm_compute; exact I).
  destruct (push_retry_and_evict (RA := refusing_adapter)
              (λ _, true) (sample_queue 3) _ eq_refl Hnd) as (_ & _ & Hsaved & Hop).
  split_and!.
  - vm_compute. reflexivity.
  - vm_compute. reflexivity.
  - vm_compute. reflexivity.
  - vm_compute. reflexivity.
  - vm_compute. reflexivity.
  - destruct (Hop [] (sample_op 3) [sample_other_op] eq_refl) as (_ & Hevict & _).
    + vm_compute. reflexivity.
    + apply Hevict. vm_compute. reflexivity.
  - apply Hsaved. reflexivity.
Defined.

(** ** The invariants of the local store are kept *)

Lemma to_base36_nonempty fuel n acc : to_base36 fuel n acc ≠ "".
Proof.
  revert n acc. induction fuel as [|fuel IH]; intros n acc; simpl; [done|].
  destruct (n / 36 =? 0); [done | apply IH].
Qed.

Lemma generateId_nonempty e : generateId e ≠ "".
Proof.
  unfold generateId, toString36.
  destruct (id_clock e <? 0); [done|].
  pose proof (to_base36_nonempty (Z.to_nat (Z.log2 (id_clock e))) (id_clock e) "") as Hne.
  by destruct (to_base36 _ _ _).
Qed.

Lemma truthy_str s : s ≠ "" → truthy (VStr s) = true.
Proof. intros Hs. simpl. by destruct s. Qed.

Lemma js_or_truthy a b : truthy b = true → truthy (js_or a b) = true.
Proof. intros Hb. unfold js_or. by destruct (truthy a) eqn:Ha. Qed.

Lemma truthy_valid_str_or a s : valid_key a = true → valid_key (js_or a (VStr s)) = true.
Proof. intros Ha. unfold js_or. by destruct (truthy a). Qed.

Lemma store_ok_insert table (s : store) (r : record) :
  store_ok table s → valid_key (getp r "id") = true →
  ¬ unique_clash table s (getp r "id") r →
  store_ok table (<[getp r "id" := r]> s).
Proof.
  intros [Hin Huniq] Hvalid Hclash. split.
  - intros k r' Hk. apply lookup_insert_Some in Hk as [[<- <-]|[_ Hk]]; [done|].
    by apply Hin.
  - intros ix k1 r1 k2 r2 Hix Hk1 Hk2 Hv Heq.
    apply lookup_insert_Some in Hk1 as [[<- <-]|[Hne1 Hk1]];
      apply lookup_insert_Some in Hk2 as [[<- <-]|[Hne2 Hk2]].
    + done.
    + exfalso. apply Hclash. exists ix. split_and!; [done | done |].
      exists k2, r2. split; [done|]. split; [congruence | done].
    + exfalso. apply Hclash. exists ix. split_and!; [done | by rewrite <- Heq |].
      exists k1, r1. split; [done|]. split; [congruence | done].
    + by eapply Huniq.
Qed.

Lemma store_ok_subseteq table (s s' : store) : s' ⊆ s → store_ok table s → store_ok table s'.
Proof.
  intros Hsub [Hin Huniq]. split.
  - intros k r Hk. apply Hin. by eapply lookup_weaken.
  - intros ix k1 r1 k2 r2 Hix Hk1 Hk2. eapply Huniq; [done | |]; by eapply lookup_weaken.
Qed.

Lemma store_ok_empty table : store_ok table ∅.
Proof. split; [by intros k r ?|by intros ix k1 r1 k2 r2 _ ?]. Qed.

Lemma idb_ok_commit a d table s s' :
  db a = Some d → d !! table = Some s → idb_ok a → store_ok table s' →
  idb_ok (mkIDB (Some (<[table := s']> d)) (deviceId a)).
Proof.
  intros Hd Hs (d' & Hd' & Htables & Hstores) Hok.
  rewrite Hd in Hd'. injection Hd' as <-.
  exists (<[table := s']> d). split; [done|]. split.
  - intros t. rewrite Htables. destruct (decide (table = t)) as [<-|Hne].
    + rewrite lookup_insert_eq, Hs. split; eauto.
    + by rewrite lookup_insert_ne.
  - intros t s0 Ht. apply lookup_insert_Some in Ht as [[<- <-]|[_ Ht]]; [done|].
    by apply Hstores.
Qed.

Lemma idb_ok_store a d table s :
  idb_ok a → db a = Some d → d !! table = Some s → store_ok table s.
Proof.
  intros (d' & Hd' & _ & Hstores) Hd Hs. rewrite Hd in Hd'. injection Hd' as <-.
  by apply Hstores.
Qed.

Lemma add_all_ok table s records s' :
  store_ok table s → add_all table s records = Ok s' → store_ok table s'.
Proof.
  revert s. induction records as [|r rest IH]; intros s Hok; simpl.
  - by intros [= <-].
  - destruct (valid_key (getp r "id")); [|by apply IH].
    destruct (store_add table s r) as [s1|] eqn:Hadd; [|done].
    apply IH. apply store_add_inv in Hadd as (-> & Hv & _ & Hclash).
    by apply store_ok_insert.
Qed.

Section Invariants.
Context `{JS : Runtime}.

Lemma addMetadata_id_truthy device e data :
  truthy (getp (addMetadata device e data) "id") = true.
Proof.
  rewrite addMetadata_id. apply js_or_truthy, truthy_str, generateId_nonempty.
Qed.

Lemma addMetadata_stamped device e data : stamped device (addMetadata device e data).
Proof.
  split_and!.
  - apply addMetadata_id_truthy.
  - rewrite addMetadata_created_at. apply js_or_truthy, truthy_str, toISOString_nonempty.
  - apply addMetadata_device_id.
  - apply addMetadata_sync_status.
Qed.

Lemma create_keeps_idb_ok e table data : preserves (keeps idb_ok) (create e table data).
Proof.
  intros a r a'. rewrite create_unfold.
  destruct (db a) as [d|] eqn:Hd; [|intros [= <- <-]; reflexivity].
  destruct (d !! table) as [s|] eqn:Hs; [|intros [= <- <-]; reflexivity].
  destruct (store_add _ _ _) as [s'|] eqn:Hadd; [|intros [= <- <-]; reflexivity].
  intros [= <- <-] Hok. apply store_add_inv in Hadd as (-> & Hv & _ & Hclash).
  eapply idb_ok_commit; [done..|].
  apply store_ok_insert; [by eapply idb_ok_store | done | done].
Qed.

Lemma update_keeps_idb_ok e table id data :
  preserves (keeps idb_ok) (update e table id data).
Proof.
  intros a r a'. rewrite update_unfold.
  destruct (db a) as [d|] eqn:Hd; [|intros [= <- <-]; reflexivity].
  destruct (d !! table) as [s|] eqn:Hs; [|intros [= <- <-]; reflexivity].
  destruct (valid_key id); [|intros [= <- <-]; reflexivity].
  destruct (s !! id) as [existing|]; [|intros [= <- <-]; reflexivity].
  simpl. destruct (store_put _ _ _) as [s'|] eqn:Hput; [|intros [= <- <-]; reflexivity].
  intros [= <- <-] Hok. apply store_put_inv in Hput as (-> & Hv & Hclash).
  eapply idb_ok_commit; [done..|].
  apply store_ok_insert; [by eapply idb_ok_store | done | done].
Qed.

Lemma delete_keeps_idb_ok table id : preserves (keeps idb_ok) (delete_ table id).
Proof.
  intros a r a'. rewrite delete_unfold.
  destruct (db a) as [d|] eqn:Hd; [|intros [= <- <-]; reflexivity].
  destruct (d !! table) as [s|] eqn:Hs; [|intros [= <- <-]; reflexivity].
  destruct (valid_key id); [|intros [= <- <-]; reflexivity].
  intros [= <- <-] Hok. eapply idb_ok_commit; [done..|].
  eapply store_ok_subseteq; [apply delete_subseteq | by eapply idb_ok_store].
Qed.

Lemma clear_keeps_idb_ok table : preserves (keeps idb_ok) (clear table).
Proof.
  intros a r a'. rewrite clear_unfold.
  destruct (db a) as [d|] eqn:Hd; [|intros [= <- <-]; reflexivity].
  destruct (d !! table) as [s|] eqn:Hs; [|intros [= <- <-]; reflexivity].
  intros [= <- <-] Hok. eapply idb_ok_commit; [done..|]. apply store_ok_empty.
Qed.

Lemma bulkCreate_keeps_idb_ok es table data :
  preserves (keeps idb_ok) (bulkCreate es table data).
Proof.
  intros a r a'. rewrite bulkCreate_unfold.
  destruct (db a) as [d|] eqn:Hd; [|intros [= <- <-]; reflexivity].
  destruct (d !! table) as [s|] eqn:Hs; [|intros [= <- <-]; reflexivity].
  simpl.
  destruct (List.find _ _), (add_all _ _ _) as [s'|] eqn:Hadd;
    intros [= <- <-] Hok; try done;
    (eapply idb_ok_commit; [done..|]);
    (eapply add_all_ok; [|exact Hadd]); by eapply idb_ok_store.
Qed.

Lemma import_keeps_idb_ok ess data : preserves (keeps idb_ok) (import_ ess data).
Proof.
  revert ess. induction data as [|[table records] rest IH]; intros ess; simpl.
  - apply preserves_ret; apply _.
  - apply preserves_bind; [apply _ | | intros _; apply IH].
    apply preserves_if; [|apply preserves_ret; apply _].
    apply preserves_bind; [apply _ | apply clear_keeps_idb_ok |].
    intros _. apply preserves_if; [|apply preserves_ret; apply _].
    apply preserves_bind; [apply _ | apply bulkCreate_keeps_idb_ok |].
    intros _. apply preserves_ret; apply _.
Qed.

Lemma fresh_database_ok device : idb_ok (mkIDB (Some fresh_database) device).
Proof.
  exists fresh_database. split; [done|]. split.
  - intros t. rewrite <- (elem_of_dom (D := gset string)).
    unfold fresh_database, TABLES. simpl.
    rewrite !dom_insert_L, dom_empty_L. rewrite !elem_of_cons, elem_of_nil.
    set_solver.
  - intros t s Hs. split.
    + intros k r Hk. by rewrite (fresh_database_empty _ _ _ Hs) in Hk.
    + intros ix k1 r1 k2 r2 _ Hk. by rewrite (fresh_database_empty _ _ _ Hs) in Hk.
Qed.

Lemma writes_through_stamped a a' :
  writes_through a a' → all_stamped a → all_stamped a'.
Proof.
  intros [Hdev Hw] Ha t k r Hr. rewrite Hdev.
  destruct (Hw t k r Hr) as [Hold|(e & data & ->)]; [by eapply Ha|].
  apply addMetadata_stamped.
Qed.

Lemma writes_through_truthy a a' :
  writes_through a a' → truthy_ids a → truthy_ids a'.
Proof.
  intros [_ Hw] Ha t k r Hr.
  destruct (Hw t k r Hr) as [Hold|(e & data & ->)]; [by eapply Ha|].
  apply addMetadata_id_truthy.
Qed.

(** The invariants hold of every adapter that can arise. *)
Lemma adapter_history_ok a :
  adapter_history a → idb_ok a ∧ all_stamped a ∧ truthy_ids a.
Proof.
  intros Hhist. split_and!.
  - induction Hhist as [device | e table data a _ IH | e table id data a _ IH
                        | table id a _ IH | table a _ IH | es table data a _ IH
                        | ess data a _ IH].
    + apply fresh_database_ok.
    + by eapply create_keeps_idb_ok; [apply surjective_pairing|].
    + by eapply update_keeps_idb_ok; [apply surjective_pairing|].
    + by eapply delete_keeps_idb_ok; [apply surjective_pairing|].
    + by eapply clear_keeps_idb_ok; [apply surjective_pairing|].
    + by eapply bulkCreate_keeps_idb_ok; [apply surjective_pairing|].
    + by eapply import_keeps_idb_ok; [apply surjective_pairing|].
  - apply adapter_history_writes in Hhist as [device Hw].
    eapply writes_through_stamped; [exact Hw|].
    intros t k r Hr. apply stored_inv in Hr as (d & s & [= <-] & Hs & Hk).
    by rewrite (fresh_database_empty _ _ _ Hs) in Hk.
  - apply adapter_history_writes in Hhist as [device Hw].
    eapply writes_through_truthy; [exact Hw|].
    intros t k r Hr. apply stored_inv in Hr as (d & s & [= <-] & Hs & Hk).
    by rewrite (fresh_database_empty _ _ _ Hs) in Hk.
Qed.
End Invariants.

(** ** What the single writes do to one key *)

Lemma stored_after_commit a d table' s' table k :
  db a = Some d →
  stored (mkIDB (Some (<[table' := s']> d)) (deviceId a)) table k
  = if decide (table' = table) then s' !! k else stored a table k.
Proof.
  intros Hd. rewrite stored_commit. case_decide; [done|].
  unfold stored. simpl. by rewrite Hd.
Qed.

Section OneKey.
Context `{JS : Runtime}.

(** [add] never replaces a record. *)
Lemma create_stored e table' data a r a' table k rec :
  create e table' data a = (r, a') →
  stored a table k = Some rec → stored a' table k = Some rec.
Proof.
  rewrite create_unfold.
  destruct (db a) as [d|] eqn:Hd; [|by intros [= <- <-]].
  destruct (d !! table') as [s|] eqn:Hs; [|by intros [= <- <-]].
  destruct (store_add _ _ _) as [s'|] eqn:Hadd; [|by intros [= <- <-]].
  intros [= <- <-] Hk. apply store_add_inv in Hadd as (-> & _ & Hfresh & _).
  rewrite (stored_after_commit a d) by done. case_decide as Ht; [|done].
  subst table'. rewrite (stored_eq a d table s) in Hk by done.
  rewrite lookup_insert_ne; [done|]. intros Heq. by rewrite Heq, Hk in Hfresh.
Qed.

(** [update] writes under the id it was given, when that id is truthy. *)
Lemma update_stored_other e table' id data a r a' table k :
  update e table' id data a = (r, a') →
  table' ≠ table ∨ (truthy id = true ∧ id ≠ k) →
  stored a' table k = stored a table k.
Proof.
  rewrite update_unfold.
  destruct (db a) as [d|] eqn:Hd; [|by intros [= <- <-]].
  destruct (d !! table') as [s|] eqn:Hs; [|by intros [= <- <-]].
  destruct (valid_key id); [|by intros [= <- <-]].
  destruct (s !! id) as [existing|]; [|by intros [= <- <-]].
  simpl. destruct (store_put _ _ _) as [s'|] eqn:Hput; [|by intros [= <- <-]].
  intros [= <- <-] Hcond. apply store_put_inv in Hput as (-> & _).
  rewrite (stored_after_commit a d) by done. case_decide as Ht; [|done].
  subst table'. destruct Hcond as [?|[Htruthy Hne]]; [done|].
  rewrite (stored_eq a d table s) by done.
  rewrite addMetadata_id, getp_insert_eq, (truthy_or _ _ Htruthy).
  by rewrite lookup_insert_ne.
Qed.

(** [put] never removes a record. *)
Lemma update_present e table' id data a r a' table k :
  update e table' id data a = (r, a') →
  is_Some (stored a table k) → is_Some (stored a' table k).
Proof.
  rewrite update_unfold.
  destruct (db a) as [d|] eqn:Hd; [|by intros [= <- <-]].
  destruct (d !! table') as [s|] eqn:Hs; [|by intros [= <- <-]].
  destruct (valid_key id); [|by intros [= <- <-]].
  destruct (s !! id) as [existing|]; [|by intros [= <- <-]].
  simpl. destruct (store_put _ _ _) as [s'|] eqn:Hput; [|by intros [= <- <-]].
  intros [= <- <-] Hk. apply store_put_inv in Hput as (-> & _).
  rewrite (stored_after_commit a d) by done. case_decide as Ht; [|done].
  subst table'. rewrite (stored_eq a d table s) in Hk by done.
  apply lookup_insert_is_Some'. by right.
Qed.

Lemma delete_stored_other table' id a r a' table k :
  delete_ table' id a = (r, a') →
  table' ≠ table ∨ id ≠ k →
  stored a' table k = stored a table k.
Proof.
  rewrite delete_unfold.
  destruct (db a) as [d|] eqn:Hd; [|by intros [= <- <-]].
  destruct (d !! table') as [s|] eqn:Hs; [|by intros [= <- <-]].
  destruct (valid_key id); [|by intros [= <- <-]].
  intros [= <- <-] Hcond.
  rewrite (stored_after_commit a d) by done. case_decide as Ht; [|done].
  subst table'. destruct Hcond as [?|Hne]; [done|].
  rewrite (stored_eq a d table s) by done. by rewrite lookup_delete_ne.
Qed.

Lemma delete_gone table' id a r a' table k :
  delete_ table' id a = (r, a') →
  stored a table k = None → stored a' table k = None.
Proof.
  rewrite delete_unfold.
  destruct (db a) as [d|] eqn:Hd; [|by intros [= <- <-]].
  destruct (d !! table') as [s|] eqn:Hs; [|by intros [= <- <-]].
  destruct (valid_key id); [|by intros [= <- <-]].
  intros [= <- <-] Hk.
  rewrite (stored_after_commit a d) by done. case_decide as Ht; [|done].
  subst table'. rewrite (stored_eq a d table s) in Hk by done.
  apply lookup_delete_None. by right.
Qed.

Lemma delete_done table k a a' :
  delete_ table k a = (Ok tt, a') → stored a' table k = None.
Proof.
  rewrite delete_unfold.
  destruct (db a) as [d|] eqn:Hd; [|done].
  destruct (d !! table) as [s|] eqn:Hs; [|done].
  destruct (valid_key k); [|done].
  intros [= <-]. rewrite (stored_after_commit a d) by done.
  rewrite decide_True by done. apply lookup_delete_eq.
Qed.

(** A record that is not marked synced stays so under any write that goes
    through [addMetadata] and keeps the key. *)
Lemma unsynced_through table k a a' :
  writes_through a a' →
  (is_Some (stored a table k) → is_Some (stored a' table k)) →
  unsynced_at table k a → unsynced_at table k a'.
Proof.
  intros [_ Hw] Hpresent (r & Hr & Hstatus).
  destruct Hpresent as [r' Hr']; [by eexists|].
  exists r'. split; [done|].
  destruct (Hw _ _ _ Hr') as [Hold|(e & data & ->)].
  - rewrite Hr in Hold. by injection Hold as <-.
  - by rewrite addMetadata_sync_status.
Qed.

Lemma create_keeps_unsynced e table' data table k :
  preserves (keeps (unsynced_at table k)) (create e table' data).
Proof.
  intros a r a' Hrun Hu. eapply unsynced_through; [| |exact Hu].
  - by eapply create_writes_through.
  - intros [rec Hrec]. exists rec. by eapply create_stored.
Qed.

Lemma update_keeps_unsynced e table' id data table k :
  preserves (keeps (unsynced_at table k)) (update e table' id data).
Proof.
  intros a r a' Hrun Hu. eapply unsynced_through; [| |exact Hu].
  - by eapply update_writes_through.
  - by eapply update_present.
Qed.

Lemma delete_keeps_unsynced table' id table k :
  table' ≠ table ∨ id ≠ k →
  preserves (keeps (unsynced_at table k)) (delete_ table' id).
Proof.
  intros Hcond a r a' Hrun (rec & Hrec & Hstatus). exists rec. split; [|done].
  by rewrite (delete_stored_other _ _ _ _ _ _ _ Hrun Hcond).
Qed.
End OneKey.

(** ** The pull phase on one key *)

Lemma mapById_acc_lookup (rs : list record) (m : gmap value record) k :
  foldl (λ m r, <[getp r "id" := r]> m) m rs !! k
  = match mapById rs !! k with
    | Some r => Some r
    | None => m !! k
    end.
Proof.
  unfold mapById. revert m. induction rs as [|x rs IH] using rev_ind; intros m; simpl.
  - by rewrite lookup_empty.
  - rewrite !foldl_app. simpl.
    destruct (decide (getp x "id" = k)) as [<-|Hne].
    + by rewrite !lookup_insert_eq.
    + rewrite !lookup_insert_ne by done. apply IH.
Qed.

Lemma mapById_lookup_Some (rs : list record) k r :
  mapById rs !! k = Some r → r ∈ rs ∧ getp r "id" = k.
Proof.
  unfold mapById. induction rs as [|x rs IH] using rev_ind; simpl.
  - by rewrite lookup_empty.
  - rewrite foldl_app. simpl. intros Hk.
    apply lookup_insert_Some in Hk as [[<- <-]|[_ Hk]].
    + split; [|done]. apply elem_of_app. right. by left.
    + destruct (IH Hk) as [Hin Hid]. split; [|done]. apply elem_of_app. by left.
Qed.

Lemma mapById_lookup_None (rs : list record) k :
  (∀ r, r ∈ rs → getp r "id" ≠ k) → mapById rs !! k = None.
Proof.
  intros Hrs. destruct (mapById rs !! k) as [r|] eqn:Hk; [|done].
  apply mapById_lookup_Some in Hk as [Hin Hid]. by destruct (Hrs r Hin).
Qed.

Lemma forEach_ok_split {S A} (f : A → M S unit) l1 x l2 s s' :
  forEach f (l1 ++ x :: l2) s = (Ok tt, s') →
  ∃ s1 s2, forEach f l1 s = (Ok tt, s1) ∧ f x s1 = (Ok tt, s2) ∧
           forEach f l2 s2 = (Ok tt, s').
Proof.
  revert s. induction l1 as [|y l1 IH]; intros s; simpl.
  - unfold bind. destruct (f x s) as [[[]|e] s2] eqn:Hx; [|done].
    intros Hrest. exists s, s2. by rewrite Hx.
  - unfold bind. destruct (f y s) as [[[]|e] sy] eqn:Hy; [|done].
    intros Hrest. destruct (IH _ Hrest) as (s1 & s2 & H1 & Hx & H2).
    exists s1, s2. by rewrite H1.
Qed.

Lemma keeps_and {A} (I1 I2 : IndexedDBAdapter → Prop) (m : M IndexedDBAdapter A) :
  preserves (keeps I1) m → preserves (keeps I2) m →
  preserves (keeps (λ a, I1 a ∧ I2 a)) m.
Proof. intros H1 H2 a r a' Hrun [Ha1 Ha2]. split; [by eapply H1 | by eapply H2]. Qed.

Section PullRule.
Context `{JS : Runtime} {R : Type} `{RA : IStorageAdapter R}.
Variable env : nat → Env.

Lemma set_localAdapter_same (st : SyncManager R) : set_localAdapter (localAdapter st) st = st.
Proof. by destruct st. Qed.

Lemma on_local_reads P `{!PreOrder P} n (st : SyncManager R) : on_local P st (set_reads n st).
Proof. unfold on_local. simpl. reflexivity. Qed.

Lemma on_local_conflicts P `{!PreOrder P} c (st : SyncManager R) :
  on_local P st (set_conflicts c st).
Proof. unfold on_local. simpl. reflexivity. Qed.

(** The [try] block of one table, once both lists are there. *)
Lemma syncTable_try_lists table (st : SyncManager R) r0 remoteRecords r1 d s :
  remoteAdapter st = Some r0 →
  adapter_list table None r0 = (Ok remoteRecords, r1) →
  db (localAdapter st) = Some d → d !! table = Some s →
  syncTable_try env table st
  = (forEach (pull_record env table (mapById (getAll s))) remoteRecords ;;;
     forEach (prune_record table (mapById remoteRecords)) (getAll s))
      (set_remoteAdapter (Some r1) st).
Proof.
  intros Hr Hlist Hd Hs. unfold syncTable_try.
  unfold bind at 1. unfold onRemote at 1. rewrite Hr, Hlist.
  unfold bind at 1. unfold onLocal at 1. simpl.
  rewrite list_unfold, Hd, Hs. by destruct st.
Qed.

(** In any case the [try] block starts from the local adapter as it is. *)
Lemma syncTable_try_cases table (st : SyncManager R) :
  (∃ e st1, syncTable_try env table st = (Err e, st1) ∧
            localAdapter st1 = localAdapter st) ∨
  (∃ remoteRecords d s st1,
     db (localAdapter st) = Some d ∧ d !! table = Some s ∧
     localAdapter st1 = localAdapter st ∧
     syncTable_try env table st
     = (forEach (pull_record env table (mapById (getAll s))) remoteRecords ;;;
        forEach (prune_record table (mapById remoteRecords)) (getAll s)) st1).
Proof.
  destruct (remoteAdapter st) as [r0|] eqn:Hr.
  - destruct (adapter_list table None r0) as [[remoteRecords|e] r1] eqn:Hlist.
    + destruct (db (localAdapter st)) as [d|] eqn:Hd.
      * destruct (d !! table) as [s|] eqn:Hs.
        -- right. exists remoteRecords, d, s, (set_remoteAdapter (Some r1) st).
           split_and!; [done..|]. by eapply syncTable_try_lists.
        -- left. eexists _, (set_remoteAdapter (Some r1) st). split; [|done].
           unfold syncTable_try. unfold bind at 1. unfold onRemote at 1.
           rewrite Hr, Hlist. unfold bind at 1. unfold onLocal at 1. simpl.
           rewrite list_unfold, Hd, Hs. by destruct st.
      * left. eexists _, (set_remoteAdapter (Some r1) st). split; [|done].
        unfold syncTable_try. unfold bind at 1. unfold onRemote at 1.
        rewrite Hr, Hlist. unfold bind at 1. unfold onLocal at 1. simpl.
        rewrite list_unfold, Hd. by destruct st.
    + left. eexists _, (set_remoteAdapter (Some r1) st). split; [|done].
      unfold syncTable_try. unfold bind at 1. unfold onRemote at 1.
      by rewrite Hr, Hlist.
  - left. eexists _, st. split; [|done].
    unfold syncTable_try. unfold bind at 1. unfold onRemote at 1. by rewrite Hr.
Qed.

Lemma pull_record_keeps I table localMap remoteRecord :
  (∀ e t d, preserves (keeps I) (create e t d)) →
  (∀ e t id d, preserves (keeps I) (update e t id d)) →
  preserves (on_local (R := R) (keeps I)) (pull_record env table localMap remoteRecord).
Proof.
  intros Hcreate Hupdate.
  apply pull_record_preserves; try apply _.
  - intros. by apply onLocal_on_local.
  - intros. by apply onLocal_on_local.
  - intros. apply onRemote_on_local. apply _.
  - intros. apply on_local_reads. apply _.
  - intros. apply on_local_conflicts. apply _.
Qed.
End PullRule.

Section PullKey.
Context `{JS : Runtime} {R : Type} `{RA : IStorageAdapter R}.
Variable env : nat → Env.
Variable table : string.
Variable k : value.

Lemma syncTable_state table' (st : SyncManager R) :
  (syncTable env table' st).2 = (syncTable_try env table' st).2.
Proof.
  unfold syncTable, try_catch. by destruct (syncTable_try env table' st) as [[[]|e] st1].
Qed.

(** The deletion rule keeps an invariant of the key when it does not
    delete that key. *)
Lemma prune_record_keeps I table' remoteMap lr :
  (∀ id, table' ≠ table ∨ id ≠ k → preserves (keeps I) (delete_ table' id)) →
  table' ≠ table ∨ getp lr "id" ≠ k ∨ getp lr "_sync_status" ≠ VStr "synced" →
  preserves (on_local (R := R) (keeps I)) (prune_record table' remoteMap lr).
Proof.
  intros Hdelete Hcond st r st'. unfold prune_record.
  destruct (negb _ && bool_decide _) eqn:Hb.
  - apply andb_true_iff in Hb as [_ Hs%bool_decide_eq_true_1].
    apply onLocal_on_local, Hdelete. destruct Hcond as [?|[?|?]]; auto.
  - intros [= <- <-]. reflexivity.
Qed.

(** In the snapshot of a consistent store, the record whose [id] is [k] is
    the record under [k]. *)
Lemma snapshot_record (s : store) rec lr :
  in_line s → s !! k = Some rec → lr ∈ getAll s → getp lr "id" = k → lr = rec.
Proof.
  intros Hin Hk [k' Hk']%elem_of_getAll Hid.
  destruct (Hin _ _ Hk') as [Hid' _]. rewrite Hid in Hid'. subst k'.
  rewrite Hk in Hk'. by injection Hk'.
Qed.

Lemma loops_keep I table' localMap remoteMap remoteRecords localRecords :
  (∀ x, x ∈ remoteRecords →
        preserves (on_local (R := R) (keeps I)) (pull_record env table' localMap x)) →
  (∀ lr, lr ∈ localRecords →
         preserves (on_local (R := R) (keeps I)) (prune_record table' remoteMap lr)) →
  preserves (on_local (R := R) (keeps I))
    (forEach (pull_record env table' localMap) remoteRecords ;;;
     forEach (prune_record table' remoteMap) localRecords).
Proof.
  intros Hpull Hprune. apply preserves_bind; [apply _ | |].
  - apply preserves_forEach; [apply _ | done].
  - intros _. apply preserves_forEach; [apply _ | done].
Qed.

(** One table's turn keeps a record that is not marked synced, whatever the
    remote lists. *)
Lemma syncTable_keeps_unsynced table' :
  preserves (on_local (R := R) (keeps (λ a, idb_ok a ∧ unsynced_at table k a)))
    (syncTable env table').
Proof.
  intros st r st' Hrun.
  assert (st' = (syncTable_try env table' st).2) as ->.
  { rewrite <- syncTable_state. by rewrite Hrun. }
  clear Hrun. unfold on_local, keeps. intros [Hok Hun].
  destruct (syncTable_try_cases env table' st)
    as [(e & st1 & -> & Hlocal)|(remoteRecords & d & s & st1 & Hd & Hs & Hlocal & ->)].
  { simpl. by rewrite Hlocal. }
  pose proof (idb_ok_store _ _ _ _ Hok Hd Hs) as [Hin _].
  rewrite <- Hlocal in Hok, Hun.
  eapply (loops_keep (λ a, idb_ok a ∧ unsynced_at table k a));
    [| |apply surjective_pairing|split; [exact Hok|exact Hun]].
  - intros x _. apply pull_record_keeps.
    + intros. apply keeps_and; [apply create_keeps_idb_ok | apply create_keeps_unsynced].
    + intros. apply keeps_and; [apply update_keeps_idb_ok | apply update_keeps_unsynced].
  - intros lr Hlr. apply prune_record_keeps.
    + intros id Hid. apply keeps_and; [apply delete_keeps_idb_ok|].
      by apply delete_keeps_unsynced.
    + destruct (decide (table' = table)) as [->|]; [|by left]. right.
      destruct (decide (getp lr "id" = k)) as [Hid|]; [|by left]. right.
      destruct Hun as (rec & Hrec & Hstatus).
      rewrite Hlocal, (stored_eq _ d table s) in Hrec by done.
      by rewrite (snapshot_record s rec lr).
Qed.

(** The deletion rule in the turn of one table. Take a local record whose
    id the remote does not list. If the record is marked synced and the
    [try] block runs to its end, the record is gone from the local store
    afterwards. If it is not marked synced (a pending record, say), it is
    still there, unchanged, however the turn ends. And a record that is
    not marked synced is still in the store, not marked synced, after a
    whole pull pass, whatever the remote lists. *)
Lemma syncTable_deletion_rule (st : SyncManager R) rec :
  idb_ok (localAdapter st) →
  stored (localAdapter st) table k = Some rec →
  (∀ r0 remoteRecords r1,
     remoteAdapter st = Some r0 →
     adapter_list table None r0 = (Ok remoteRecords, r1) →
     (∀ rr, rr ∈ remoteRecords → getp rr "id" ≠ k) →
     (getp rec "_sync_status" = VStr "synced" →
      ∀ st', syncTable_try env table st = (Ok tt, st') →
             stored (localAdapter st') table k = None) ∧
     (getp rec "_sync_status" ≠ VStr "synced" → truthy_ids (localAdapter st) →
      stored (localAdapter (syncTable env table st).2) table k = Some rec)) ∧
  (getp rec "_sync_status" ≠ VStr "synced" →
   unsynced_at table k (localAdapter (syncFromRemote env st).2)).
Proof.
  intros Hok Hrec. split.
  - intros r0 remoteRecords r1 Hr Hlist Habsent.
    destruct (stored_inv _ _ _ _ Hrec) as (d & s & Hd & Hs & Hk).
    pose proof (idb_ok_store _ _ _ _ Hok Hd Hs) as [Hin _].
    pose proof (syncTable_try_lists env table st r0 remoteRecords r1 d s Hr Hlist Hd Hs)
      as Htry.
    split.
    + (* a synced record is deleted *)
      intros Hsynced st' Hrun. rewrite Htry in Hrun.
      apply bind_inv_ok in Hrun as ([] & st2 & _ & Hprune).
      assert (rec ∈ getAll s) as Hmem by (apply elem_of_getAll; eauto).
      apply list_elem_of_split in Hmem as (l1 & l2 & Hsplit).
      rewrite Hsplit in Hprune.
      apply forEach_ok_split in Hprune as (s1 & s2 & _ & Hdel & Hrest).
      assert (stored (localAdapter s2) table k = None) as Hgone.
      { unfold prune_record in Hdel.
        destruct (Hin _ _ Hk) as [Hid _]. rewrite Hid, Hsynced in Hdel.
        rewrite (mapById_lookup_None remoteRecords k Habsent) in Hdel.
        rewrite bool_decide_eq_false_2 in Hdel by (by intros [? ?]).
        rewrite bool_decide_eq_true_2 in Hdel by done. simpl in Hdel.
        unfold onLocal in Hdel.
        destruct (delete_ table k (localAdapter s1)) as [res a2] eqn:Hdelete.
        injection Hdel as -> <-. simpl. by eapply delete_done. }
      assert (preserves (on_local (R := R) (keeps (λ a, stored a table k = None)))
                (forEach (prune_record table (mapById remoteRecords)) l2)) as Hkeep.
      { apply preserves_forEach; [apply _|].
        intros lr _ s3 r3 s4. unfold prune_record.
        destruct (negb _ && bool_decide _); [|intros [= <- <-]; reflexivity].
        apply onLocal_on_local. intros a r a' Hdelete Hold. by eapply delete_gone. }
      exact (Hkeep _ _ _ Hrest Hgone).
    + (* any other record stays as it is *)
      intros Hstatus Htruthy. rewrite syncTable_state, Htry.
      eapply (loops_keep (λ a, stored a table k = Some rec));
        [| |apply surjective_pairing|exact Hrec].
      * intros x Hx. unfold pull_record.
        destruct (mapById (getAll s) !! getp x "id") as [lr|] eqn:Hlocal.
        -- apply preserves_bind; [apply _ | |].
           { apply resolveConflict_preserves; [apply _ | |].
             - intros. apply on_local_reads. apply _.
             - intros. apply on_local_conflicts. apply _. }
           intros [| |].
           ++ apply preserves_bind; [apply _ | | intros; apply preserves_ret; apply _].
              apply onRemote_on_local. apply _.
           ++ apply preserves_bind; [apply _ | | intros; apply preserves_ret; apply _].
              apply preserves_bind; [apply _ | |].
              { apply readEnv_preserves. intros. apply on_local_reads. apply _. }
              intros e. apply onLocal_on_local. intros a r a' Hupd Hold.
              rewrite (update_stored_other _ _ _ _ _ _ _ table k Hupd); [done|].
              right. split; [|by apply Habsent].
              apply mapById_lookup_Some in Hlocal as [[k' Hk']%elem_of_getAll <-].
              apply (Htruthy table k' lr). by rewrite (stored_eq _ d table s).
           ++ apply preserves_ret; apply _.
        -- apply preserves_bind; [apply _ | | intros; apply preserves_ret; apply _].
           apply preserves_bind; [apply _ | |].
           { apply readEnv_preserves. intros. apply on_local_reads. apply _. }
           intros e. apply onLocal_on_local. intros a r a' Hcreate Hold.
           by eapply create_stored.
      * intros lr Hlr. apply prune_record_keeps.
        -- intros id Hid a r a' Hdelete Hold.
           by rewrite (delete_stored_other _ _ _ _ _ _ _ Hdelete Hid).
        -- right. destruct (decide (getp lr "id" = k)) as [Hid|]; [|by left]. right.
           by rewrite (snapshot_record s rec lr).
  - (* the whole pass *)
    intros Hstatus.
    assert (idb_ok (localAdapter st) ∧ unsynced_at table k (localAdapter st)) as Hstart.
    { split; [done|]. by exists rec. }
    unfold syncFromRemote. destruct (remoteAdapter st); [|by destruct Hstart].
    assert (preserves (on_local (R := R) (keeps (λ a, idb_ok a ∧ unsynced_at table k a)))
              (forEach (syncTable env) TABLES)) as Hkeep.
    { apply preserves_forEach; [apply _|]. intros t _. apply syncTable_keeps_unsynced. }
    exact (proj2 (Hkeep _ _ _ (surjective_pairing _) Hstart)).
Qed.
End PullKey.

(** ** Export, then import *)

Lemma ids_of_entries (l : list (value * record)) :
  Forall (λ kr, getp kr.2 "id" = kr.1) l → (λ r, getp r "id") <$> l.*2 = l.*1.
Proof.
  induction 1 as [|[k r] l Hk _ IH]; [done|].
  rewrite !fmap_cons. simpl in *. by rewrite Hk, IH.
Qed.

Lemma getAll_ids (s : store) :
  in_line s → (λ r, getp r "id") <$> getAll s = (merge_sort entry_le (map_to_list s)).*1.
Proof.
  intros Hin. unfold getAll. apply ids_of_entries.
  rewrite merge_sort_Permutation. apply Forall_forall.
  intros [k r] Hkr%elem_of_map_to_list. by destruct (Hin _ _ Hkr).
Qed.

Lemma getAll_ids_NoDup (s : store) :
  in_line s → NoDup ((λ r, getp r "id") <$> getAll s).
Proof.
  intros Hin. rewrite (getAll_ids s Hin). rewrite merge_sort_Permutation.
  apply NoDup_fst_map_to_list.
Qed.

Lemma getAll_lookup_id (s : store) item :
  in_line s → item ∈ getAll s → s !! getp item "id" = Some item.
Proof.
  intros Hin [k Hk]%elem_of_getAll. destruct (Hin _ _ Hk) as [Hid _]. by rewrite Hid.
Qed.

Lemma uniqueIndexes_number table ix : ix ∈ uniqueIndexes table → ix = "number".
Proof.
  unfold uniqueIndexes. destruct (String.eqb table "projects").
  - by intros ->%list_elem_of_singleton.
  - by intros ?%elem_of_nil.
Qed.

(** Adding records with fresh, distinct, valid ids that respect the unique
    indexes succeeds, and the store then holds exactly what it held and
    these records. *)
Lemma add_all_fresh table (records : list record) : ∀ acc : store,
  Forall (λ r, valid_key (getp r "id") = true) records →
  NoDup ((λ r, getp r "id") <$> records) →
  (∀ r, r ∈ records → acc !! getp r "id" = None) →
  (∀ r ix, r ∈ records → ix ∈ uniqueIndexes table → valid_key (getp r ix) = true →
     (∀ k' r', acc !! k' = Some r' → getp r' ix = getp r ix → k' = getp r "id") ∧
     (∀ r2, r2 ∈ records → getp r2 ix = getp r ix → getp r2 "id" = getp r "id")) →
  ∃ s', add_all table acc records = Ok s' ∧
        ∀ k r, s' !! k = Some r ↔ acc !! k = Some r ∨ (r ∈ records ∧ getp r "id" = k).
Proof.
  induction records as [|x rest IH]; intros acc Hvalid Hnd Hfresh Huniq; simpl.
  - exists acc. split; [done|]. intros k r. split; [by left|].
    intros [?|[?%elem_of_nil _]]; done.
  - apply Forall_cons in Hvalid as [Hx Hvalid].
    rewrite fmap_cons in Hnd. apply NoDup_cons in Hnd as [Hxfresh Hnd].
    rewrite Hx.
    assert (store_add table acc x = Ok (<[getp x "id" := x]> acc)) as ->.
    { unfold store_add. rewrite Hx. simpl.
      rewrite bool_decide_eq_false_2.
      2: { rewrite (Hfresh x) by (by left). by intros [? ?]. }
      rewrite bool_decide_eq_false_2; [done|].
      intros (ix & Hix & Hv & k' & r' & Hk' & Hne & Heq).
      apply Hne. eapply (Huniq x ix); [by left | done | done | done | done]. }
    destruct (IH (<[getp x "id" := x]> acc)) as (s' & -> & Hs'); [done | done | | |].
    + intros r Hr. rewrite lookup_insert_ne; [apply Hfresh; by right|].
      intros Heq. apply Hxfresh. apply list_elem_of_fmap. by exists r.
    + intros r ix Hr Hix Hv.
      destruct (Huniq r ix) as [Hacc Hrecs]; [by right | done | done |]. split.
      * intros k' r' Hk' Heq.
        apply lookup_insert_Some in Hk' as [[<- <-]|[_ Hk']].
        -- apply Hrecs; [by left | done].
        -- by eapply Hacc.
      * intros r2 Hr2. apply Hrecs. by right.
    + exists s'. split; [done|]. intros k r. rewrite Hs'.
      rewrite lookup_insert_Some, elem_of_cons. split.
      * intros [[[<- <-]|[_ ?]]|[? ?]]; [right | by left | right]; auto.
      * intros [Hacc|[[->|Hr] Hid]].
        -- left. right. split; [|done]. intros <-.
           rewrite (Hfresh x) in Hacc by (by left). done.
        -- left. left. done.
        -- right. done.
Qed.

Section RoundTrip.
Context `{JS : Runtime}.

Lemma addMetadata_keeps_id device e item :
  truthy (getp item "id") = true → getp (addMetadata device e item) "id" = getp item "id".
Proof. intros Ht. by rewrite addMetadata_id, truthy_or. Qed.

Lemma find_invalid_none (records : list record) :
  Forall (λ r, valid_key (getp r "id") = true) records →
  List.find (λ r, negb (valid_key (getp r "id"))) records = None.
Proof.
  induction 1 as [|r rest Hr _ IH]; simpl; [done|]. by rewrite Hr.
Qed.

Lemma imap_ids device (es : nat → Env) (items : list record) :
  Forall (λ item, truthy (getp item "id") = true) items →
  (λ r, getp r "id") <$> imap (λ i item, addMetadata device (es i) item) items
  = (λ r, getp r "id") <$> items.
Proof.
  intros Hitems. revert es.
  induction Hitems as [|item rest Hitem _ IH]; intros es; [done|].
  rewrite imap_cons, !fmap_cons, (addMetadata_keeps_id _ _ _ Hitem).
  f_equal. apply (IH (es ∘ S)).
Qed.

(** [bulkCreate] of the snapshot of a store into the emptied store. *)
Lemma add_all_snapshot device es table (s : store) :
  store_ok table s →
  (∀ k r, s !! k = Some r → truthy (getp r "id") = true) →
  ∃ s', add_all table ∅ (imap (λ i item, addMetadata device (es i) item) (getAll s))
        = Ok s' ∧
        Forall (λ r, valid_key (getp r "id") = true)
               (imap (λ i item, addMetadata device (es i) item) (getAll s)) ∧
        store_ok table s' ∧
        restamped device es s s'.
Proof.
  intros [Hin Huniq] Htruthy.
  assert (Forall (λ item, truthy (getp item "id") = true) (getAll s)) as Hitems.
  { apply Forall_forall. intros item [k Hk]%elem_of_getAll. by eapply Htruthy. }
  assert (∀ r', r' ∈ imap (λ i item, addMetadata device (es i) item) (getAll s) →
                ∃ i item, getAll s !! i = Some item ∧
                          r' = addMetadata device (es i) item ∧
                          getp r' "id" = getp item "id" ∧
                          s !! getp item "id" = Some item) as Hrecords.
  { intros r' (i & item & Hi & ->)%elem_of_imap_addMetadata.
    assert (item ∈ getAll s) as Hitem by (by eapply list_elem_of_lookup_2).
    exists i, item. split_and!; [done | done | | by apply getAll_lookup_id].
    apply addMetadata_keeps_id.
    destruct (proj1 (elem_of_getAll s item) Hitem) as [k Hk]. by eapply Htruthy. }
  assert (Forall (λ r, valid_key (getp r "id") = true)
                 (imap (λ i item, addMetadata device (es i) item) (getAll s))) as Hvalid.
  { apply Forall_forall. intros r' (i & item & _ & _ & -> & Hk)%Hrecords.
    by destruct (Hin _ _ Hk). }
  destruct (add_all_fresh table
              (imap (λ i item, addMetadata device (es i) item) (getAll s)) ∅)
    as (s' & Hadd & Hs').
  - exact Hvalid.
  - rewrite imap_ids by done. by apply getAll_ids_NoDup.
  - intros r _. apply lookup_empty.
  - intros r' ix (i & item & _ & -> & Hid & Hk)%Hrecords Hix Hv. split.
    + intros k' r0 Hempty. by rewrite lookup_empty in Hempty.
    + intros r2 (i2 & item2 & _ & -> & Hid2 & Hk2)%Hrecords Heq.
      rewrite Hid, Hid2.
      apply uniqueIndexes_number in Hix as Hnum. subst ix.
      assert (∀ e x, getp (addMetadata device e x) "number" = getp x "number") as Hother.
      { intros e x. unfold getp. rewrite addMetadata_other; [done|].
        by apply (bool_decide_unpack _). }
      rewrite !Hother in Heq. rewrite Hother in Hv.
      eapply (Huniq "number" _ item2 _ item); [done | done | done | | done].
      by rewrite Heq.
  - exists s'. split; [done|]. split; [done|].
    split; [eapply add_all_ok; [apply store_ok_empty | exact Hadd]|].
    intros k r'. rewrite Hs', lookup_empty. split.
    + intros [?|[Hr' Hid]]; [done|].
      apply Hrecords in Hr' as (i & item & Hi & -> & Hid' & _).
      exists i, item. split_and!; [done | congruence | done].
    + intros (i & item & Hi & Hid & ->). right.
      assert (item ∈ getAll s) as Hitem by (by eapply list_elem_of_lookup_2).
      split.
      * apply list_elem_of_lookup. exists i. by rewrite list_lookup_imap, Hi.
      * rewrite addMetadata_keeps_id; [done|].
        destruct (proj1 (elem_of_getAll s item) Hitem) as [k' Hk']. by eapply Htruthy.
Qed.

(** One entry of the document: the table is emptied and refilled. *)
Lemma import_entry es table (a : IndexedDBAdapter) d s :
  db a = Some d → d !! table = Some s → store_ok table s →
  (∀ k r, s !! k = Some r → truthy (getp r "id") = true) →
  ∃ s', (clear table ;;;
         if 0 <? Z.of_nat (length (getAll s))
         then bulkCreate es table (getAll s) ;;; ret tt
         else ret tt) a
        = (Ok tt, mkIDB (Some (<[table := s']> d)) (deviceId a)) ∧
        store_ok table s' ∧
        restamped (deviceId a) es s s'.
Proof.
  intros Hd Hs Hok Htruthy.
  destruct (add_all_snapshot (deviceId a) es table s Hok Htruthy)
    as (s' & Hadd & Hvalid & Hok' & Hre).
  unfold bind at 1. rewrite clear_unfold, Hd, Hs.
  destruct (getAll s) as [|item items] eqn:Hall.
  - simpl in Hadd. injection Hadd as <-. by exists ∅.
  - exists s'. split; [|done].
    assert ((0 <? Z.of_nat (length (item :: items))) = true) as ->
      by (apply Z.ltb_lt; simpl; lia).
    unfold bind. rewrite bulkCreate_unfold. simpl db. cbv beta iota.
    rewrite lookup_insert_eq. simpl deviceId. cbv zeta.
    rewrite (find_invalid_none _ Hvalid), Hadd. unfold ret.
    by rewrite insert_insert_eq.
Qed.

Lemma document_ext d d' tables :
  (∀ t, t ∈ tables → d' !! t = d !! t) → document d' tables = document d tables.
Proof.
  intros Hsame. unfold document. apply list_fmap_ext.
  intros i t Ht. rewrite Hsame; [done|]. by eapply list_elem_of_lookup_2.
Qed.

(** The import of the document of some tables: each of them is emptied and
    refilled with its own records, restamped; the other tables stay. *)
Lemma import_document tables : ∀ ess (a : IndexedDBAdapter) d,
  db a = Some d → idb_ok a → truthy_ids a →
  NoDup tables → (∀ t, t ∈ tables → t ∈ TABLES) →
  ∃ d', import_ ess (document d tables) a = (Ok tt, mkIDB (Some d') (deviceId a)) ∧
        (∀ t, t ∉ tables → d' !! t = d !! t) ∧
        (∀ i t, tables !! i = Some t →
           ∃ s s', d !! t = Some s ∧ d' !! t = Some s' ∧
                   restamped (deviceId a) (ess i) s s').
Proof.
  induction tables as [|t rest IH]; intros ess a d Hd Hok Htruthy Hnd Hfixed.
  - exists d. split_and!; [|done|by intros i t ?].
    simpl. unfold ret. destruct a; simpl in *; by subst.
  - apply NoDup_cons in Hnd as [Hfresh Hnd].
    assert (is_Some (d !! t)) as [s Hs].
    { destruct Hok as (d0 & Hd0 & Htables & _). rewrite Hd in Hd0. injection Hd0 as <-.
      apply Htables, Hfixed. by left. }
    destruct (import_entry (ess O) t a d s Hd Hs) as (s' & Hentry & Hok' & Hre).
    { by eapply idb_ok_store. }
    { intros k r Hk. apply (Htruthy t k r). by rewrite (stored_eq a d t s). }
    destruct (IH (λ i, ess (S i)) (mkIDB (Some (<[t := s']> d)) (deviceId a))
                (<[t := s']> d)) as (d' & Himport & Hother & Hrest).
    + done.
    + by eapply idb_ok_commit.
    + intros t0 k r. rewrite (stored_after_commit a d) by done.
      case_decide; [|by apply Htruthy].
      intros (i & item & _ & _ & ->)%Hre. apply addMetadata_id_truthy.
    + done.
    + intros t0 Ht0. apply Hfixed. by right.
    + rewrite (document_ext d) in Himport.
      2: { intros t0 Ht0. apply lookup_insert_ne. by intros <-. }
      exists d'. split_and!.
      * unfold document. rewrite fmap_cons. simpl. rewrite Hs. simpl.
        rewrite bool_decide_eq_true_2 by (apply Hfixed; by left).
        unfold bind at 1. rewrite Hentry. exact Himport.
      * intros t0 Ht0. apply not_elem_of_cons in Ht0 as [Hne Ht0].
        rewrite (Hother t0 Ht0). by apply lookup_insert_ne.
      * intros [|i] t0 Hi; simpl in Hi.
        -- injection Hi as <-. exists s, s'. split_and!; [done | | done].
           rewrite (Hother t Hfresh). apply lookup_insert_eq.
        -- destruct (Hrest i t0 Hi) as (s0 & s0' & Hs0 & Hs0' & Hre0).
           exists s0, s0'. split_and!; [|done..].
           rewrite lookup_insert_ne in Hs0; [done|].
           intros <-. apply Hfresh. by eapply list_elem_of_lookup_2.
Qed.

Lemma export_loop_run (a : IndexedDBAdapter) d tables : ∀ acc,
  db a = Some d → (∀ t, t ∈ tables → is_Some (d !! t)) →
  export_loop tables acc a
  = (Ok (foldl (λ o t, obj_set t (getAll (default ∅ (d !! t))) o) acc tables), a).
Proof.
  induction tables as [|t rest IH]; intros acc Hd Hall; simpl; [done|].
  destruct (Hall t) as [s Hs]; [by left|].
  unfold bind. rewrite list_unfold, Hd, Hs. rewrite IH; [done | done |].
  intros t0 Ht0. apply Hall. by right.
Qed.

Lemma lookup_of_getp (r : record) f v : getp r f = v → v ≠ VUndef → r !! f = Some v.
Proof. unfold getp. destruct (r !! f); simpl; congruence. Qed.

Lemma lookup_of_truthy (r : record) f : truthy (getp r f) = true → r !! f = Some (getp r f).
Proof. intros Ht. apply lookup_of_getp; [done|]. by intros Hu; rewrite Hu in Ht. Qed.

(** What [addMetadata] leaves of a record that it stamped before. *)
Lemma restamp_fields device e (r : record) f :
  stamped device r → f ≠ "updated_at" → f ≠ "_version" →
  addMetadata device e r !! f = r !! f.
Proof.
  intros (Hid & Hcreated & Hdevice & Hstatus) Hu Hv.
  destruct (decide (f ∈ [ "id"; "created_at"; "updated_at"; "_version";
                          "_device_id"; "_sync_status" ])) as [Hf|Hf];
    [|by apply addMetadata_other].
  unfold addMetadata.
  repeat (apply elem_of_cons in Hf as [->|Hf]); try done.
  - rewrite !lookup_insert_ne by done. rewrite lookup_insert_eq.
    by rewrite truthy_or, (lookup_of_truthy r "id").
  - rewrite !lookup_insert_ne by done. rewrite lookup_insert_eq.
    by rewrite truthy_or, (lookup_of_truthy r "created_at").
  - rewrite !lookup_insert_ne by done. rewrite lookup_insert_eq.
    by rewrite (lookup_of_getp r "_device_id" _ Hdevice).
  - rewrite lookup_insert_eq. by rewrite (lookup_of_getp r "_sync_status" _ Hstatus).
  - by apply elem_of_nil in Hf.
Qed.

(** C8. On a local store that the adapter wrote, the export of the fixed
    table set succeeds, the import of the exported document succeeds, and
    afterwards every fixed table holds records under the same ids as
    before; each record has every field it had, with the same value, but
    for [updated_at], which is the instant of the import, and [_version],
    which went through the increment; no field was added. *)
Theorem export_import_round_trip ess (a : IndexedDBAdapter) :
  idb_ok a → all_stamped a →
  ∃ doc a',
    export_ None a = (Ok doc, a) ∧
    import_ ess doc a = (Ok tt, a') ∧
    ∀ table, table ∈ TABLES →
      (∀ k, is_Some (stored a' table k) ↔ is_Some (stored a table k)) ∧
      (∀ k r r', stored a table k = Some r → stored a' table k = Some r' →
         (∀ f, f ≠ "updated_at" → f ≠ "_version" → r' !! f = r !! f) ∧
         getp r' "_version" = or0_plus1 (getp r "_version") ∧
         ∃ e, getp r' "updated_at" = VStr (toISOString (clock e))).
Proof.
  intros Hok Hstamped.
  destruct Hok as (d & Hd & Htables & Hstores).
  assert (idb_ok a) as Hok by (by exists d).
  assert (truthy_ids a) as Htruthy.
  { intros t k r Hr. by destruct (Hstamped t k r Hr). }
  assert (NoDup TABLES) as Hnd by (by apply (bool_decide_unpack _)).
  destruct (import_document TABLES ess a d Hd Hok Htruthy Hnd) as (d' & Himport & _ & Hre);
    [done|].
  exists (document d TABLES), (mkIDB (Some d') (deviceId a)).
  split_and!; [|done|].
  - unfold export_. change (default TABLES None) with TABLES.
    rewrite (export_loop_run a d TABLES []); [done | done |].
    intros t Ht. by apply Htables.
  - intros table [i Hi]%list_elem_of_lookup.
    destruct (Hre i table Hi) as (s & s' & Hs & Hs' & Hrestamped).
    destruct (Hstores _ _ Hs) as [Hin _].
    assert (∀ k r', s' !! k = Some r' →
                    ∃ e r, s !! k = Some r ∧ r' = addMetadata (deviceId a) e r) as Hback.
    { intros k r' (j & item & Hj & Hid & ->)%Hrestamped.
      exists (ess i j), item. split; [|done].
      rewrite <- Hid. apply getAll_lookup_id; [done|]. by eapply list_elem_of_lookup_2. }
    assert (∀ k, stored (mkIDB (Some d') (deviceId a)) table k = s' !! k) as Hstored'.
    { intros k. by apply (stored_eq _ d' table s'). }
    split.
    + intros k. rewrite Hstored', (stored_eq a d table s) by done. split.
      * intros [r' (e & r & Hr & _)%Hback]. by exists r.
      * intros [r Hr].
        assert (r ∈ getAll s) as [j Hj]%list_elem_of_lookup
          by (apply elem_of_getAll; eauto).
        exists (addMetadata (deviceId a) (ess i j) r). apply Hrestamped.
        exists j, r. split_and!; [done | | done]. by destruct (Hin _ _ Hr).
    + intros k r r'. rewrite Hstored', (stored_eq a d table s) by done.
      intros Hr (e & r0 & Hr0 & ->)%Hback.
      rewrite Hr in Hr0. injection Hr0 as <-.
      split_and!.
      * intros f. apply restamp_fields. apply (Hstamped table k).
        by rewrite (stored_eq a d table s).
      * apply addMetadata_version.
      * exists e. apply addMetadata_updated_at.
Qed.
End RoundTrip.

(** Every adapter that can arise satisfies the premises of the round trip. *)
Lemma export_import_round_trip_witness :
  ∃ doc a',
    export_ (JS := sample_runtime) None sample_local = (Ok doc, sample_local) ∧
    import_ (JS := sample_runtime) (λ _, sample_env) doc sample_local = (Ok tt, a') ∧
    (is_Some (stored a' "clients" (VStr "a")) ↔
     is_Some (stored sample_local "clients" (VStr "a"))).
Proof.
  destruct (export_import_round_trip (JS := sample_runtime) (λ _, sample_env) sample_local)
    as (doc & a' & Hexport & Himport & Hsame).
  - apply (bool_decide_unpack _). vm_compute. exact I.
  - apply (bool_decide_unpack _). vm_compute. exact I.
  - exists doc, a'. split_and!; [done | done |].
    apply (Hsame "clients"). by apply (bool_decide_unpack _).
Defined.

(** * The rest of the code

    Properties read off the parts of the source that the specification
    says little about. *)

(** ** The adapter without a database, or without the table *)

Section AdapterErrors.
Context `{JS : Runtime}.

Lemma exists_unfold table id a :
  exists_ table id a =
  match get table id a with
  | (Ok record, a') => (Ok (bool_decide (is_Some record)), a')
  | (Err e, a') => (Err e, a')
  end.
Proof. unfold exists_. unfold_monad. by destruct (get table id a) as [[?|?] ?]. Qed.

Lemma count_unfold table options a :
  count table options a =
  match query table (default noOptions options) a with
  | (Ok results, a') => (Ok (Z.of_nat (length results)), a')
  | (Err e, a') => (Err e, a')
  end.
Proof. unfold count. unfold_monad. by destruct (query _ _ a) as [[?|?] ?]. Qed.

Lemma bulkDelete_unfold table ids a :
  bulkDelete table ids a =
  match db a with
  | None => (Err (Error "Database not initialized. Call initialize() first."), a)
  | Some d =>
      match d !! table with
      | None => (Err (DOMException "NotFoundError"), a)
      | Some s =>
          let s' := foldl (λ s id, if valid_key id then delete id s else s) s ids in
          (if forallb valid_key ids then Ok tt else Err (DOMException "DataError"),
           mkIDB (Some (<[table := s']> d)) (deviceId a))
      end
  end.
Proof.
  unfold bulkDelete, ensureDb, commit, objectStore. unfold_monad.
  destruct (db a) as [d|] eqn:Hd; [|done].
  destruct (d !! table); [|done].
  rewrite Hd. simpl. by destruct (forallb valid_key ids).
Qed.

Lemma bulkUpdate_loop_cons es table id data rest results a :
  bulkUpdate_loop es table ((id, data) :: rest) results a =
  match update (es O) table id data a with
  | (Ok result, a') => bulkUpdate_loop (λ i, es (S i)) table rest (results ++ [result]) a'
  | (Err e, a') => (Err e, a')
  end.
Proof. simpl. unfold bind. by destruct (update _ _ _ _ a) as [[?|?] ?]. Qed.

Lemma export_loop_cons table rest acc a :
  export_loop (table :: rest) acc a =
  match list_ table None a with
  | (Ok records, a') => export_loop rest (obj_set table records acc) a'
  | (Err e, a') => (Err e, a')
  end.
Proof. simpl. unfold bind. by destruct (list_ _ _ a) as [[?|?] ?]. Qed.

Lemma import_cons ess table records rest a :
  table ∈ TABLES →
  import_ ess ((table, records) :: rest) a =
  match clear table a with
  | (Ok _, a1) =>
      if 0 <? Z.of_nat (length records) then
        match bulkCreate (ess O) table records a1 with
        | (Ok _, a2) => import_ (λ i, ess (S i)) rest a2
        | (Err e, a2) => (Err e, a2)
        end
      else import_ (λ i, ess (S i)) rest a1
  | (Err e, a1) => (Err e, a1)
  end.
Proof.
  intros Ht. simpl. rewrite bool_decide_eq_true_2 by done.
  unfold bind, ret. destruct (clear table a) as [[[]|e] a1]; [|done].
  destruct (0 <? _); [|done].
  by destruct (bulkCreate _ _ _ a1) as [[?|?] ?].
Qed.

(** X1. Before [initialize] has run, every operation of the local adapter
    that reaches the database rejects with the error of [ensureDb],
    ['Database not initialized. Call initialize() first.'], and leaves the
    adapter as it was: the reads, the single writes, the bulk operations
    on a non-empty list, [export] of a non-empty table list and [import]
    of a document that starts with a fixed table. *)
Theorem uninitialised_adapter_rejects (a : IndexedDBAdapter) :
  db a = None →
  let e := Error "Database not initialized. Call initialize() first." in
  (∀ table id, rejects_with e (get table id) a) ∧
  (∀ table id, rejects_with e (exists_ table id) a) ∧
  (∀ table options, rejects_with e (list_ table options) a) ∧
  (∀ table options, rejects_with e (query table options) a) ∧
  (∀ table options, rejects_with e (count table options) a) ∧
  (∀ en table data, rejects_with e (create en table data) a) ∧
  (∀ en table id data, rejects_with e (update en table id data) a) ∧
  (∀ table id, rejects_with e (delete_ table id) a) ∧
  (∀ table, rejects_with e (clear table) a) ∧
  (∀ es table data, rejects_with e (bulkCreate es table data) a) ∧
  (∀ es table u us, rejects_with e (bulkUpdate es table (u :: us)) a) ∧
  (∀ table ids, rejects_with e (bulkDelete table ids) a) ∧
  (∀ table tables, rejects_with e (export_ (Some (table :: tables))) a) ∧
  rejects_with e (export_ None) a ∧
  (∀ ess table records rest,
     table ∈ TABLES → rejects_with e (import_ ess ((table, records) :: rest)) a).
Proof.
  intros Hd e. unfold rejects_with.
  assert (∀ table options, query table options a = (Err e, a)) as Hquery.
  { intros. by rewrite query_unfold, Hd. }
  split_and!.
  - intros. by rewrite get_unfold, Hd.
  - intros. by rewrite exists_unfold, get_unfold, Hd.
  - intros. apply Hquery.
  - exact Hquery.
  - intros. by rewrite count_unfold, Hquery.
  - intros. by rewrite create_unfold, Hd.
  - intros. by rewrite update_unfold, Hd.
  - intros. by rewrite delete_unfold, Hd.
  - intros. by rewrite clear_unfold, Hd.
  - intros. by rewrite bulkCreate_unfold, Hd.
  - intros es table [id data] us. unfold bulkUpdate.
    by rewrite bulkUpdate_loop_cons, update_unfold, Hd.
  - intros. by rewrite bulkDelete_unfold, Hd.
  - intros. unfold export_. simpl default. by rewrite export_loop_cons, list_unfold, Hd.
  - unfold export_, TABLES. simpl default. by rewrite export_loop_cons, list_unfold, Hd.
  - intros ess table records rest Ht. by rewrite import_cons, clear_unfold, Hd.
Qed.

(** X2. On an initialised adapter, every operation addressed to a table
    that is not an object store of the database rejects with IndexedDB's
    [NotFoundError], raised when the transaction is opened, and writes
    nothing. *)
Theorem unknown_table_rejects (a : IndexedDBAdapter) d table :
  db a = Some d → d !! table = None →
  let e := DOMException "NotFoundError" in
  (∀ id, rejects_with e (get table id) a) ∧
  (∀ id, rejects_with e (exists_ table id) a) ∧
  (∀ options, rejects_with e (list_ table options) a) ∧
  (∀ options, rejects_with e (query table options) a) ∧
  (∀ options, rejects_with e (count table options) a) ∧
  (∀ en data, rejects_with e (create en table data) a) ∧
  (∀ en id data, rejects_with e (update en table id data) a) ∧
  (∀ id, rejects_with e (delete_ table id) a) ∧
  rejects_with e (clear table) a ∧
  (∀ es data, rejects_with e (bulkCreate es table data) a) ∧
  (∀ es u us, rejects_with e (bulkUpdate es table (u :: us)) a) ∧
  (∀ ids, rejects_with e (bulkDelete table ids) a) ∧
  (∀ tables, rejects_with e (export_ (Some (table :: tables))) a).
Proof.
  intros Hd Ht e. unfold rejects_with.
  assert (∀ options, query table options a = (Err e, a)) as Hquery.
  { intros. rewrite query_unfold, Hd. unfold objectStore. by rewrite Ht. }
  split_and!.
  - intros. by rewrite get_unfold, Hd, Ht.
  - intros. by rewrite exists_unfold, get_unfold, Hd, Ht.
  - intros. apply Hquery.
  - exact Hquery.
  - intros. by rewrite count_unfold, Hquery.
  - intros. by rewrite create_unfold, Hd, Ht.
  - intros. by rewrite update_unfold, Hd, Ht.
  - intros. by rewrite delete_unfold, Hd, Ht.
  - by rewrite clear_unfold, Hd, Ht.
  - intros. by rewrite bulkCreate_unfold, Hd, Ht.
  - intros es [id data] us. unfold bulkUpdate.
    by rewrite bulkUpdate_loop_cons, update_unfold, Hd, Ht.
  - intros. by rewrite bulkDelete_unfold, Hd, Ht.
  - intros. unfold export_. simpl default. by rewrite export_loop_cons, list_unfold, Hd, Ht.
Qed.
End AdapterErrors.

Lemma uninitialised_adapter_rejects_witness :
  rejects_with (Error "Database not initialized. Call initialize() first.")
    (create (JS := sample_runtime) (sample_env 0) "clients" (sample_client "Ana"))
    sample_closed.
Proof.
  destruct (uninitialised_adapter_rejects (JS := sample_runtime) sample_closed eq_refl)
    as (_ & _ & _ & _ & _ & Hcreate & _).
  apply Hcreate.
Defined.

Lemma unknown_table_rejects_witness :
  rejects_with (DOMException "NotFoundError")
    (query (JS := sample_runtime) "invoices" noOptions) sample_local.
Proof.
  destruct (unknown_table_rejects (JS := sample_runtime) sample_local sample_database
              "invoices" eq_refl) as (_ & _ & _ & Hquery & _).
  - vm_compute. reflexivity.
  - apply Hquery.
Defined.

(** ** Single records: create, update, delete and the reads *)

Lemma getAll_length (s : store) : length (getAll s) = size s.
Proof.
  unfold getAll. rewrite length_fmap.
  rewrite (Permutation_length (merge_sort_Permutation entry_le (map_to_list s))).
  by rewrite length_map_to_list.
Qed.

Section SingleRecord.
Context `{JS : Runtime}.

Lemma count_all table a d s :
  db a = Some d → d !! table = Some s →
  count table None a = (Ok (Z.of_nat (size s)), a).
Proof.
  intros Hd Hs. rewrite count_unfold. simpl default.
  pose proof (list_unfold table a) as Hl. unfold list_ in Hl. simpl default in Hl.
  rewrite Hl, Hd, Hs. by rewrite getAll_length.
Qed.

(** X3. A [create] that resolves stores the record it returns under the
    record's [id]: [get] gives it back, [exists] answers [true], and the
    count of the table grows by one. A truthy [id] of the caller is kept,
    every property that is not metadata is kept, and no record that was
    there before is changed. [create] never overwrites: when the [id] it
    would use is taken it rejects with [ConstraintError] and changes
    nothing. *)
Theorem create_then_get e table data a :
  (∀ r a',
     create e table data a = (Ok r, a') →
     get table (getp r "id") a' = (Ok (Some r), a') ∧
     exists_ table (getp r "id") a' = (Ok true, a') ∧
     (truthy (getp data "id") = true → getp r "id" = getp data "id") ∧
     (∀ f, f ∉ metadata_fields → r !! f = data !! f) ∧
     (∀ t k rec, stored a t k = Some rec → stored a' t k = Some rec) ∧
     (∃ n, count table None a = (Ok n, a) ∧ count table None a' = (Ok (n + 1), a'))) ∧
  (∀ existing,
     stored a table (getp data "id") = Some existing →
     truthy (getp data "id") = true → valid_key (getp data "id") = true →
     rejects_with (DOMException "ConstraintError") (create e table data) a).
Proof.
  split.
  - intros r a' Hrun. pose proof Hrun as Hkeep. rewrite create_unfold in Hrun.
    destruct (db a) as [d|] eqn:Hd; [|done].
    destruct (d !! table) as [s|] eqn:Hs; [|done].
    destruct (store_add _ _ _) as [s'|] eqn:Hadd; [|done].
    injection Hrun as <- <-.
    apply store_add_inv in Hadd as (-> & Hv & Hfresh & _).
    set (r := addMetadata (deviceId a) e data) in *.
    assert (get table (getp r "id")
              (mkIDB (Some (<[table := <[getp r "id" := r]> s]> d)) (deviceId a))
            = (Ok (Some r),
               mkIDB (Some (<[table := <[getp r "id" := r]> s]> d)) (deviceId a)))
      as Hget.
    { rewrite get_unfold. simpl. rewrite lookup_insert_eq, Hv. by rewrite lookup_insert_eq. }
    split_and!.
    + exact Hget.
    + rewrite exists_unfold, Hget. by rewrite bool_decide_eq_true_2.
    + intros Hid. unfold r. rewrite addMetadata_id. by apply truthy_or.
    + intros f Hf. by apply addMetadata_other.
    + intros t k rec. by eapply create_stored.
    + exists (Z.of_nat (size s)). split; [by apply (count_all table a d s)|].
      rewrite (count_all table _ (<[table := <[getp r "id" := r]> s]> d)
                 (<[getp r "id" := r]> s)); [|done|by apply lookup_insert_eq].
      rewrite map_size_insert_None by done. do 3 f_equal. lia.
  - intros existing Hst Hid Hv. unfold rejects_with. rewrite create_unfold.
    apply stored_inv in Hst as (d & s & -> & -> & Hk).
    unfold store_add. rewrite addMetadata_id, (truthy_or _ _ Hid), Hv. simpl.
    by rewrite bool_decide_eq_true_2.
Qed.

(** X4. [update] merges: the record it returns, stored under the [id] it
    was called with, has the properties of the patch, then those of the
    existing record; its [id] is the argument even when the patch carries
    another, and [created_at] stays when the patch has none. Every other
    record is untouched. On a key that holds no record [update] rejects
    with ['Record with id ... not found in ...'] and creates nothing. *)
Theorem update_merges e table id patch a :
  (∀ existing updated a',
     stored a table id = Some existing →
     truthy id = true →
     update e table id patch a = (Ok updated, a') →
     getp updated "id" = id ∧
     stored a' table id = Some updated ∧
     (∀ f v, f ∉ metadata_fields → patch !! f = Some v → updated !! f = Some v) ∧
     (∀ f, f ∉ metadata_fields → patch !! f = None → updated !! f = existing !! f) ∧
     (patch !! "created_at" = None → truthy (getp existing "created_at") = true →
      getp updated "created_at" = getp existing "created_at") ∧
     (∀ t k, (t, k) ≠ (table, id) → stored a' t k = stored a t k)) ∧
  (∀ d s,
     db a = Some d → d !! table = Some s → valid_key id = true → s !! id = None →
     rejects_with
       (Error ("Record with id " +:+ js_toString id +:+ " not found in " +:+ table))
       (update e table id patch) a).
Proof.
  split.
  - intros existing updated a' Hst Hid Hrun. pose proof Hrun as Hother.
    apply update_inv in Hrun as (d & s & ex & Hd & Hs & Hv & Hex & Hupd & Ha').
    rewrite (stored_eq a d table s) in Hst by done. rewrite Hex in Hst.
    injection Hst as ->.
    assert (getp updated "id" = id) as Hkey.
    { rewrite Hupd, addMetadata_id, getp_insert_eq. by apply truthy_or. }
    split_and!.
    + exact Hkey.
    + rewrite Ha', Hkey. rewrite stored_commit, decide_True by done.
      apply lookup_insert_eq.
    + intros f v Hf Hp. rewrite Hupd, addMetadata_other by done.
      rewrite lookup_insert_ne by (intros <-; apply Hf; set_solver).
      by apply lookup_union_Some_l.
    + intros f Hf Hp. rewrite Hupd, addMetadata_other by done.
      rewrite lookup_insert_ne by (intros <-; apply Hf; set_solver).
      by apply lookup_union_r.
    + intros Hp Hc. rewrite Hupd, addMetadata_created_at.
      rewrite getp_insert_ne by done. rewrite (getp_union_l _ _ _ Hp).
      by apply truthy_or.
    + intros t k Hne. eapply update_stored_other; [exact Hother|].
      destruct (decide (table = t)) as [<-|Ht]; [|by left].
      right. split; [done|]. intros <-. by apply Hne.
  - intros d s Hd Hs Hv Hk. unfold rejects_with.
    by rewrite update_unfold, Hd, Hs, Hv, Hk.
Qed.

(** X5. [delete] of a key that holds no record resolves and changes
    nothing. After a [delete] that resolved, [get] gives [null], [exists]
    answers [false], a second [delete] changes nothing more, and every
    other record is as it was. *)
Theorem delete_is_idempotent table id a :
  (∀ d s, db a = Some d → d !! table = Some s → valid_key id = true → s !! id = None →
          delete_ table id a = (Ok tt, a)) ∧
  (∀ a', delete_ table id a = (Ok tt, a') →
         get table id a' = (Ok None, a') ∧
         exists_ table id a' = (Ok false, a') ∧
         delete_ table id a' = (Ok tt, a') ∧
         ∀ t k, (t, k) ≠ (table, id) → stored a' t k = stored a t k).
Proof.
  split.
  - intros d s Hd Hs Hv Hk. rewrite delete_unfold, Hd, Hs, Hv.
    rewrite delete_id by done. rewrite insert_id by done.
    destruct a; simpl in *; by subst.
  - intros a' Hrun. pose proof Hrun as Hother. rewrite delete_unfold in Hrun.
    destruct (db a) as [d|] eqn:Hd; [|done].
    destruct (d !! table) as [s|] eqn:Hs; [|done].
    destruct (valid_key id) eqn:Hv; [|done].
    injection Hrun as <-.
    assert (get table id (mkIDB (Some (<[table := delete id s]> d)) (deviceId a))
            = (Ok None, mkIDB (Some (<[table := delete id s]> d)) (deviceId a))) as Hget.
    { rewrite get_unfold. simpl. rewrite lookup_insert_eq, Hv. by rewrite lookup_delete_eq. }
    split_and!.
    + exact Hget.
    + rewrite exists_unfold, Hget. rewrite bool_decide_eq_false_2; [done|]. by intros [? ?].
    + rewrite delete_unfold. simpl. rewrite lookup_insert_eq, Hv. simpl.
      rewrite insert_insert_eq. rewrite (delete_id (delete id s)) by apply lookup_delete_eq.
      done.
    + intros t k Hne. eapply delete_stored_other; [exact Hother|].
      destruct (decide (table = t)) as [<-|Ht]; [|by left].
      right. intros <-. by apply Hne.
Qed.

(** X6. [get], [exists], [query], [list], [count] and [export] never
    change the state of the adapter, whether they resolve or reject. *)
Theorem reads_change_nothing (a : IndexedDBAdapter) :
  (∀ table id, (get table id a).2 = a) ∧
  (∀ table id, (exists_ table id a).2 = a) ∧
  (∀ table options, (query table options a).2 = a) ∧
  (∀ table options, (list_ table options a).2 = a) ∧
  (∀ table options, (count table options a).2 = a) ∧
  (∀ tables, (export_ tables a).2 = a).
Proof.
  assert (∀ table id, (get table id a).2 = a) as Hget.
  { intros. rewrite get_unfold. destruct (db a) as [d|]; [|done].
    destruct (d !! table); [|done]. by destruct (valid_key id). }
  assert (∀ table options, (query table options a).2 = a) as Hquery.
  { intros. apply (list_state table (Some options)). }
  split_and!.
  - exact Hget.
  - intros. rewrite exists_unfold. specialize (Hget table id).
    by destruct (get table id a) as [[?|?] ?].
  - exact Hquery.
  - intros. apply list_state.
  - intros. rewrite count_unfold. specialize (Hquery table (default noOptions options)).
    by destruct (query _ _ a) as [[?|?] ?].
  - intros tables. unfold export_. generalize (@nil (string * list record)).
    induction (default TABLES tables) as [|t ts IH]; intros acc; [done|].
    rewrite export_loop_cons. pose proof (list_state t None a) as Hl.
    destruct (list_ t None a) as [[records|e] a1]; simpl in Hl; subst a1; [apply IH | done].
Qed.
End SingleRecord.

Lemma create_then_get_witness :
  let run := create (JS := sample_runtime) (sample_env 0) "clients" (sample_client "Davi")
               sample_local in
  is_ok run.1 = true ∧
  get "clients" (getp (result_value ∅ run.1) "id") run.2
  = (Ok (Some (result_value ∅ run.1)), run.2).
Proof.
  intros run. split; [vm_compute; reflexivity|].
  destruct (create_then_get (JS := sample_runtime) (sample_env 0) "clients"
              (sample_client "Davi") sample_local) as [Hok _].
  destruct (Hok (result_value ∅ run.1) run.2) as [Hget _]; [|exact Hget].
  apply (run_ok run). vm_compute. reflexivity.
Defined.

Lemma update_merges_witness :
  let run := update (JS := sample_runtime) (sample_env 0) "clients" (VStr "a")
               {[ "id" := VStr "z"; "email" := VStr "ana@example.com" ]} sample_local in
  is_ok run.1 = true ∧
  getp (result_value ∅ run.1) "id" = VStr "a" ∧
  result_value ∅ run.1 !! "email" = Some (VStr "ana@example.com") ∧
  result_value ∅ run.1 !! "name" = Some (VStr "Ana").
Proof.
  intros run. split; [vm_compute; reflexivity|].
  destruct (update_merges (JS := sample_runtime) (sample_env 0) "clients" (VStr "a")
              {[ "id" := VStr "z"; "email" := VStr "ana@example.com" ]} sample_local)
    as [Hok _].
  destruct (Hok (default ∅ (stored sample_local "clients" (VStr "a")))
              (result_value ∅ run.1) run.2)
    as (Hid & _ & Hpatch & Hrest & _).
  - apply some_default. vm_compute. reflexivity.
  - reflexivity.
  - apply (run_ok run). vm_compute. reflexivity.
  - split; [exact Hid|]. split.
    + apply Hpatch; [|vm_compute; reflexivity].
      unfold metadata_fields. rewrite !elem_of_cons, elem_of_nil.
      intros [?|[?|[?|[?|[?|[?|[]]]]]]]; discriminate.
    + rewrite Hrest; [vm_compute; reflexivity | | vm_compute; reflexivity].
      unfold metadata_fields. rewrite !elem_of_cons, elem_of_nil.
      intros [?|[?|[?|[?|[?|[?|[]]]]]]]; discriminate.
Defined.

Lemma delete_is_idempotent_witness :
  delete_ "products" (VStr "a") sample_local = (Ok tt, sample_local).
Proof.
  destruct (delete_is_idempotent "products" (VStr "a") sample_local) as [Hmissing _].
  apply (Hmissing sample_database ∅); [reflexivity | | reflexivity | reflexivity].
  vm_compute. reflexivity.
Defined.

(** ** The bulk operations *)

Lemma add_all_inv table (records : list record) : ∀ s s',
  Forall (λ r, valid_key (getp r "id") = true) records →
  add_all table s records = Ok s' →
  NoDup ((λ r, getp r "id") <$> records) ∧
  (∀ r, r ∈ records → s !! getp r "id" = None ∧ s' !! getp r "id" = Some r) ∧
  (∀ k rec, s !! k = Some rec → s' !! k = Some rec) ∧
  size s' = (size s + length records)%nat.
Proof.
  induction records as [|x rest IH]; intros s s' Hvalid; simpl.
  - intros [= <-]. split_and!; [constructor | by intros r ?%elem_of_nil | done | lia].
  - apply Forall_cons in Hvalid as [Hx Hrest]. rewrite Hx.
    destruct (store_add table s x) as [s1|] eqn:Hadd; [|done].
    intros Hrun. apply store_add_inv in Hadd as (-> & _ & Hfresh & _).
    destruct (IH _ _ Hrest Hrun) as (Hnd & Hin & Hkeep & Hsize).
    assert (s' !! getp x "id" = Some x) as Hxs by (apply Hkeep, lookup_insert_eq).
    split_and!.
    + constructor; [|done]. intros (r & Hid & Hr)%list_elem_of_fmap.
      destruct (Hin r Hr) as [Hnone _]. rewrite <- Hid, lookup_insert_eq in Hnone. done.
    + intros r [->|Hr]%elem_of_cons; [done|].
      destruct (Hin r Hr) as [Hnone Hsome]. split; [|done].
      apply lookup_insert_None in Hnone. tauto.
    + intros k rec Hk. apply Hkeep. rewrite lookup_insert_ne; [done|].
      intros <-. by rewrite Hk in Hfresh.
    + rewrite Hsize, map_size_insert_None by done. lia.
Qed.

Lemma find_invalid_inv (records : list record) :
  List.find (λ r, negb (valid_key (getp r "id"))) records = None →
  Forall (λ r, valid_key (getp r "id") = true) records.
Proof.
  intros Hfind. apply Forall_forall. intros r Hr%list_elem_of_In.
  apply (find_none _ _ Hfind) in Hr. by apply negb_false_iff in Hr.
Qed.

Lemma foldl_delete_lookup (ids : list value) : ∀ (s : store) k,
  foldl (λ s id, if valid_key id then delete id s else s) s ids !! k
  = if bool_decide (k ∈ ids ∧ valid_key k = true) then None else s !! k.
Proof.
  induction ids as [|id ids IH]; intros s k; cbn [foldl].
  - rewrite bool_decide_eq_false_2; [done|]. by intros [?%elem_of_nil _].
  - rewrite IH.
    destruct (decide (k ∈ ids ∧ valid_key k = true)) as [Hin|Hin].
    + rewrite !bool_decide_eq_true_2; [done | | done].
      destruct Hin. split; [by right | done].
    + rewrite (bool_decide_eq_false_2 _ Hin).
      destruct (decide (k ∈ id :: ids ∧ valid_key k = true)) as [Hin'|Hin'].
      * rewrite (bool_decide_eq_true_2 _ Hin').
        destruct Hin' as [[->|Hk]%elem_of_cons Hv]; [|by destruct Hin].
        rewrite Hv. apply lookup_delete_eq.
      * rewrite (bool_decide_eq_false_2 _ Hin').
        destruct (valid_key id) eqn:Hv; [|done].
        rewrite lookup_delete_ne; [done|]. intros <-. apply Hin'. split; [by left | done].
Qed.

Section BulkOperations.
Context `{JS : Runtime}.

(** X7. [bulkCreate] is all or nothing on a failed request. When it
    resolves, its result is the input stamped item by item, the ids are
    pairwise distinct and were free, every record is stored under its id,
    the records that were there are unchanged and the count has grown by
    the length of the input. When it rejects with anything but
    [DataError] (a [ConstraintError], say), nothing was written. *)
Theorem bulkCreate_all_or_nothing es table data a :
  (∀ records a',
     bulkCreate es table data a = (Ok records, a') →
     records = imap (λ i item, addMetadata (deviceId a) (es i) item) data ∧
     NoDup ((λ r, getp r "id") <$> records) ∧
     (∀ r, r ∈ records →
           stored a table (getp r "id") = None ∧ stored a' table (getp r "id") = Some r) ∧
     (∀ t k rec, stored a t k = Some rec → stored a' t k = Some rec) ∧
     ∃ n, count table None a = (Ok n, a) ∧
          count table None a' = (Ok (n + Z.of_nat (length data)), a')) ∧
  (∀ e a', bulkCreate es table data a = (Err e, a') →
           e ≠ DOMException "DataError" → a' = a).
Proof.
  rewrite bulkCreate_unfold. split.
  - intros records a'.
    destruct (db a) as [d|] eqn:Hd; [|done].
    destruct (d !! table) as [s|] eqn:Hs; [|done]. simpl.
    destruct (List.find _ _) eqn:Hfind; [by destruct (add_all _ _ _)|].
    destruct (add_all _ _ _) as [s'|] eqn:Hadd; [|done].
    intros [= <- <-]. apply find_invalid_inv in Hfind.
    destruct (add_all_inv _ _ _ _ Hfind Hadd) as (Hnd & Hin & Hkeep & Hsize).
    split_and!.
    + done.
    + done.
    + intros r Hr. destruct (Hin r Hr) as [Hnone Hsome].
      rewrite (stored_eq a d table s) by done.
      rewrite (stored_after_commit a d) by done. by rewrite decide_True.
    + intros t k rec Hk. rewrite (stored_after_commit a d) by done.
      case_decide as Ht; [|done]. subst t. apply Hkeep.
      by rewrite (stored_eq a d table s) in Hk.
    + exists (Z.of_nat (size s)). split; [by apply (count_all table a d s)|].
      rewrite (count_all table _ (<[table := s']> d) s'); [|done|by apply lookup_insert_eq].
      rewrite Hsize, length_imap. do 3 f_equal. lia.
  - intros e a' Hrun Hne.
    destruct (db a) as [d|] eqn:Hd; [|by injection Hrun as _ <-].
    destruct (d !! table) as [s|] eqn:Hs; [|by injection Hrun as _ <-]. simpl in Hrun.
    destruct (List.find _ _), (add_all _ _ _); inversion Hrun; subst;
      first [done | by destruct Hne].
Qed.

Lemma bulkUpdate_loop_acc table updates : ∀ es acc a,
  bulkUpdate_loop es table updates acc a =
  match bulkUpdate_loop es table updates [] a with
  | (Ok results, a') => (Ok (acc ++ results), a')
  | (Err e, a') => (Err e, a')
  end.
Proof.
  induction updates as [|[id data] rest IH]; intros es acc a.
  - simpl. unfold ret. by rewrite app_nil_r.
  - rewrite !bulkUpdate_loop_cons.
    destruct (update _ _ _ _ a) as [[result|e] a1]; [|done].
    rewrite (IH _ (acc ++ [result])), (IH _ ([] ++ [result])).
    destruct (bulkUpdate_loop _ _ rest [] a1) as [[results|e] a2]; [|done].
    by rewrite <- app_assoc.
Qed.

Lemma bulkUpdate_app table us1 : ∀ es us2 a,
  bulkUpdate es table (us1 ++ us2) a =
  match bulkUpdate es table us1 a with
  | (Ok rs1, a1) =>
      match bulkUpdate (λ i, es (length us1 + i)%nat) table us2 a1 with
      | (Ok rs2, a2) => (Ok (rs1 ++ rs2), a2)
      | (Err e, a2) => (Err e, a2)
      end
  | (Err e, a1) => (Err e, a1)
  end.
Proof.
  unfold bulkUpdate. induction us1 as [|[id data] us1 IH]; intros es us2 a.
  - cbn [app bulkUpdate_loop length Nat.add]. unfold ret.
    by destruct (bulkUpdate_loop _ _ us2 [] a) as [[?|?] ?].
  - rewrite <- app_comm_cons, !bulkUpdate_loop_cons.
    destruct (update _ _ _ _ a) as [[result|e] a1]; [|done].
    rewrite (bulkUpdate_loop_acc _ _ _ ([] ++ [result])).
    rewrite (bulkUpdate_loop_acc _ us1 _ ([] ++ [result])).
    rewrite IH.
    destruct (bulkUpdate_loop _ _ us1 [] a1) as [[rs1|e] a2]; [|done].
    simpl. destruct (bulkUpdate_loop _ _ us2 [] a2) as [[rs2|e] a3]; done.
Qed.

Lemma bulkUpdate_length table updates : ∀ es a results a',
  bulkUpdate es table updates a = (Ok results, a') → length results = length updates.
Proof.
  unfold bulkUpdate. induction updates as [|[id data] rest IH]; intros es a results a'.
  - by intros [= <- <-].
  - rewrite bulkUpdate_loop_cons.
    destruct (update _ _ _ _ a) as [[result|e] a1]; [|done].
    rewrite bulkUpdate_loop_acc.
    destruct (bulkUpdate_loop _ _ rest [] a1) as [[rs|e] a2] eqn:Hrest; [|done].
    intros [= <- <-]. simpl. f_equal. by eapply IH.
Qed.

Lemma update_err_state e table id data a err a' :
  update e table id data a = (Err err, a') → a' = a.
Proof.
  rewrite update_unfold.
  destruct (db a) as [d|]; [|by intros [= _ <-]].
  destruct (d !! table) as [s|]; [|by intros [= _ <-]].
  destruct (valid_key id); [|by intros [= _ <-]].
  destruct (s !! id); [|by intros [= _ <-]].
  simpl. destruct (store_put _ _ _); [done | by intros [= _ <-]].
Qed.

(** X8. [bulkUpdate] is not atomic: the updates run one after the other,
    and when one rejects, the call rejects with its error, the updates
    before it stay written and the ones behind it are never tried. In
    general the call on [us1 ++ us] is the call on [us1] followed by the
    call on [us], and a resolved call returns one record per update. *)
Theorem bulkUpdate_not_atomic es table us1 id data us2 a rs1 a1 e a1' :
  bulkUpdate es table us1 a = (Ok rs1, a1) →
  update (es (length us1)) table id data a1 = (Err e, a1') →
  bulkUpdate es table (us1 ++ (id, data) :: us2) a = (Err e, a1) ∧
  length rs1 = length us1 ∧
  (∀ us, bulkUpdate es table (us1 ++ us) a
         = match bulkUpdate (λ i, es (length us1 + i)%nat) table us a1 with
           | (Ok rs, a2) => (Ok (rs1 ++ rs), a2)
           | (Err e', a2) => (Err e', a2)
           end).
Proof.
  intros H1 Hfail. split_and!.
  - rewrite bulkUpdate_app, H1. unfold bulkUpdate. rewrite bulkUpdate_loop_cons.
    rewrite Nat.add_0_r, Hfail. by rewrite (update_err_state _ _ _ _ _ _ _ Hfail).
  - by eapply bulkUpdate_length.
  - intros us. by rewrite bulkUpdate_app, H1.
Qed.

Lemma forEach_delete table ids : ∀ d s device,
  d !! table = Some s → Forall (λ id, valid_key id = true) ids →
  forEach (delete_ table) ids (mkIDB (Some d) device)
  = (Ok tt, mkIDB (Some (<[table := foldl (λ s id, if valid_key id then delete id s else s)
                                          s ids]> d)) device).
Proof.
  induction ids as [|id ids IH]; intros d s device Hs Hvalid; simpl.
  - unfold ret. by rewrite insert_id.
  - apply Forall_cons in Hvalid as [Hid Hids].
    unfold bind. rewrite delete_unfold. simpl. rewrite Hs, Hid.
    rewrite (IH _ (delete id s)); [|apply lookup_insert_eq|done].
    by rewrite insert_insert_eq.
Qed.

(** X9. After [bulkDelete], none of the given ids that is a valid key
    holds a record, and every other record is as it was; ids that hold no
    record are no error. The call rejects, with [DataError], exactly when
    some id is not a valid key, and even then the valid ones are deleted.
    When all ids are valid the call does what deleting them one by one
    does. *)
Theorem bulkDelete_deletes_each table ids a d s :
  db a = Some d → d !! table = Some s →
  ∃ a',
    bulkDelete table ids a
    = (if forallb valid_key ids then Ok tt else Err (DOMException "DataError"), a') ∧
    (∀ k, k ∈ ids → valid_key k = true → stored a' table k = None) ∧
    (∀ t k, (t = table → k ∈ ids → valid_key k = false) →
            stored a' t k = stored a t k) ∧
    (forallb valid_key ids = true → forEach (delete_ table) ids a = (Ok tt, a')).
Proof.
  intros Hd Hs. rewrite bulkDelete_unfold, Hd, Hs.
  eexists. split; [reflexivity|]. split_and!.
  - intros k Hk Hv. rewrite (stored_after_commit a d) by done.
    rewrite decide_True by done. rewrite foldl_delete_lookup.
    by rewrite bool_decide_eq_true_2.
  - intros t k Hcond. rewrite (stored_after_commit a d) by done.
    case_decide as Ht; [|done]. subst t.
    rewrite foldl_delete_lookup, (stored_eq a d table s) by done.
    rewrite bool_decide_eq_false_2; [done|].
    intros [Hin Hv]. rewrite Hcond in Hv; done.
  - intros Hall. destruct a as [da device]. simpl in *. subst da.
    apply forEach_delete; [done|].
    apply Forall_forall. intros id Hid.
    rewrite forallb_forall in Hall. by apply Hall, list_elem_of_In.
Qed.
End BulkOperations.

Lemma bulkCreate_all_or_nothing_witness :
  let run := bulkCreate (JS := sample_runtime) sample_env "clients"
               [sample_client "Davi"; sample_client "Eva"] sample_local in
  is_ok run.1 = true ∧
  NoDup ((λ r, getp r "id") <$> result_value [] run.1) ∧
  ∃ n, count (JS := sample_runtime) "clients" None sample_local = (Ok n, sample_local) ∧
       count (JS := sample_runtime) "clients" None run.2 = (Ok (n + 2), run.2).
Proof.
  intros run. split; [vm_compute; reflexivity|].
  destruct (bulkCreate_all_or_nothing (JS := sample_runtime) sample_env "clients"
              [sample_client "Davi"; sample_client "Eva"] sample_local) as [Hok _].
  destruct (Hok (result_value [] run.1) run.2) as (_ & Hids & _ & _ & Hcount).
  - apply (run_ok run). vm_compute. reflexivity.
  - split; [exact Hids | exact Hcount].
Defined.

Lemma bulkUpdate_not_atomic_witness :
  let patch : record := {[ "name" := VStr "Ana Lima" ]} in
  let run := bulkUpdate (JS := sample_runtime) sample_env "clients"
               [(VStr "a", patch)] sample_local in
  is_ok run.1 = true ∧
  getp (default ∅ (stored run.2 "clients" (VStr "a"))) "name" = VStr "Ana Lima" ∧
  bulkUpdate (JS := sample_runtime) sample_env "clients"
    [(VStr "a", patch); (VStr "z", patch); (VStr "b", patch)] sample_local
  = (Err (Error "Record with id z not found in clients"), run.2).
Proof.
  intros patch run. split; [vm_compute; reflexivity|].
  split; [vm_compute; reflexivity|].
  refine (proj1 (bulkUpdate_not_atomic (JS := sample_runtime) sample_env "clients"
                   [(VStr "a", patch)] (VStr "z") patch [(VStr "b", patch)] sample_local
                   (result_value [] run.1) run.2
                   (Error "Record with id z not found in clients")
                   (update (JS := sample_runtime) (sample_env 1) "clients" (VStr "z")
                      patch run.2).2 _ _)).
  - apply (run_ok run). vm_compute. reflexivity.
  - apply run_err. vm_compute. reflexivity.
Defined.

Lemma bulkDelete_deletes_each_witness :
  ∃ a', bulkDelete "clients" [VStr "a"; VNull; VStr "b"] sample_local
        = (Err (DOMException "DataError"), a') ∧
        stored a' "clients" (VStr "a") = None ∧
        stored a' "clients" (VStr "b") = None ∧
        stored a' "clients" (VStr "c") = stored sample_local "clients" (VStr "c").
Proof.
  destruct (bulkDelete_deletes_each "clients" [VStr "a"; VNull; VStr "b"] sample_local
              sample_database sample_clients) as (a' & Hrun & Hgone & Hkept & _).
  - reflexivity.
  - apply lookup_insert_eq.
  - exists a'. split; [exact Hrun|]. split; [|split].
    + apply Hgone; [apply list_elem_of_here | reflexivity].
    + apply Hgone; [do 2 apply list_elem_of_further; apply list_elem_of_here | reflexivity].
    + apply Hkept. intros _ Hin.
      apply elem_of_cons in Hin as [?|Hin]; [discriminate|].
      apply elem_of_cons in Hin as [?|Hin]; [discriminate|].
      apply elem_of_cons in Hin as [?|Hin]; [discriminate|].
      by apply elem_of_nil in Hin.
Defined.

(** ** What [query] and [count] return *)

Lemma sort_insert_perm {A} (cmp : A → A → Z) x (l : list A) :
  sort_insert cmp x l ≡ₚ x :: l.
Proof.
  induction l as [|y l IH]; simpl; [done|].
  destruct (0 <? cmp x y); [|done].
  rewrite IH. apply Permutation_swap.
Qed.

Lemma js_sort_perm {A} (cmp : A → A → Z) (l : list A) : js_sort cmp l ≡ₚ l.
Proof.
  unfold js_sort. induction l as [|x l IH]; simpl; [done|].
  by rewrite sort_insert_perm, IH.
Qed.

Lemma slice_from_sublist {A} (n : Z) (l : list A) : slice_from n l `sublist_of` l.
Proof. unfold slice_from. apply sublist_drop. Qed.

Lemma slice_to_sublist {A} (n : Z) (l : list A) : slice_to n l `sublist_of` l.
Proof. unfold slice_to. apply sublist_take. Qed.

Lemma sort_insert_sorted {A} (R : A → A → Prop) (cmp : A → A → Z) x (l : list A) :
  (∀ y, y ∈ l → if 0 <? cmp x y then R y x else R x y) →
  Transitive R →
  StronglySorted R l → StronglySorted R (sort_insert cmp x l).
Proof.
  intros Hcmp Htrans. induction 1 as [|y l Hl IH Hy]; simpl.
  - repeat constructor.
  - pose proof (Hcmp y (list_elem_of_here y l)) as Hxy.
    destruct (0 <? cmp x y).
    + constructor.
      * apply IH. intros z Hz. apply Hcmp. by right.
      * apply Forall_forall. intros z Hz.
        rewrite sort_insert_perm in Hz. apply elem_of_cons in Hz as [->|Hz]; [done|].
        rewrite Forall_forall in Hy. by apply Hy.
    + constructor; [by constructor|].
      constructor; [done|]. apply Forall_forall. intros z Hz.
      rewrite Forall_forall in Hy. transitivity y; [done | by apply Hy].
Qed.

Lemma js_sort_sorted {A} (R : A → A → Prop) (cmp : A → A → Z) (l : list A) :
  (∀ x y, x ∈ l → y ∈ l → if 0 <? cmp x y then R y x else R x y) →
  Transitive R →
  StronglySorted R (js_sort cmp l).
Proof.
  intros Hcmp Htrans. induction l as [|x l IH]; [constructor|].
  change (js_sort cmp (x :: l)) with (sort_insert cmp x (js_sort cmp l)).
  apply sort_insert_sorted; [|done|].
  - intros y Hy. rewrite js_sort_perm in Hy. apply Hcmp; [by left | by right].
  - apply IH. intros y z Hy Hz. apply Hcmp; by right.
Qed.

Lemma StronglySorted_sublist {A} (R : A → A → Prop) (l1 l2 : list A) :
  l1 `sublist_of` l2 → StronglySorted R l2 → StronglySorted R l1.
Proof.
  induction 1 as [|x l1 l2 Hsub IH|x l1 l2 Hsub IH]; intros Hs.
  - done.
  - apply StronglySorted_inv in Hs as [Hs Hx]. constructor; [by apply IH|].
    rewrite Forall_forall in *. intros y Hy. apply Hx. by eapply elem_of_sublist.
  - apply StronglySorted_inv in Hs as [Hs _]. by apply IH.
Qed.

Section QueryMore.
Context `{JS : Runtime}.

Lemma compareBy_num field ord (r1 r2 : record) n1 n2 :
  getp r1 field = VNum n1 → getp r2 field = VNum n2 →
  if 0 <? compareBy field ord r1 r2 then in_order field ord r2 r1
  else in_order field ord r1 r2.
Proof.
  intros H1 H2. unfold compareBy, in_order, field_num, js_lt. rewrite H1, H2. simpl.
  destruct (Z.ltb_spec n1 n2), (Z.ltb_spec n2 n1), ord; simpl; lia.
Qed.

Lemma index_getAll_elem (s : store) path q results r :
  index_getAll s path q = Ok results → r ∈ results →
  r ∈ getAll s ∧ valid_key (getp r path) = true.
Proof.
  unfold index_getAll. intros Hrun Hr.
  assert (∀ x, x ∈ filter (λ r, valid_key (getp r path) = true) (getAll s) →
               x ∈ getAll s ∧ valid_key (getp x path) = true) as Hind.
  { intros x Hx. apply list_elem_of_filter in Hx. tauto. }
  destruct q; simpl in Hrun; try discriminate; injection Hrun as <-;
    first [ rewrite js_sort_perm in Hr; by apply Hind
          | apply list_elem_of_filter in Hr as [_ Hr]; by apply Hind ].
Qed.

Lemma query_request_elem table (s : store) options results r :
  query_request table s options = Ok results → r ∈ results → r ∈ getAll s.
Proof.
  unfold query_request.
  destruct (where_ options) as [[|[key v] w]|]; try (by intros [= <-]).
  case_bool_decide; [|by intros [= <-]].
  intros Hrun Hr. by destruct (index_getAll_elem _ _ _ _ _ Hrun Hr).
Qed.

Lemma query_results_elem options (base : list record) r :
  r ∈ query_results options base →
  r ∈ base ∧ ∀ w, where_ options = Some w → Forall (λ kv, getp r kv.1 = kv.2) w.
Proof.
  unfold query_results. intros Hr.
  assert (r ∈ apply_offset options (apply_orderBy options (apply_where options base)))
    as Hr1.
  { unfold apply_limit in Hr. destruct (limit options) as [n|]; [|done].
    destruct (truthy (VNum n)); [|done].
    by eapply elem_of_sublist; [|apply slice_to_sublist]. }
  assert (r ∈ apply_orderBy options (apply_where options base)) as Hr2.
  { unfold apply_offset in Hr1. destruct (offset options) as [n|]; [|done].
    destruct (truthy (VNum n)); [|done].
    by eapply elem_of_sublist; [|apply slice_from_sublist]. }
  assert (r ∈ apply_where options base) as Hr3.
  { unfold apply_orderBy in Hr2. destruct (orderBy options) as [f|]; [|done].
    destruct (truthy (VStr f)); [|done]. by rewrite js_sort_perm in Hr2. }
  unfold apply_where in Hr3. destruct (where_ options) as [w|].
  - apply list_elem_of_filter in Hr3 as [Hw Hb]. split; [done|]. by intros w' [= <-].
  - split; [done | by intros w' ?].
Qed.

Lemma apply_where_sublist options (base : list record) :
  apply_where options base `sublist_of` base.
Proof.
  unfold apply_where. destruct (where_ options); [apply sublist_filter | done].
Qed.

Lemma apply_offset_sublist options (l : list record) : apply_offset options l `sublist_of` l.
Proof.
  unfold apply_offset. destruct (offset options) as [n|]; [|done].
  destruct (truthy (VNum n)); [apply slice_from_sublist | done].
Qed.

Lemma apply_limit_sublist options (l : list record) : apply_limit options l `sublist_of` l.
Proof.
  unfold apply_limit. destruct (limit options) as [n|]; [|done].
  destruct (truthy (VNum n)); [apply slice_to_sublist | done].
Qed.

Lemma apply_orderBy_perm options (l : list record) : apply_orderBy options l ≡ₚ l.
Proof.
  unfold apply_orderBy. destruct (orderBy options) as [f|]; [|done].
  destruct (truthy (VStr f)); [apply js_sort_perm | done].
Qed.

Lemma index_getAll_matching (s : store) path q r :
  valid_key q = true → r ∈ getAll s → getp r path = q →
  ∃ results, index_getAll s path q = Ok results ∧ r ∈ results.
Proof.
  intros Hq Hr Hpath. unfold index_getAll.
  destruct q; try done; rewrite ?Hq; (eexists; split; [reflexivity|]);
    (apply list_elem_of_filter; split; [done|]);
    (apply list_elem_of_filter; split; [by rewrite Hpath | done]).
Qed.

(** X10. Every record [query] returns is a record stored in the table
    that agrees with every clause of [where]. Without [limit] and
    [offset], and when the first clause is not served by an index or asks
    for a valid key, the converse holds: every stored record that agrees
    with every clause is returned. *)
Theorem query_results_match table options a results a' :
  query table options a = (Ok results, a') →
  (∀ r, r ∈ results →
        (∃ k, stored a table k = Some r) ∧
        (∀ w key v, where_ options = Some w → (key, v) ∈ w → getp r key = v)) ∧
  (limit options = None → offset options = None →
   (∀ key v w, where_ options = Some ((key, v) :: w) →
               key ∉ indexNames table ∨ valid_key v = true) →
   ∀ k r, stored a table k = Some r →
          (∀ w key v, where_ options = Some w → (key, v) ∈ w → getp r key = v) →
          r ∈ results).
Proof.
  rewrite query_unfold.
  destruct (db a) as [d|] eqn:Hd; [|done].
  unfold objectStore. destruct (d !! table) as [s|] eqn:Hs; [|done].
  destruct (query_request table s options) as [base|] eqn:Hreq; [|done].
  intros [= <- <-]. split.
  - intros r Hr. apply query_results_elem in Hr as [Hbase Hw]. split.
    + apply (query_request_elem _ _ _ _ _ Hreq) in Hbase.
      apply elem_of_getAll in Hbase as [k Hk]. exists k.
      by rewrite (stored_eq a d table s).
    + intros w key v Hwhere Hin. specialize (Hw w Hwhere).
      rewrite Forall_forall in Hw. apply (Hw (key, v) Hin).
  - intros Hlimit Hoffset Hindex k r Hk Hmatch.
    rewrite (stored_eq a d table s) in Hk by done.
    assert (r ∈ getAll s) as Hall by (apply elem_of_getAll; eauto).
    unfold query_results, apply_limit, apply_offset. rewrite Hlimit, Hoffset.
    rewrite apply_orderBy_perm. unfold apply_where.
    assert (r ∈ base) as Hbase.
    { unfold query_request in Hreq.
      destruct (where_ options) as [[|[key v] w]|] eqn:Hwhere;
        try (by injection Hreq as <-).
      case_bool_decide as Hix; [|by injection Hreq as <-].
      destruct (Hindex key v w eq_refl) as [?|Hv]; [done|].
      destruct (index_getAll_matching s key v r Hv Hall) as (results & Hres & Hin).
      { apply (Hmatch _ key v eq_refl). by left. }
      rewrite Hres in Hreq. by injection Hreq as <-. }
    destruct (where_ options) as [w|] eqn:Hwhere; [|done].
    apply list_elem_of_filter. split; [|done].
    apply Forall_forall. intros [key v] Hin. by apply (Hmatch w).
Qed.

Lemma list_no_elem {A} (l : list A) : (∀ x, x ∉ l) → l = [].
Proof. destruct l as [|x l]; [done|]. intros Hl. destruct (Hl x). by left. Qed.

(** X11. A [where] whose first clause asks an indexed property to be
    [null] or [undefined] matches nothing: the index is read in full, it
    only lists the records that have a valid key on its path, and none of
    them passes the filter. *)
Theorem query_null_on_index table key v ob ord lim off w a d s :
  db a = Some d → d !! table = Some s →
  key ∈ indexNames table → v = VNull ∨ v = VUndef →
  query table (mkQuery ob ord lim off (Some ((key, v) :: w))) a = (Ok [], a).
Proof.
  intros Hd Hs Hkey Hv. rewrite query_unfold, Hd. unfold objectStore. rewrite Hs.
  destruct (query_request _ _ _) as [base|e] eqn:Hreq.
  - f_equal. f_equal. apply list_no_elem. intros r Hr.
    apply query_results_elem in Hr as [Hbase Hw].
    specialize (Hw _ eq_refl). apply Forall_cons in Hw as [Hkv _]. simpl in Hkv.
    unfold query_request in Hreq. simpl in Hreq.
    rewrite bool_decide_eq_true_2 in Hreq by done.
    destruct (index_getAll_elem _ _ _ _ _ Hreq Hbase) as [_ Hvalid].
    rewrite Hkv in Hvalid. by destruct Hv as [-> | ->].
  - unfold query_request in Hreq. simpl in Hreq.
    rewrite bool_decide_eq_true_2 in Hreq by done.
    unfold index_getAll in Hreq. by destruct Hv as [-> | ->].
Qed.

Lemma query_request_length table (s : store) options base :
  query_request table s options = Ok base → (length base ≤ size s)%nat.
Proof.
  rewrite <- getAll_length. unfold query_request.
  destruct (where_ options) as [[|[key v] w]|]; try (by intros [= <-]).
  case_bool_decide; [|by intros [= <-]].
  unfold index_getAll.
  assert (length (filter (λ r, valid_key (getp r key) = true) (getAll s))
          ≤ length (getAll s))%nat as Hind by apply length_filter.
  destruct v; simpl; try discriminate; intros [= <-];
    first [ by rewrite (Permutation_length (js_sort_perm _ _))
          | etransitivity; [apply length_filter | done] ].
Qed.

Lemma query_results_length options (base : list record) :
  (length (query_results options base) ≤ length base)%nat.
Proof.
  unfold query_results.
  etransitivity; [apply sublist_length, apply_limit_sublist|].
  etransitivity; [apply sublist_length, apply_offset_sublist|].
  rewrite (Permutation_length (apply_orderBy_perm _ _)).
  apply sublist_length, apply_where_sublist.
Qed.

(** X12. With [orderBy] on a property that holds a number in every record
    of the table, the result of [query] is sorted on that property:
    ascending by default and for ['asc'], descending for ['desc'], also
    behind [offset] and [limit]. Without [offset] and [limit] the result
    is a permutation of the result of the same query without [orderBy]. *)
Theorem query_orderBy_sorted table field ord lim off w a results a' :
  field ≠ "" →
  (∀ k r, stored a table k = Some r → ∃ n, getp r field = VNum n) →
  query table (mkQuery (Some field) ord lim off w) a = (Ok results, a') →
  StronglySorted (in_order field (default asc ord)) results ∧
  (lim = None → off = None →
   ∃ unsorted, query table (mkQuery None ord None None w) a = (Ok unsorted, a') ∧
               results ≡ₚ unsorted).
Proof.
  intros Hfield Hnum. rewrite !query_unfold.
  destruct (db a) as [d|] eqn:Hd; [|done].
  unfold objectStore. destruct (d !! table) as [s|] eqn:Hs; [|done].
  assert (query_request table s (mkQuery None ord None None w)
          = query_request table s (mkQuery (Some field) ord lim off w)) as -> by done.
  destruct (query_request _ _ _) as [base|] eqn:Hreq; [|done].
  intros [= <- <-]. split.
  - unfold query_results.
    eapply StronglySorted_sublist; [apply apply_limit_sublist|].
    eapply StronglySorted_sublist; [apply apply_offset_sublist|].
    unfold apply_orderBy. cbn [orderBy order]. rewrite (truthy_str field Hfield).
    apply js_sort_sorted; [|apply _].
    intros x y Hx Hy.
    assert (∀ z, z ∈ apply_where (mkQuery (Some field) ord lim off w) base →
                 ∃ n, getp z field = VNum n) as Hz.
    { intros z Hin. eapply elem_of_sublist in Hin; [|apply apply_where_sublist].
      apply (query_request_elem _ _ _ _ _ Hreq) in Hin.
      apply elem_of_getAll in Hin as [k Hk]. apply (Hnum k).
      by rewrite (stored_eq a d table s). }
    destruct (Hz x Hx) as [n1 H1], (Hz y Hy) as [n2 H2].
    by eapply compareBy_num.
  - intros -> ->. eexists. split; [reflexivity|].
    unfold query_results, apply_limit, apply_offset. cbn [limit offset].
    unfold apply_orderBy. cbn [orderBy order]. rewrite (truthy_str field Hfield).
    by rewrite js_sort_perm.
Qed.

(** X13. [count] without options is the number of records of the table.
    With options it is the length of the page [query] would return: never
    more than the number of records, and never more than a positive
    [limit]. After [clear] it is 0. *)
Theorem count_counts table a d s :
  db a = Some d → d !! table = Some s →
  count table None a = (Ok (Z.of_nat (size s)), a) ∧
  (∀ options n a',
     count table options a = (Ok n, a') → 0 ≤ n ≤ Z.of_nat (size s)) ∧
  (∀ options l n a',
     limit options = Some l → 0 < l →
     count table (Some options) a = (Ok n, a') → n ≤ l) ∧
  (∀ a1, clear table a = (Ok tt, a1) → count table None a1 = (Ok 0, a1)).
Proof.
  intros Hd Hs. split_and!.
  - by apply (count_all table a d s).
  - intros options n a'. rewrite count_unfold, query_unfold, Hd.
    unfold objectStore. rewrite Hs.
    destruct (query_request _ _ _) as [base|] eqn:Hreq; [|done].
    intros [= <- <-]. split; [lia|].
    pose proof (query_results_length (default noOptions options) base).
    pose proof (query_request_length _ _ _ _ Hreq). lia.
  - intros options l n a' Hl Hpos. rewrite count_unfold, query_unfold, Hd.
    unfold objectStore. rewrite Hs. simpl default.
    destruct (query_request _ _ _) as [base|] eqn:Hreq; [|done].
    intros [= <- <-]. unfold query_results, apply_limit. rewrite Hl.
    assert (truthy (VNum l) = true) as -> by (simpl; destruct (Z.eqb_spec l 0); [lia | done]).
    rewrite slice_to_pos by done. rewrite length_take. lia.
  - intros a1. rewrite clear_unfold, Hd, Hs. intros [= <-].
    by rewrite (count_all table _ (<[table := ∅]> d) ∅); [|done|apply lookup_insert_eq].
Qed.
End QueryMore.

Lemma query_results_match_witness :
  let options := mkQuery None None None None (Some [("name", VStr "Bia")]) in
  let run := query (JS := sample_runtime) "clients" options sample_local in
  is_ok run.1 = true ∧
  (∀ r, r ∈ result_value [] run.1 → getp r "name" = VStr "Bia") ∧
  sample_record "b" "Bia" 1 ∈ result_value [] run.1.
Proof.
  intros options run. split; [vm_compute; reflexivity|].
  destruct (query_results_match (JS := sample_runtime) "clients" options sample_local
              (result_value [] run.1) run.2) as [Hsound Hcomplete].
  - apply (run_ok run). vm_compute. reflexivity.
  - split.
    + intros r Hr. apply (proj2 (Hsound r Hr) [("name", VStr "Bia")]); [reflexivity|].
      apply list_elem_of_singleton. reflexivity.
    + apply (Hcomplete eq_refl eq_refl) with (k := VStr "b").
      * intros key v w [= <- <- <-]. right. reflexivity.
      * apply (bool_decide_unpack _). vm_compute. exact I.
      * intros w key v [= <-] Hin. apply list_elem_of_singleton in Hin as [= -> ->].
        vm_compute. reflexivity.
Defined.

Lemma query_null_on_index_witness :
  query (JS := sample_runtime) "clients"
    (mkQuery None None None None (Some [("_sync_status", VNull)])) sample_local
  = (Ok [], sample_local).
Proof.
  apply (query_null_on_index (JS := sample_runtime) "clients" "_sync_status" VNull
           None None None None [] sample_local sample_database sample_clients).
  - reflexivity.
  - apply lookup_insert_eq.
  - apply (bool_decide_unpack _). vm_compute. exact I.
  - left. reflexivity.
Defined.

Lemma query_orderBy_sorted_witness :
  let run := query (JS := sample_runtime) "clients"
               (mkQuery (Some "_version") (Some desc) None None None) sample_local in
  is_ok run.1 = true ∧
  StronglySorted (in_order "_version" desc) (result_value [] run.1) ∧
  length (result_value [] run.1) = 3%nat.
Proof.
  intros run. split; [vm_compute; reflexivity|].
  destruct (query_orderBy_sorted (JS := sample_runtime) "clients" "_version" (Some desc)
              None None None sample_local (result_value [] run.1) run.2)
    as [Hsorted _].
  - discriminate.
  - intros k r Hr.
    assert (Hall : map_Forall (λ _ r, match getp r "_version" with
                                      | VNum _ => true | _ => false end = true)
                              sample_clients)
      by (apply (bool_decide_unpack _); vm_compute; exact I).
    unfold stored, sample_local in Hr. simpl in Hr. rewrite lookup_insert_eq in Hr.
    specialize (Hall k r Hr). simpl in Hall.
    destruct (getp r "_version"); try discriminate. eauto.
  - apply (run_ok run). vm_compute. reflexivity.
  - split; [exact Hsorted | vm_compute; reflexivity].
Defined.

Lemma count_counts_witness :
  count (JS := sample_runtime) "clients" None sample_local = (Ok 3, sample_local) ∧
  ∀ n a', count (JS := sample_runtime) "clients"
            (Some (mkQuery None None (Some 2) None None)) sample_local = (Ok n, a') →
          n ≤ 2.
Proof.
  destruct (count_counts (JS := sample_runtime) "clients" sample_local sample_database
              sample_clients) as (Hall & _ & Hlimit & _).
  - reflexivity.
  - apply lookup_insert_eq.
  - split; [exact Hall|]. intros n a'.
    apply (Hlimit (mkQuery None None (Some 2) None None) 2); [reflexivity | lia].
Defined.

(** ** The device id, [initialize] and [import] *)

Lemma add_all_error table (records : list record) : ∀ s e,
  Forall (λ r, valid_key (getp r "id") = true) records →
  add_all table s records = Err e → e = DOMException "ConstraintError".
Proof.
  induction records as [|x rest IH]; intros s e Hvalid; simpl; [done|].
  apply Forall_cons in Hvalid as [Hx Hrest]. rewrite Hx.
  destruct (store_add table s x) as [s1|e1] eqn:Hadd.
  - by apply IH.
  - intros [= <-]. unfold store_add in Hadd. rewrite Hx in Hadd. simpl in Hadd.
    repeat case_bool_decide; by simplify_eq.
Qed.

Lemma upgrade_lookup (tables : list string) : ∀ (d : database) t,
  foldl (λ d table, if bool_decide (is_Some (d !! table)) then d else <[table := ∅]> d)
        d tables !! t
  = match d !! t with
    | Some s => Some s
    | None => if bool_decide (t ∈ tables) then Some ∅ else None
    end.
Proof.
  induction tables as [|x tables IH]; intros d t; cbn [foldl].
  - rewrite bool_decide_eq_false_2 by apply not_elem_of_nil. by destruct (d !! t).
  - rewrite IH. destruct (decide (x = t)) as [->|Hne].
    + rewrite (bool_decide_eq_true_2 (t ∈ t :: tables)) by (by left).
      destruct (d !! t) as [s|] eqn:Ht.
      * rewrite bool_decide_eq_true_2 by done. by rewrite Ht.
      * rewrite bool_decide_eq_false_2 by (by intros [? ?]). by rewrite lookup_insert_eq.
    + assert ((if bool_decide (is_Some (d !! x)) then d else <[x := ∅]> d) !! t = d !! t)
        as ->.
      { case_bool_decide; [done|]. by rewrite lookup_insert_ne. }
      destruct (d !! t); [done|].
      destruct (decide (t ∈ tables)) as [Hin|Hin].
      * rewrite !bool_decide_eq_true_2; [done | by right | done].
      * rewrite !bool_decide_eq_false_2; [done | | done].
        intros [?|?]%elem_of_cons; [by subst | done].
Qed.

Lemma TABLES_NoDup : NoDup TABLES.
Proof. apply (bool_decide_unpack _). vm_compute. exact I. Qed.

Lemma fresh_database_lookup t :
  fresh_database !! t = if bool_decide (t ∈ TABLES) then Some ∅ else None.
Proof.
  assert (((λ t : string, (t, (∅ : store))) <$> TABLES).*1 = TABLES) as Hkeys by done.
  unfold fresh_database. case_bool_decide as Ht.
  - apply elem_of_list_to_map_1.
    + rewrite Hkeys. apply TABLES_NoDup.
    + apply list_elem_of_fmap. by exists t.
  - apply not_elem_of_list_to_map_1. by rewrite Hkeys.
Qed.

Lemma upgrade_empty : upgrade ∅ = fresh_database.
Proof.
  apply map_eq. intros t. unfold upgrade.
  rewrite upgrade_lookup, lookup_empty. by rewrite fresh_database_lookup.
Qed.

(** X14. The device id is created once: an id that
    [getOrCreateDeviceId] returned is not empty and is stored under
    ['device_id'], no other key of [localStorage] is touched, and every
    later call, and every adapter constructed later, gets the same id
    without writing. *)
Theorem device_id_is_stable room e (ls : gmap string string) id ls' :
  getOrCreateDeviceId room e ls = (Ok id, ls') →
  id ≠ "" ∧
  ls' !! "device_id" = Some id ∧
  (∀ k, k ≠ "device_id" → ls' !! k = ls !! k) ∧
  (∀ room' e', getOrCreateDeviceId room' e' ls' = (Ok id, ls')) ∧
  (∀ room' e', new_IndexedDBAdapter room' e' ls' = (Ok (mkIDB None id), ls')).
Proof.
  intros Hrun.
  assert (id ≠ "" ∧ ls' !! "device_id" = Some id ∧
          ∀ k, k ≠ "device_id" → ls' !! k = ls !! k) as (Hne & Hid & Hrest).
  { unfold getOrCreateDeviceId in Hrun.
    destruct (ls !! "device_id") as [old|] eqn:Hold.
    - destruct (truthy (VStr old)) eqn:Ht.
      + injection Hrun as <- <-. split_and!; [|done|done].
        intros ->. done.
      + destruct (room _); [|done]. injection Hrun as <- <-.
        split_and!; [done | apply lookup_insert_eq |].
        intros k Hk. by rewrite lookup_insert_ne.
    - destruct (room _); [|done]. injection Hrun as <- <-.
      split_and!; [done | apply lookup_insert_eq |].
      intros k Hk. by rewrite lookup_insert_ne. }
  assert (∀ room' e', getOrCreateDeviceId room' e' ls' = (Ok id, ls')) as Hagain.
  { intros room' e'. unfold getOrCreateDeviceId. rewrite Hid.
    by rewrite (truthy_str id Hne). }
  split_and!; [done..|].
  intros room' e'. unfold new_IndexedDBAdapter, bind. by rewrite Hagain.
Qed.

Lemma device_id_is_stable_witness :
  let run := getOrCreateDeviceId (λ _, true) (sample_env 0) ∅ in
  is_ok run.1 = true ∧
  getOrCreateDeviceId (λ _, false) (sample_env 1) run.2
  = (Ok (result_value "" run.1), run.2).
Proof.
  intros run. split; [vm_compute; reflexivity|].
  destruct (device_id_is_stable (λ _, true) (sample_env 0) ∅ (result_value "" run.1) run.2)
    as (_ & _ & _ & Hagain & _).
  - apply (run_ok run). vm_compute. reflexivity.
  - apply Hagain.
Defined.

(** X15. [initialize] on an origin without database leaves the adapter on
    the seven fixed tables, all empty, a consistent database. When the
    upgrade runs on an older database it keeps every object store that
    exists, with its records, and creates exactly the fixed tables that
    are missing, empty. A database of the current version is opened as it
    is, and a newer one makes [initialize] reject with [VersionError]
    and leaves the adapter as it was. *)
Theorem initialize_keeps_stores (a : IndexedDBAdapter) :
  (initialize None a = (Ok tt, mkIDB (Some fresh_database) (deviceId a)) ∧
   idb_ok (mkIDB (Some fresh_database) (deviceId a))) ∧
  (∀ version d,
     version < DB_VERSION →
     initialize (Some (version, d)) a = (Ok tt, mkIDB (Some (upgrade d)) (deviceId a)) ∧
     (∀ t, t ∈ TABLES → is_Some (upgrade d !! t)) ∧
     (∀ t s, d !! t = Some s → upgrade d !! t = Some s) ∧
     (∀ t, d !! t = None → upgrade d !! t = if bool_decide (t ∈ TABLES) then Some ∅ else None)) ∧
  (∀ d, initialize (Some (DB_VERSION, d)) a = (Ok tt, mkIDB (Some d) (deviceId a))) ∧
  (∀ version d,
     DB_VERSION < version →
     initialize (Some (version, d)) a = (Err (DOMException "VersionError"), a)).
Proof.
  split; [|split; [|split]].
  - split; [|apply fresh_database_ok].
    unfold initialize, modify. by rewrite upgrade_empty.
  - intros version d Hv. unfold initialize.
    destruct (Z.ltb_spec DB_VERSION version); [lia|].
    destruct (Z.ltb_spec version DB_VERSION); [|lia].
    split; [done|]. split; [|split].
    + intros t Ht. unfold upgrade. rewrite upgrade_lookup.
      destruct (d !! t); [by eexists|]. rewrite bool_decide_eq_true_2 by done. by eexists.
    + intros t s Ht. unfold upgrade. by rewrite upgrade_lookup, Ht.
    + intros t Ht. unfold upgrade. by rewrite upgrade_lookup, Ht.
  - intros d. done.
  - intros version d Hv. unfold initialize.
    by destruct (Z.ltb_spec DB_VERSION version); [|lia].
Qed.

Lemma initialize_keeps_stores_witness :
  initialize (Some (0, {[ "clients" := sample_clients ]})) sample_closed
  = (Ok tt, mkIDB (Some (upgrade {[ "clients" := sample_clients ]})) "device_a") ∧
  upgrade {[ "clients" := sample_clients ]} !! "clients" = Some sample_clients ∧
  upgrade {[ "clients" := sample_clients ]} !! "products" = Some ∅.
Proof.
  destruct (initialize_keeps_stores sample_closed) as (_ & Hupgrade & _).
  destruct (Hupgrade 0 {[ "clients" := sample_clients ]}) as (Hrun & _ & Hkept & Hnew).
  - reflexivity.
  - split; [exact Hrun|]. split.
    + apply Hkept. apply lookup_singleton_eq.
    + rewrite Hnew; [|vm_compute; reflexivity].
      rewrite bool_decide_eq_true_2; [reflexivity|].
      apply (bool_decide_unpack _). vm_compute. exact I.
Defined.

Section ImportMore.
Context `{JS : Runtime}.

Lemma clear_frame table a r a' t k :
  clear table a = (r, a') → t ≠ table → stored a' t k = stored a t k.
Proof.
  rewrite clear_unfold.
  destruct (db a) as [d|] eqn:Hd; [|by intros [= <- <-]].
  destruct (d !! table) as [s|]; [|by intros [= <- <-]].
  intros [= <- <-] Ht. rewrite (stored_after_commit a d) by done.
  by rewrite decide_False.
Qed.

Lemma bulkCreate_frame es table data a r a' t k :
  bulkCreate es table data a = (r, a') → t ≠ table → stored a' t k = stored a t k.
Proof.
  rewrite bulkCreate_unfold.
  destruct (db a) as [d|] eqn:Hd; [|by intros [= <- <-]].
  destruct (d !! table) as [s|]; [|by intros [= <- <-]]. simpl.
  destruct (List.find _ _), (add_all _ _ _); intros [= <- <-] Ht; try done;
    rewrite (stored_after_commit a d) by done; by rewrite decide_False.
Qed.

(** X16. [import] only writes to the fixed tables its document names: the
    records of a table outside the fixed set, and those of a table the
    document has no entry for, are untouched, however the call ends. *)
Theorem import_writes_named_tables data : ∀ ess a r a' t k,
  import_ ess data a = (r, a') →
  t ∉ TABLES ∨ t ∉ data.*1 →
  stored a' t k = stored a t k.
Proof.
  induction data as [|[table records] rest IH]; intros ess a r a' t k; simpl.
  - by intros [= <- <-].
  - intros Hrun Ht.
    assert (t ∉ TABLES ∨ t ∉ rest.*1) as Hrest.
    { destruct Ht as [?|Ht]; [by left | right]. intros Hin. apply Ht. by right. }
    unfold bind at 1 in Hrun.
    case_bool_decide as Htable.
    + assert (t ≠ table) as Hne.
      { destruct Ht as [Ht|Ht]; [by intros -> | intros ->; apply Ht; by left]. }
      unfold bind at 1 in Hrun.
      destruct (clear table a) as [[[]|e] a1] eqn:Hclear.
      * destruct (0 <? _).
        -- unfold bind at 1 in Hrun.
           destruct (bulkCreate _ _ _ a1) as [[rs|e] a2] eqn:Hbulk.
           ++ unfold ret in Hrun. rewrite (IH _ _ _ _ _ _ Hrun Hrest).
              rewrite (bulkCreate_frame _ _ _ _ _ _ _ _ Hbulk Hne).
              by rewrite (clear_frame _ _ _ _ _ _ Hclear Hne).
           ++ injection Hrun as <- <-.
              rewrite (bulkCreate_frame _ _ _ _ _ _ _ _ Hbulk Hne).
              by rewrite (clear_frame _ _ _ _ _ _ Hclear Hne).
        -- unfold ret in Hrun. rewrite (IH _ _ _ _ _ _ Hrun Hrest).
           by rewrite (clear_frame _ _ _ _ _ _ Hclear Hne).
      * injection Hrun as <- <-. by rewrite (clear_frame _ _ _ _ _ _ Hclear Hne).
    + unfold ret in Hrun. by rewrite (IH _ _ _ _ _ _ Hrun Hrest).
Qed.

(** X17. [import] clears a table before it refills it, and the refill is
    all or nothing. So when the records of an entry share an id, the call
    rejects with [ConstraintError], the table of that entry is left
    empty, and the entries behind it are not imported. *)
Theorem import_duplicate_id_empties_table ess table records rest a d s :
  table ∈ TABLES → db a = Some d → d !! table = Some s →
  Forall (λ r, truthy (getp r "id") = true ∧ valid_key (getp r "id") = true) records →
  ¬ NoDup ((λ r, getp r "id") <$> records) →
  import_ ess ((table, records) :: rest) a
  = (Err (DOMException "ConstraintError"),
     mkIDB (Some (<[table := ∅]> d)) (deviceId a)).
Proof.
  intros Ht Hd Hs Hrecords Hdup.
  rewrite (import_cons _ _ _ _ _ Ht), clear_unfold, Hd, Hs.
  assert ((0 <? Z.of_nat (length records)) = true) as ->.
  { destruct records; [destruct Hdup; constructor | done]. }
  rewrite bulkCreate_unfold. simpl. rewrite lookup_insert_eq.
  set (stampedRecords := imap _ records).
  assert ((λ r, getp r "id") <$> stampedRecords = (λ r, getp r "id") <$> records) as Hids.
  { apply imap_ids. eapply Forall_impl; [exact Hrecords|]. by intros r [? ?]. }
  assert (Forall (λ r, valid_key (getp r "id") = true) stampedRecords) as Hvalid.
  { apply Forall_fmap with (f := λ r, getp r "id") (P := λ k, valid_key k = true).
    rewrite Hids. apply Forall_fmap. eapply Forall_impl; [exact Hrecords|].
    by intros r [? ?]. }
  rewrite (find_invalid_none _ Hvalid).
  destruct (add_all table ∅ stampedRecords) as [s'|e] eqn:Hadd.
  - destruct Hdup. rewrite <- Hids. by destruct (add_all_inv _ _ _ _ Hvalid Hadd).
  - by rewrite (add_all_error _ _ _ _ Hvalid Hadd).
Qed.
End ImportMore.

Lemma import_writes_named_tables_witness :
  stored (import_ (JS := sample_runtime) (λ _, sample_env)
            [("products", [sample_record "p1" "Mesa" 1])] sample_local).2
         "clients" (VStr "a")
  = stored sample_local "clients" (VStr "a").
Proof.
  apply (import_writes_named_tables (JS := sample_runtime)
           [("products", [sample_record "p1" "Mesa" 1])] (λ _, sample_env) sample_local
           (import_ (JS := sample_runtime) (λ _, sample_env)
              [("products", [sample_record "p1" "Mesa" 1])] sample_local).1).
  - apply surjective_pairing.
  - right. simpl. intros Hin. apply list_elem_of_singleton in Hin. discriminate.
Defined.

Lemma import_duplicate_id_empties_table_witness :
  import_ (JS := sample_runtime) (λ _, sample_env)
    [("clients", [sample_record "x" "Xica" 1; sample_record "x" "Xavier" 1])] sample_local
  = (Err (DOMException "ConstraintError"),
     mkIDB (Some (<["clients" := ∅]> sample_database)) "device_a").
Proof.
  apply (import_duplicate_id_empties_table (JS := sample_runtime) (λ _, sample_env)
           "clients" [sample_record "x" "Xica" 1; sample_record "x" "Xavier" 1] []
           sample_local sample_database sample_clients).
  - apply (bool_decide_unpack _). vm_compute. exact I.
  - reflexivity.
  - apply lookup_insert_eq.
  - repeat constructor.
  - intros Hnd. apply NoDup_cons in Hnd as [Hnotin _]. apply Hnotin.
    apply list_elem_of_singleton. vm_compute. reflexivity.
Defined.

(** ** A pass, the queue and the hook *)

Section PassProperties.
Context `{JS : Runtime} {R : Type} `{RA : IStorageAdapter R}.
Variable env : nat → Env.
Variable quota : list SyncOperation → bool.

(** The push phase, whatever the ids of the queue. *)
Lemma processPendingOperations_cases (st : SyncManager R) r :
  remoteAdapter st = Some r →
  let marks := push_marks (pendingOperations st) r in
  let queue := filter (λ op, op_id op ∉ marked_ids marks) marks.*1 in
  let st1 := set_pendingOperations queue
               (set_remoteAdapter (Some (push_spec (pendingOperations st) r).2) st) in
  processPendingOperations quota st
  = if quota queue then (Ok tt, set_saved queue st1)
    else (Err (DOMException "QuotaExceededError"), st1).
Proof.
  intros Hr marks queue st1. unfold processPendingOperations. rewrite Hr.
  unfold bind at 1.
  rewrite (push_loop_run _ O [] st [] r); [|done..]. simpl.
  unfold modify, bind, savePendingOperations. simpl. fold marks. fold queue.
  by destruct (quota queue).
Qed.

Lemma syncTable_ok table (st : SyncManager R) : (syncTable env table st).1 = Ok tt.
Proof.
  unfold syncTable, try_catch. by destruct (syncTable_try env table st) as [[[]|e] st1].
Qed.

Lemma forEach_syncTable_ok tables : ∀ st : SyncManager R,
  (forEach (syncTable env) tables st).1 = Ok tt.
Proof.
  induction tables as [|t ts IH]; intros st; simpl; [done|].
  unfold bind. pose proof (syncTable_ok t st) as Ht.
  destruct (syncTable env t st) as [[[]|e] st1]; [apply IH | done].
Qed.

Lemma syncFromRemote_ok (st : SyncManager R) : (syncFromRemote env st).1 = Ok tt.
Proof.
  unfold syncFromRemote. destruct (remoteAdapter st); [apply forEach_syncTable_ok | done].
Qed.

Lemma guard_remote (st : SyncManager R) :
  guard st = false → ∃ r, remoteAdapter st = Some r.
Proof.
  unfold guard. destruct (isSyncing st); [done|].
  destruct (remoteAdapter st) as [r|]; [by exists r|].
  intros Hg. exfalso. by rewrite bool_decide_eq_false_2 in Hg by (by intros [? ?]).
Qed.

(** The body of a pass that got past the guard. *)
Lemma pass_body_run (st1 : SyncManager R) r :
  remoteAdapter st1 = Some r →
  let marks := push_marks (pendingOperations st1) r in
  let queue := filter (λ op, op_id op ∉ marked_ids marks) marks.*1 in
  let st2 := set_pendingOperations queue
               (set_remoteAdapter (Some (push_spec (pendingOperations st1) r).2) st1) in
  try_catch
    (processPendingOperations quota ;;;
     syncFromRemote env ;;;
     e <- readEnv env ;;
     modify (set_lastSyncTime (Some (clock e))))
    (λ _, ret tt) st1
  = if quota queue
    then let st3 := (syncFromRemote env (set_saved queue st2)).2 in
         (Ok tt, set_lastSyncTime (Some (clock (env (reads st3))))
                   (set_reads (S (reads st3)) st3))
    else (Ok tt, st2).
Proof.
  intros Hr marks queue st2. unfold try_catch. unfold bind at 1.
  rewrite (processPendingOperations_cases st1 r Hr). cbn zeta.
  fold marks. fold queue. fold st2.
  destruct (quota queue); [|done].
  unfold bind at 1. pose proof (syncFromRemote_ok (set_saved queue st2)) as Hpull.
  destruct (syncFromRemote env (set_saved queue st2)) as [[[]|e] st3];
    [|simpl in Hpull; discriminate].
  done.
Qed.

(** X18. A pass that gets past the guard records its time when the queue
    could be persisted, and only then. When [localStorage] accepts the
    queue, [lastSyncTime] becomes the last clock reading of the pass,
    whatever the remote answered, even if every remote call failed. When
    it refuses, the pass stops behind the push phase: the local store,
    the conflicts and [lastSyncTime] are as before. With a remote adapter
    [performFullSync] is [triggerSync]. *)
Theorem pass_records_time (st : SyncManager R) :
  guard st = false →
  let st' := (triggerSync env quota st).2 in
  ((∀ q, quota q = true) →
   ∃ n, reads st' = S n ∧ lastSyncTime st' = Some (clock (env n))) ∧
  ((∀ q, quota q = false) →
   lastSyncTime st' = lastSyncTime st ∧ localAdapter st' = localAdapter st ∧
   conflicts st' = conflicts st ∧ reads st' = reads st) ∧
  performFullSync env quota st = triggerSync env quota st.
Proof.
  intros Hg st'. unfold st'. destruct (guard_remote st Hg) as [r Hr].
  split_and!; [| |by unfold performFullSync; rewrite Hr].
  - rewrite triggerSync_unfold, Hg.
    cbn zeta. rewrite (pass_body_run (set_isSyncing true st) r Hr). cbn zeta.
    intros Hq. rewrite Hq. cbn [snd]. eexists. split; reflexivity.
  - rewrite triggerSync_unfold, Hg.
    cbn zeta. rewrite (pass_body_run (set_isSyncing true st) r Hr). cbn zeta.
    intros Hq. rewrite Hq. done.
Qed.

Lemma push_marks_elem ops : ∀ (r : R) m,
  m ∈ push_marks ops r →
  m.2 = true ∨
  ∃ op, op ∈ ops ∧ m.1 = bump op ∧ op_retries (bump op) ≤ 3.
Proof.
  induction ops as [|op rest IH]; intros r m; [by intros ?%elem_of_nil|].
  rewrite push_marks_cons. intros [->|Hm]%elem_of_cons.
  - destruct (remote_call op r).1; [by left|]. simpl.
    destruct (Z.ltb_spec 3 (op_retries op + 1)); [by left|].
    right. exists op. split; [by left|]. split; [done|]. simpl. lia.
  - destruct (IH _ _ Hm) as [?|(op' & Hin & ? & ?)]; [by left|].
    right. exists op'. split; [by right | done].
Qed.

(** X19. Whatever the ids in the queue, the push phase never reorders the
    queue and never adds to it: the ids of the queue afterwards are a
    subsequence of the ids before. Every operation it leaves is a queued
    operation whose replay failed, with its retry count incremented and at
    most 3. The local adapter is not touched, and when the phase resolves
    the persisted queue is the queue in memory. *)
Theorem push_keeps_order (st : SyncManager R) r :
  remoteAdapter st = Some r →
  let st' := (processPendingOperations quota st).2 in
  op_id <$> pendingOperations st' `sublist_of` op_id <$> pendingOperations st ∧
  (∀ op', op' ∈ pendingOperations st' →
          ∃ op, op ∈ pendingOperations st ∧ op' = bump op ∧ op_retries op' ≤ 3) ∧
  localAdapter st' = localAdapter st ∧
  ((processPendingOperations quota st).1 = Ok tt → saved st' = pendingOperations st').
Proof.
  intros Hr st'. unfold st'. rewrite (processPendingOperations_cases st r Hr).
  cbn zeta. set (marks := push_marks (pendingOperations st) r).
  set (queue := filter (λ op, op_id op ∉ marked_ids marks) marks.*1).
  assert (pendingOperations
            (if quota queue
             then (Ok tt, set_saved queue (set_pendingOperations queue
                     (set_remoteAdapter (Some (push_spec (pendingOperations st) r).2) st)))
             else (Err (DOMException "QuotaExceededError"),
                   set_pendingOperations queue
                     (set_remoteAdapter (Some (push_spec (pendingOperations st) r).2) st))).2
          = queue) as Hqueue by (by destruct (quota queue)).
  rewrite Hqueue. split_and!.
  - rewrite <- (push_marks_ids (pendingOperations st) r). fold marks.
    assert ((λ m : SyncOperation * bool, op_id m.1) <$> marks = op_id <$> marks.*1) as ->
      by (by rewrite <- list_fmap_compose).
    apply fmap_sublist, sublist_filter.
  - intros op' Hop. unfold queue in Hop.
    apply list_elem_of_filter in Hop as [Hunmarked Hin].
    apply list_elem_of_fmap in Hin as (m & -> & Hm).
    destruct (push_marks_elem _ _ _ Hm) as [Hmarked|(op & Hin & Hb & Hle)].
    + destruct Hunmarked. unfold marked_ids. apply list_elem_of_fmap.
      exists m. split; [done|]. by apply list_elem_of_filter.
    + exists op. split; [done|]. split; [done|]. by rewrite Hb.
  - by destruct (quota queue).
  - by destruct (quota queue).
Qed.

Lemma addPendingOperation_offline (st : SyncManager R) table kind data :
  offline st →
  let op := mkOp (generateId (env (reads st))) table kind data
                 (toISOString (clock (env (reads st)))) 0 in
  let queue := (pendingOperations st ++ [op])%list in
  let st1 := set_pendingOperations queue (set_reads (S (reads st)) st) in
  addPendingOperation env quota table kind data st
  = if quota queue then (Ok tt, set_saved queue st1)
    else (Err (DOMException "QuotaExceededError"), st1).
Proof.
  intros Hoff op queue st1. unfold addPendingOperation, readEnv.
  unfold bind, modify, savePendingOperations. simpl. fold op. fold queue. fold st1.
  destruct (quota queue); [|done]. simpl.
  assert (isOnline st && bool_decide (is_Some (remoteAdapter st)) = false) as ->; [|done].
  destruct Hoff as [-> | ->]; [done|].
  rewrite bool_decide_eq_false_2 by (by intros [? ?]). apply andb_false_r.
Qed.

Lemma addPendingOperation_queued (st : SyncManager R) table kind data st' :
  offline st →
  addPendingOperation env quota table kind data st = (Ok tt, st') →
  queued table kind data st st' ∧ localAdapter st' = localAdapter st.
Proof.
  intros Hoff. rewrite (addPendingOperation_offline st table kind data Hoff). cbn zeta.
  destruct (quota _); [|done]. intros [= <-]. split; [|done].
  eexists. split; [reflexivity|]. done.
Qed.

Lemma addPendingOperation_error (st : SyncManager R) table kind data e st' :
  addPendingOperation env quota table kind data st = (Err e, st') →
  e = DOMException "QuotaExceededError".
Proof.
  unfold addPendingOperation, readEnv. unfold bind, modify, savePendingOperations. simpl.
  destruct (quota _); [|by intros [= <-]].
  destruct (_ && _); [|done].
  pose proof (triggerSync_unfold env quota) as Hu.
  intros Hrun. exfalso. revert Hrun.
  match goal with |- triggerSync env quota ?s = _ → _ => rewrite (Hu s) end.
  destruct (guard _); [done|]. cbn zeta. unfold try_catch.
  by destruct (bind _ _ _) as [[[]|?] ?].
Qed.

Lemma create_ok_stored e table data a r a' :
  create e table data a = (Ok r, a') → stored a' table (getp r "id") = Some r.
Proof.
  rewrite create_unfold.
  destruct (db a) as [d|]; [|done].
  destruct (d !! table) as [s|]; [|done].
  destruct (store_add _ _ _) as [s'|] eqn:Hadd; [|done].
  intros [= <- <-]. apply store_add_inv in Hadd as (-> & _).
  rewrite stored_commit, decide_True by done. apply lookup_insert_eq.
Qed.

Lemma update_ok_stored e table id data a r a' :
  update e table id data a = (Ok r, a') → stored a' table (getp r "id") = Some r.
Proof.
  intros (d & s & ex & _ & _ & _ & _ & _ & ->)%update_inv.
  rewrite stored_commit, decide_True by done. apply lookup_insert_eq.
Qed.

Lemma create_err_state e table data a err a' :
  create e table data a = (Err err, a') → a' = a.
Proof.
  rewrite create_unfold.
  destruct (db a) as [d|]; [|by intros [= _ <-]].
  destruct (d !! table) as [s|]; [|by intros [= _ <-]].
  destruct (store_add _ _ _); [done | by intros [= _ <-]].
Qed.

Lemma delete_err_state table id a err a' :
  delete_ table id a = (Err err, a') → a' = a.
Proof.
  rewrite delete_unfold.
  destruct (db a) as [d|]; [|by intros [= _ <-]].
  destruct (d !! table) as [s|]; [|by intros [= _ <-]].
  destruct (valid_key id); [done | by intros [= _ <-]].
Qed.

Lemma queued_after_local (st s1 st2 : SyncManager R) table kind data :
  pendingOperations s1 = pendingOperations st →
  queued table kind data s1 st2 → queued table kind data st st2.
Proof. intros Hsame (op & Hq & Hrest). exists op. by rewrite <- Hsame. Qed.

Lemma onSyncManager_inv {A} (m : M (SyncManager R) A) (mg : StorageManager R) r mg' :
  onSyncManager m mg = (r, mg') → m (syncManager mg) = (r, syncManager mg').
Proof.
  unfold onSyncManager. destruct (m (syncManager mg)) as [r0 st0]. by intros [= <- <-].
Qed.

(** X20. Through [useStorageOperations], while there is no remote to talk
    to: a [create] or [update] that resolves has stored the record it
    returns and has added one operation to the end of the queue, of that
    kind, for that table, carrying that record, not yet retried, and the
    queue is persisted; a [remove] that resolves has deleted the record
    and queued a delete of [{ id }]. A call that rejects for another
    reason than the quota of [localStorage] has written nothing and queued
    nothing. *)
Theorem hook_writes_queue_intent (mg : StorageManager R) :
  offline (syncManager mg) →
  (∀ table data r mg',
     ops_create env quota table data mg = (Ok r, mg') →
     stored (localAdapter (syncManager mg')) table (getp r "id") = Some r ∧
     queued table op_create r (syncManager mg) (syncManager mg')) ∧
  (∀ table id data r mg',
     ops_update env quota table id data mg = (Ok r, mg') →
     stored (localAdapter (syncManager mg')) table (getp r "id") = Some r ∧
     queued table op_update r (syncManager mg) (syncManager mg')) ∧
  (∀ table id mg',
     ops_remove env quota table id mg = (Ok tt, mg') →
     stored (localAdapter (syncManager mg')) table id = None ∧
     queued table op_delete {[ "id" := id ]} (syncManager mg) (syncManager mg')) ∧
  (∀ table data e mg',
     ops_create env quota table data mg = (Err e, mg') →
     e ≠ DOMException "QuotaExceededError" →
     pendingOperations (syncManager mg') = pendingOperations (syncManager mg) ∧
     localAdapter (syncManager mg') = localAdapter (syncManager mg)) ∧
  (∀ table id data e mg',
     ops_update env quota table id data mg = (Err e, mg') →
     e ≠ DOMException "QuotaExceededError" →
     pendingOperations (syncManager mg') = pendingOperations (syncManager mg) ∧
     localAdapter (syncManager mg') = localAdapter (syncManager mg)) ∧
  (∀ table id e mg',
     ops_remove env quota table id mg = (Err e, mg') →
     e ≠ DOMException "QuotaExceededError" →
     pendingOperations (syncManager mg') = pendingOperations (syncManager mg) ∧
     localAdapter (syncManager mg') = localAdapter (syncManager mg)).
Proof.
  intros Hoff. set (st := syncManager mg) in *.
  assert (∀ a, offline (set_localAdapter a (set_reads (S (reads st)) st))) as Hoff1.
  { intros a. exact Hoff. }
  assert (∀ a, offline (set_localAdapter a st)) as Hoff2.
  { intros a. exact Hoff. }
  split_and!.
  - intros table data r mg' Hrun%onSyncManager_inv. fold st in Hrun.
    apply bind_inv_ok in Hrun as (r1 & s1 & Hlocal & Hrest).
    apply bind_inv_ok in Hrest as ([] & st2 & Hadd & [= <- <-]).
    unfold localCreate, readEnv, bind, onLocal in Hlocal. cbn [reads localAdapter set_reads] in Hlocal.
    destruct (create _ _ _ _) as [res a1] eqn:Hcreate. injection Hlocal as -> <-.
    destruct (addPendingOperation_queued _ _ _ _ _ (Hoff1 a1) Hadd) as [Hq Hl].
    split; [|by eapply queued_after_local; [|exact Hq]].
    rewrite Hl. by eapply create_ok_stored.
  - intros table id data r mg' Hrun%onSyncManager_inv. fold st in Hrun.
    apply bind_inv_ok in Hrun as (r1 & s1 & Hlocal & Hrest).
    apply bind_inv_ok in Hrest as ([] & st2 & Hadd & [= <- <-]).
    unfold localUpdate, readEnv, bind, onLocal in Hlocal. cbn [reads localAdapter set_reads] in Hlocal.
    destruct (update _ _ _ _ _) as [res a1] eqn:Hupdate. injection Hlocal as -> <-.
    destruct (addPendingOperation_queued _ _ _ _ _ (Hoff1 a1) Hadd) as [Hq Hl].
    split; [|by eapply queued_after_local; [|exact Hq]].
    rewrite Hl. by eapply update_ok_stored.
  - intros table id mg' Hrun%onSyncManager_inv. fold st in Hrun.
    apply bind_inv_ok in Hrun as ([] & s1 & Hlocal & Hadd).
    unfold onLocal in Hlocal.
    destruct (delete_ _ _ _) as [res a1] eqn:Hdelete. injection Hlocal as -> <-.
    destruct (addPendingOperation_queued _ _ _ _ _ (Hoff2 a1) Hadd) as [Hq Hl].
    split; [|by eapply queued_after_local; [|exact Hq]].
    rewrite Hl. by eapply delete_done.
  - intros table data e mg' Hrun%onSyncManager_inv Hne. fold st in Hrun.
    unfold bind at 1 in Hrun.
    destruct (localCreate env table data st) as [[r1|e1] s1] eqn:Hlocal.
    + unfold bind in Hrun.
      destruct (addPendingOperation _ _ _ _ _ s1) as [[[]|e2] s2] eqn:Hadd; [done|].
      injection Hrun as <- _. by apply addPendingOperation_error in Hadd.
    + injection Hrun as <- <-.
      unfold localCreate, readEnv, bind, onLocal in Hlocal.
      cbn [reads localAdapter set_reads] in Hlocal.
      destruct (create _ _ _ _) as [res a1] eqn:Hcreate. injection Hlocal as -> <-.
      by rewrite (create_err_state _ _ _ _ _ _ Hcreate).
  - intros table id data e mg' Hrun%onSyncManager_inv Hne. fold st in Hrun.
    unfold bind at 1 in Hrun.
    destruct (localUpdate env table id data st) as [[r1|e1] s1] eqn:Hlocal.
    + unfold bind in Hrun.
      destruct (addPendingOperation _ _ _ _ _ s1) as [[[]|e2] s2] eqn:Hadd; [done|].
      injection Hrun as <- _. by apply addPendingOperation_error in Hadd.
    + injection Hrun as <- <-.
      unfold localUpdate, readEnv, bind, onLocal in Hlocal.
      cbn [reads localAdapter set_reads] in Hlocal.
      destruct (update _ _ _ _ _) as [res a1] eqn:Hupdate. injection Hlocal as -> <-.
      by rewrite (update_err_state _ _ _ _ _ _ _ Hupdate).
  - intros table id e mg' Hrun%onSyncManager_inv Hne. fold st in Hrun.
    unfold bind at 1 in Hrun.
    destruct (onLocal (delete_ table id) st) as [[[]|e1] s1] eqn:Hlocal.
    + by apply addPendingOperation_error in Hrun.
    + injection Hrun as <- <-. unfold onLocal in Hlocal.
      destruct (delete_ _ _ _) as [res a1] eqn:Hdelete. injection Hlocal as -> <-.
      by rewrite (delete_err_state _ _ _ _ _ Hdelete).
Qed.
(** X21. The queue survives a restart: after [addPendingOperation],
    the push phase or [clearPendingOperations] resolved, a synchroniser
    constructed over the same [localStorage] starts with the queue as it
    was left (empty after [clearPendingOperations]). When one of them
    rejects, the persisted queue is still the one from before. *)
Theorem queue_survives_restart (st : SyncManager R) :
  let restart (st' : SyncManager R) online :=
    new_SyncManager online (saved st') (localAdapter st') (remoteAdapter st')
                    (strategy st') in
  (∀ table kind data st',
     offline st →
     addPendingOperation env quota table kind data st = (Ok tt, st') →
     ∀ online, pendingOperations (restart st' online) = pendingOperations st') ∧
  (∀ r st',
     remoteAdapter st = Some r →
     processPendingOperations quota st = (Ok tt, st') →
     ∀ online, pendingOperations (restart st' online) = pendingOperations st') ∧
  (∀ st',
     clearPendingOperations quota st = (Ok tt, st') →
     pendingOperations st' = [] ∧
     ∀ online, pendingOperations (restart st' online) = []) ∧
  (∀ table kind data e st',
     offline st →
     addPendingOperation env quota table kind data st = (Err e, st') →
     saved st' = saved st) ∧
  (∀ e st', processPendingOperations quota st = (Err e, st') → saved st' = saved st) ∧
  (∀ e st', clearPendingOperations quota st = (Err e, st') → saved st' = saved st).
Proof.
  intros restart. split_and!.
  - intros table kind data st' Hoff.
    rewrite (addPendingOperation_offline st table kind data Hoff). cbn zeta.
    destruct (quota _); [|done]. by intros [= <-].
  - intros r st' Hr. rewrite (processPendingOperations_cases st r Hr). cbn zeta.
    destruct (quota _); [|done]. by intros [= <-].
  - intros st'. unfold clearPendingOperations, bind, modify, savePendingOperations.
    cbn [pendingOperations set_pendingOperations].
    destruct (quota []); [|done]. by intros [= <-].
  - intros table kind data e st' Hoff.
    rewrite (addPendingOperation_offline st table kind data Hoff). cbn zeta.
    destruct (quota _); [done|]. by intros [= _ <-].
  - intros e st'. destruct (remoteAdapter st) as [r|] eqn:Hr.
    + rewrite (processPendingOperations_cases st r Hr). cbn zeta.
      destruct (quota _); [done|]. by intros [= _ <-].
    + unfold processPendingOperations. by rewrite Hr.
  - intros e st'. unfold clearPendingOperations, bind, modify, savePendingOperations.
    cbn [pendingOperations set_pendingOperations].
    destruct (quota []); [done|]. by intros [= _ <-].
Qed.
End PassProperties.

Lemma pass_records_time_witness :
  let st' := (triggerSync (JS := sample_runtime) (RA := memory_adapter)
                sample_env (λ _, true) sample_pull).2 in
  ∃ n, reads st' = S n ∧ lastSyncTime st' = Some (clock (sample_env n)).
Proof.
  intros st'.
  destruct (pass_records_time (JS := sample_runtime) (RA := memory_adapter)
              sample_env (λ _, true) sample_pull) as (Hstamp & _).
  - reflexivity.
  - apply Hstamp. intros q. reflexivity.
Defined.

Lemma push_keeps_order_witness :
  let st' := (processPendingOperations (RA := refusing_adapter) (λ _, true)
                (sample_queue 0)).2 in
  op_id <$> pendingOperations st' `sublist_of` op_id <$> pendingOperations (sample_queue 0) ∧
  localAdapter st' = sample_local.
Proof.
  intros st'.
  destruct (push_keeps_order (RA := refusing_adapter) (λ _, true) (sample_queue 0)
              {[ "clients" := [sample_record "b" "Bia" 1] ]}) as (Hsub & _ & Hlocal & _).
  - reflexivity.
  - split; [exact Hsub | exact Hlocal].
Defined.

Lemma hook_writes_queue_intent_witness :
  let run := ops_create (JS := sample_runtime) (RA := unreachable_adapter)
               sample_env (λ _, true) "clients" (sample_client "Ana") sample_manager in
  is_ok run.1 = true ∧
  queued "clients" op_create (result_value ∅ run.1)
         (syncManager sample_manager) (syncManager run.2).
Proof.
  intros run. split; [vm_compute; reflexivity|].
  destruct (hook_writes_queue_intent (JS := sample_runtime) (RA := unreachable_adapter)
              sample_env (λ _, true) sample_manager) as (Hcreate & _).
  - right. reflexivity.
  - apply (Hcreate "clients" (sample_client "Ana") (result_value ∅ run.1) run.2).
    apply (run_ok run). vm_compute. reflexivity.
Defined.

Lemma queue_survives_restart_witness :
  let st := syncManager sample_manager in
  let run := addPendingOperation (JS := sample_runtime) (RA := unreachable_adapter)
               sample_env (λ _, true) "clients" op_delete {[ "id" := VStr "a" ]} st in
  is_ok run.1 = true ∧
  pendingOperations (new_SyncManager false (saved run.2) (localAdapter run.2)
                       (remoteAdapter run.2) (strategy run.2))
  = pendingOperations run.2.
Proof.
  intros st run. split; [vm_compute; reflexivity|].
  destruct (queue_survives_restart (JS := sample_runtime) (RA := unreachable_adapter)
              sample_env (λ _, true) st) as (Hadd & _).
  apply (Hadd "clients" op_delete {[ "id" := VStr "a" ]} run.2).
  - right. reflexivity.
  - apply (run_ok_unit run). vm_compute. reflexivity.
Defined.

(** ** What the pull phase brings in *)

Lemma mapById_is_Some (rs : list record) r :
  r ∈ rs → is_Some (mapById rs !! getp r "id").
Proof.
  unfold mapById. induction rs as [|x rs IH] using rev_ind; [by intros ?%elem_of_nil|].
  rewrite foldl_app. simpl. intros [Hr|Hr%list_elem_of_singleton]%elem_of_app.
  - apply lookup_insert_is_Some'. right. by apply IH.
  - subst x. apply lookup_insert_is_Some'. by left.
Qed.

Section PullMore.
Context `{JS : Runtime} {R : Type} `{RA : IStorageAdapter R}.
Variable env : nat → Env.

Lemma create_ok_id e table data a r a' :
  create e table data a = (Ok r, a') → truthy (getp data "id") = true →
  getp r "id" = getp data "id" ∧ carries data r ∧ getp r "_sync_status" = VStr "pending".
Proof.
  rewrite create_unfold.
  destruct (db a) as [d|]; [|done].
  destruct (d !! table) as [s|]; [|done].
  destruct (store_add _ _ _) as [s'|]; [|done].
  intros [= <- <-] Hid. split_and!.
  - rewrite addMetadata_id. by apply truthy_or.
  - intros f v Hf Hv. by rewrite addMetadata_other.
  - apply addMetadata_sync_status.
Qed.

Lemma localCreate_inv table data (st : SyncManager R) r st' :
  localCreate env table data st = (Ok r, st') →
  ∃ e a', create e table data (localAdapter st) = (Ok r, a') ∧ localAdapter st' = a'.
Proof.
  unfold localCreate, readEnv, bind, onLocal. cbn [reads localAdapter set_reads].
  destruct (create _ _ _ _) as [res a1] eqn:Hcreate. intros [= -> <-].
  by exists (env (reads st)), a1.
Qed.

Lemma localUpdate_inv table id data (st : SyncManager R) r st' :
  localUpdate env table id data st = (Ok r, st') →
  ∃ e a', update e table id data (localAdapter st) = (Ok r, a') ∧ localAdapter st' = a'.
Proof.
  unfold localUpdate, readEnv, bind, onLocal. cbn [reads localAdapter set_reads].
  destruct (update _ _ _ _ _) as [res a1] eqn:Hupdate. intros [= -> <-].
  by exists (env (reads st)), a1.
Qed.

(** The deletion rule leaves a key that the remote lists. *)
Lemma prune_record_keeps_listed (I : IndexedDBAdapter → Prop) table k remoteMap lr :
  is_Some (remoteMap !! k) →
  (∀ id, id ≠ k → preserves (keeps I) (delete_ table id)) →
  preserves (on_local (R := R) (keeps I)) (prune_record table remoteMap lr).
Proof.
  intros Hk Hdelete st r st'. unfold prune_record.
  destruct (negb _ && bool_decide _) eqn:Hb.
  - apply andb_true_iff in Hb as [Hb _]. apply negb_true_iff in Hb.
    apply bool_decide_eq_false_1 in Hb.
    apply onLocal_on_local, Hdelete. by intros Heq; rewrite Heq in Hb.
  - intros [= <- <-]. reflexivity.
Qed.

Lemma present_kept_by_create table k e t d :
  preserves (keeps (λ a, is_Some (stored a table k))) (create e t d).
Proof. intros a r a' Hrun [rec Hrec]. exists rec. by eapply create_stored. Qed.

Lemma present_kept_by_update table k e t id d :
  preserves (keeps (λ a, is_Some (stored a table k))) (update e t id d).
Proof. intros a r a' Hrun Hrec. by eapply update_present. Qed.

Lemma present_kept_by_delete table k id :
  id ≠ k → preserves (keeps (λ a, is_Some (stored a table k))) (delete_ table id).
Proof.
  intros Hne a r a' Hrun Hrec.
  rewrite (delete_stored_other _ _ _ _ _ table k Hrun); [done | by right].
Qed.

(** X22. After the pull of a table ran to its end, every record the remote
    listed with a truthy id has a local copy under that id, under every
    strategy. *)
Theorem pull_brings_remote_records table (st : SyncManager R) r0 remoteRecords r1 st' :
  idb_ok (localAdapter st) →
  remoteAdapter st = Some r0 →
  adapter_list table None r0 = (Ok remoteRecords, r1) →
  syncTable_try env table st = (Ok tt, st') →
  ∀ rr, rr ∈ remoteRecords → truthy (getp rr "id") = true →
        is_Some (stored (localAdapter st') table (getp rr "id")).
Proof.
  intros Hok Hr Hlist Hrun rr Hrr Htruthy. set (k := getp rr "id").
  destruct (syncTable_try_cases env table st)
    as [(e & st1 & Herr & _)|(rs' & d & s & st1 & Hd & Hs & _ & _)];
    [by rewrite Herr in Hrun|].
  rewrite (syncTable_try_lists env table st r0 remoteRecords r1 d s Hr Hlist Hd Hs) in Hrun.
  pose proof (idb_ok_store _ _ _ _ Hok Hd Hs) as [Hin _].
  set (I := λ a, is_Some (stored a table k)).
  assert (∀ x, preserves (on_local (R := R) (keeps I))
                 (pull_record env table (mapById (getAll s)) x)) as Hpull.
  { intros x. apply pull_record_keeps.
    - intros. apply present_kept_by_create.
    - intros. apply present_kept_by_update. }
  assert (∀ lr, preserves (on_local (R := R) (keeps I))
                  (prune_record table (mapById remoteRecords) lr)) as Hprune.
  { intros lr. apply (prune_record_keeps_listed I table k).
    - by apply mapById_is_Some.
    - intros id Hid. by apply present_kept_by_delete. }
  destruct (mapById (getAll s) !! k) as [lr|] eqn:Hlocal.
  - (* the record was there already *)
    apply mapById_lookup_Some in Hlocal as [[k' Hk']%elem_of_getAll Hid].
    destruct (Hin _ _ Hk') as [Hid' _]. rewrite Hid in Hid'. subst k'.
    eapply (loops_keep env I); [by intros | by intros | exact Hrun |].
    unfold I. simpl. rewrite (stored_eq _ d table s) by done. by eexists.
  - (* it is created when its turn comes *)
    apply bind_inv_ok in Hrun as ([] & st2 & Hloop & Hrest).
    apply list_elem_of_split in Hrr as (l1 & l2 & ->).
    apply forEach_ok_split in Hloop as (s1 & s2 & _ & Hone & Hl2).
    assert (I (localAdapter s2)) as Hthere.
    { unfold pull_record in Hone. fold k in Hone. rewrite Hlocal in Hone.
      apply bind_inv_ok in Hone as (r & s2' & Hcreate & [= <-]).
      apply localCreate_inv in Hcreate as (e & a' & Hcreate & ->).
      destruct (create_ok_id _ _ _ _ _ _ Hcreate Htruthy) as [Hid _].
      unfold I. fold k in Hid. rewrite <- Hid. eexists. by eapply create_ok_stored. }
    assert (preserves (on_local (R := R) (keeps I))
              (forEach (pull_record env table (mapById (getAll s))) l2)) as Hk2.
    { apply preserves_forEach; [apply _ | by intros]. }
    assert (preserves (on_local (R := R) (keeps I))
              (forEach (prune_record table (mapById (l1 ++ rr :: l2))) (getAll s))) as Hk3.
    { apply preserves_forEach; [apply _ | by intros]. }
    apply (Hk3 _ _ _ Hrest). by apply (Hk2 _ _ _ Hl2).
Qed.
End PullMore.

Lemma sample_listing_listed :
  adapter_list (IStorageAdapter := memory_adapter) "clients" None
    {[ "clients" := sample_listing ]}
  = (Ok sample_listing, {[ "clients" := sample_listing ]}).
Proof.
  cbv [adapter_list memory_adapter gets]. by rewrite lookup_singleton_eq.
Qed.

Lemma pull_brings_remote_records_witness :
  let run := syncTable_try (JS := sample_runtime) (RA := memory_adapter)
               sample_env "clients" sample_remote_wins in
  is_ok run.1 = true ∧
  stored sample_local "clients" (VStr "n") = None ∧
  is_Some (stored (localAdapter run.2) "clients" (VStr "n")).
Proof.
  intros run. split; [vm_compute; reflexivity|]. split; [vm_compute; reflexivity|].
  refine (pull_brings_remote_records (JS := sample_runtime) (RA := memory_adapter)
            sample_env "clients" sample_remote_wins {[ "clients" := sample_listing ]}
            sample_listing {[ "clients" := sample_listing ]} run.2 _ _ _ _
            (sample_record "n" "Nina" 1) _ _).
  - apply (bool_decide_unpack _). vm_compute. exact I.
  - reflexivity.
  - exact sample_listing_listed.
  - apply (run_ok_unit run). vm_compute. reflexivity.
  - apply list_elem_of_further, list_elem_of_here.
  - vm_compute. reflexivity.
Defined.

Section PullFields.
Context `{JS : Runtime} {R : Type} `{RA : IStorageAdapter R}.
Variable env : nat → Env.

Lemma onLocal_same_strategy {A} (m : M IndexedDBAdapter A) :
  preserves (same_strategy (R := R)) (onLocal m).
Proof.
  intros st r st'. unfold onLocal.
  destruct (m (localAdapter st)). by intros [= <- <-].
Qed.

Lemma onRemote_same_strategy {A} (m : M R A) : preserves same_strategy (onRemote m).
Proof.
  intros st r st'. unfold onRemote.
  destruct (remoteAdapter st) as [r0|]; [|by intros [= <- <-]].
  destruct (m r0). by intros [= <- <-].
Qed.

Lemma pull_record_same_strategy table localMap x :
  preserves (same_strategy (R := R)) (pull_record env table localMap x).
Proof.
  apply pull_record_preserves; try apply _; try done.
  - intros. apply onLocal_same_strategy.
  - intros. apply onLocal_same_strategy.
  - intros. apply onRemote_same_strategy.
Qed.

Lemma resolveConflict_answers local remote (st : SyncManager R) :
  answers_remote (strategy st) local remote →
  resolveConflict env local remote st = (Ok res_remote, st).
Proof.
  unfold resolveConflict. intros [-> | [-> ->]]; done.
Qed.

(** A turn of the first loop for another id leaves the record under [k]
    as it is. *)
Lemma pull_record_other table localMap x k rec :
  getp x "id" ≠ k →
  (is_Some (localMap !! getp x "id") → truthy (getp x "id") = true) →
  preserves (on_local (R := R) (keeps (λ a, stored a table k = Some rec)))
    (pull_record env table localMap x).
Proof.
  intros Hne Htruthy. unfold pull_record.
  destruct (localMap !! getp x "id") as [lr|] eqn:Hlocal.
  - apply preserves_bind; [apply _ | |].
    { apply resolveConflict_preserves; [apply _ | |].
      - intros. apply on_local_reads. apply _.
      - intros. apply on_local_conflicts. apply _. }
    intros [| |].
    + apply preserves_bind; [apply _ | | intros; apply preserves_ret; apply _].
      apply onRemote_on_local. apply _.
    + apply preserves_bind; [apply _ | | intros; apply preserves_ret; apply _].
      apply preserves_bind; [apply _ | |].
      { apply readEnv_preserves. intros. apply on_local_reads. apply _. }
      intros e. apply onLocal_on_local. intros a r a' Hupd Hold.
      rewrite (update_stored_other _ _ _ _ _ _ _ table k Hupd); [done|].
      right. split; [|done]. apply Htruthy. by eexists.
    + apply preserves_ret; apply _.
  - apply preserves_bind; [apply _ | | intros; apply preserves_ret; apply _].
    apply preserves_bind; [apply _ | |].
    { apply readEnv_preserves. intros. apply on_local_reads. apply _. }
    intros e. apply onLocal_on_local. intros a r a' Hcreate Hold.
    by eapply create_stored.
Qed.

Lemma update_ok_carries e table id data a r a' :
  update e table id data a = (Ok r, a') → truthy id = true →
  getp r "id" = id ∧ carries data r ∧ getp r "_sync_status" = VStr "pending".
Proof.
  intros (d & s & ex & _ & _ & _ & _ & -> & _)%update_inv Hid. split_and!.
  - rewrite addMetadata_id, getp_insert_eq. by apply truthy_or.
  - intros f v Hf Hv. rewrite addMetadata_other by done.
    rewrite lookup_insert_ne by (intros <-; apply Hf; set_solver).
    by apply lookup_union_Some_l.
  - apply addMetadata_sync_status.
Qed.

(** X23. After the pull of a table ran to its end, when the remote ids are
    pairwise distinct and the strategy answers ['remote'] for a record
    (['remote-wins'], or ['newest-wins'] with a local copy that is not
    newer), the local copy under its id carries every property of the
    remote record that is not metadata, and is marked pending. *)
Theorem pull_copies_remote_fields table (st : SyncManager R) r0 remoteRecords r1 st' rr :
  idb_ok (localAdapter st) → truthy_ids (localAdapter st) →
  remoteAdapter st = Some r0 →
  adapter_list table None r0 = (Ok remoteRecords, r1) →
  NoDup ((λ r, getp r "id") <$> remoteRecords) →
  rr ∈ remoteRecords → truthy (getp rr "id") = true →
  (∀ lr, stored (localAdapter st) table (getp rr "id") = Some lr →
         answers_remote (strategy st) lr rr) →
  syncTable_try env table st = (Ok tt, st') →
  ∃ rec, stored (localAdapter st') table (getp rr "id") = Some rec ∧
         carries rr rec ∧ getp rec "_sync_status" = VStr "pending".
Proof.
  intros Hok Hids Hr Hlist Hnd Hrr Htruthy Hanswer Hrun. set (k := getp rr "id") in *.
  destruct (syncTable_try_cases env table st)
    as [(e & st1 & Herr & _)|(rs' & d & s & st1 & Hd & Hs & _ & _)];
    [by rewrite Herr in Hrun|].
  rewrite (syncTable_try_lists env table st r0 remoteRecords r1 d s Hr Hlist Hd Hs) in Hrun.
  pose proof (idb_ok_store _ _ _ _ Hok Hd Hs) as [Hin _].
  assert (∀ x lr, mapById (getAll s) !! getp x "id" = Some lr →
                  s !! getp x "id" = Some lr ∧ truthy (getp x "id") = true) as Hsnap.
  { intros x lr Hx. apply mapById_lookup_Some in Hx as [[k' Hk']%elem_of_getAll Hid].
    destruct (Hin _ _ Hk') as [Hid' _]. rewrite Hid in Hid'. subst k'. split; [done|].
    rewrite <- Hid. apply (Hids table (getp x "id") lr).
    by rewrite (stored_eq _ d table s). }
  apply bind_inv_ok in Hrun as ([] & st2 & Hloop & Hrest).
  pose proof Hrr as Hmem.
  apply list_elem_of_split in Hrr as (l1 & l2 & Hsplit). rewrite Hsplit in Hloop, Hnd.
  apply forEach_ok_split in Hloop as (s1 & s2 & Hl1 & Hone & Hl2).
  rewrite fmap_app, fmap_cons in Hnd. apply NoDup_app in Hnd as (_ & Hl1k & Hnd).
  apply NoDup_cons in Hnd as [Hl2k _]. fold k in Hl1k, Hl2k.
  (* the strategy is still the one the pass started with *)
  assert (strategy s1 = strategy st) as Hstrategy.
  { assert (preserves (same_strategy (R := R))
              (forEach (pull_record env table (mapById (getAll s))) l1)) as Hkeep.
    { apply preserves_forEach; [apply _|]. intros. apply pull_record_same_strategy. }
    apply (Hkeep _ _ _ Hl1). }
  (* the turn of [rr] writes the remote fields *)
  assert (∃ rec, stored (localAdapter s2) table k = Some rec ∧
                 carries rr rec ∧ getp rec "_sync_status" = VStr "pending")
    as (rec & Hrec & Hcarries & Hpending).
  { unfold pull_record in Hone. fold k in Hone.
    destruct (mapById (getAll s) !! k) as [lr|] eqn:Hlocal.
    - destruct (Hsnap rr lr Hlocal) as [Hlr _]. fold k in Hlr.
      unfold bind at 1 in Hone.
      rewrite resolveConflict_answers in Hone.
      2:{ rewrite Hstrategy. apply Hanswer. by rewrite (stored_eq _ d table s). }
      apply bind_inv_ok in Hone as (r & s2' & Hupdate & [= <-]).
      apply localUpdate_inv in Hupdate as (e & a' & Hupdate & ->).
      destruct (update_ok_carries _ _ _ _ _ _ _ Hupdate Htruthy) as (Hid & Hc & Hp).
      exists r. split; [|done]. rewrite <- Hid at 1. by eapply update_ok_stored.
    - apply bind_inv_ok in Hone as (r & s2' & Hcreate & [= <-]).
      apply localCreate_inv in Hcreate as (e & a' & Hcreate & ->).
      destruct (create_ok_id _ _ _ _ _ _ Hcreate Htruthy) as (Hid & Hc & Hp).
      exists r. split; [|done]. fold k in Hid. rewrite <- Hid. by eapply create_ok_stored. }
  exists rec. split; [|done].
  set (I := λ a, stored a table k = Some rec).
  assert (preserves (on_local (R := R) (keeps I))
            (forEach (pull_record env table (mapById (getAll s))) l2)) as Hk2.
  { apply preserves_forEach; [apply _|]. intros x Hx. apply pull_record_other.
    - intros Heq. apply Hl2k. apply list_elem_of_fmap. by exists x.
    - intros [lr Hlr]. by destruct (Hsnap x lr Hlr). }
  assert (preserves (on_local (R := R) (keeps I))
            (forEach (prune_record table (mapById remoteRecords)) (getAll s))) as Hk3.
  { apply preserves_forEach; [apply _|]. intros lr _.
    apply (prune_record_keeps_listed I table k).
    - by apply mapById_is_Some.
    - intros id Hid a r a' Hdelete Hold. unfold I.
      rewrite (delete_stored_other _ _ _ _ _ table k Hdelete); [done | by right]. }
  apply (Hk3 _ _ _ Hrest). by apply (Hk2 _ _ _ Hl2).
Qed.
End PullFields.

Lemma pull_copies_remote_fields_witness :
  let run := syncTable_try (JS := sample_runtime) (RA := memory_adapter)
               sample_env "clients" sample_remote_wins in
  is_ok run.1 = true ∧
  ∃ rec, stored (localAdapter run.2) "clients" (VStr "c") = Some rec ∧
         rec !! "name" = Some (VStr "Caio Lima") ∧
         getp rec "_sync_status" = VStr "pending".
Proof.
  intros run. split; [vm_compute; reflexivity|].
  destruct (pull_copies_remote_fields (JS := sample_runtime) (RA := memory_adapter)
              sample_env "clients" sample_remote_wins {[ "clients" := sample_listing ]}
              sample_listing {[ "clients" := sample_listing ]}
              run.2 (sample_record "c" "Caio Lima" 3))
    as (rec & Hrec & Hcarries & Hstatus).
  - apply (bool_decide_unpack _). vm_compute. exact I.
  - apply (bool_decide_unpack _). vm_compute. exact I.
  - reflexivity.
  - exact sample_listing_listed.
  - apply (bool_decide_unpack _). vm_compute. exact I.
  - apply list_elem_of_here.
  - vm_compute. reflexivity.
  - intros lr _. left. reflexivity.
  - apply (run_ok_unit run). vm_compute. reflexivity.
  - exists rec. split; [exact Hrec|]. split; [|exact Hstatus].
    apply (Hcarries "name"); [|vm_compute; reflexivity].
    unfold metadata_fields. rewrite !elem_of_cons, elem_of_nil.
    intros [?|[?|[?|[?|[?|[?|[]]]]]]]; discriminate.
Defined.

(** ** The storage manager *)

Section ManagerProperties.
Context `{JS : Runtime} {R : Type} `{RA : IStorageAdapter R}.
Variable env : nat → Env.
Variable quota : list SyncOperation → bool.
Variable createClient : string → string → result R.
Variable configRoom : StorageConfig → bool.

Lemma onLocal_same_remote {A} (m : M IndexedDBAdapter A) :
  preserves (same_remote (R := R)) (onLocal m).
Proof.
  intros st r st'. unfold onLocal.
  destruct (m (localAdapter st)). by intros [= <- <-].
Qed.

Lemma onRemote_same_remote {A} (m : M R A) : preserves same_remote (onRemote m).
Proof.
  intros st r st'. unfold onRemote, same_remote.
  destruct (remoteAdapter st) as [r0|] eqn:Hr; [|intros [= <- <-]; by rewrite Hr].
  destruct (m r0). intros [= <- <-]. simpl. split; by eexists.
Qed.

Lemma triggerSync_same_remote : preserves same_remote (triggerSync env quota).
Proof.
  intros st r st'. rewrite triggerSync_unfold.
  destruct (guard st); [by intros [= <- <-]|]. cbn zeta. intros [= <- <-].
  assert (preserves same_remote
            (try_catch
               (processPendingOperations quota ;;;
                syncFromRemote env ;;;
                e <- readEnv env ;;
                modify (set_lastSyncTime (Some (clock e))))
               (λ _, ret tt))) as Hbody.
  { apply pass_body_preserves; try apply _; try done.
    - intros. apply onLocal_same_remote.
    - intros. apply onLocal_same_remote.
    - intros. apply onLocal_same_remote.
    - intros. apply onLocal_same_remote.
    - intros. apply onRemote_same_remote. }
  unfold same_remote. cbn [remoteAdapter set_isSyncing].
  apply (Hbody (set_isSyncing true st) _ _ (surjective_pairing _)).
Qed.

Lemma manager_ok_frame (p p' : Page R) :
  hasRemoteAdapter (manager p') = hasRemoteAdapter (manager p) →
  (is_Some (remoteAdapter (syncManager (manager p')))
   ↔ is_Some (remoteAdapter (syncManager (manager p)))) →
  timer (manager p') = timer (manager p) →
  intervals p' = intervals p → handles p' = handles p →
  manager_ok p → manager_ok p'.
Proof.
  intros Hhas Hremote Htimer Hint Hhandles (H1 & H2 & H3).
  unfold manager_ok. rewrite Hhas, Htimer, Hint, Hhandles. split_and!; [|done|done].
  rewrite H1. apply bool_decide_ext. by symmetry.
Qed.

Lemma stopAutoSync_ok : preserves (keeps_page manager_ok) (stopAutoSync (R := R)).
Proof.
  intros p r p'. unfold stopAutoSync.
  destruct (timer (manager p)) as [h|] eqn:Ht; [|by intros [= <- <-]].
  destruct (truthy (VNum h)); [|by intros [= <- <-]].
  intros [= <- <-] (Hhas & Hdom & Hpos). split_and!; simpl.
  - done.
  - rewrite dom_delete_L, Hdom, Ht. apply difference_diag_L.
  - done.
Qed.

Lemma stopAutoSync_stops (p : Page R) :
  manager_ok p →
  timer (manager (stopAutoSync p).2) = None ∧ intervals (stopAutoSync p).2 = ∅ ∧
  (stopAutoSync p).1 = Ok tt ∧
  config (manager (stopAutoSync p).2) = config (manager p) ∧
  hasRemoteAdapter (manager (stopAutoSync p).2) = hasRemoteAdapter (manager p) ∧
  syncManager (manager (stopAutoSync p).2) = syncManager (manager p) ∧
  savedConfig (stopAutoSync p).2 = savedConfig p ∧
  handles (stopAutoSync p).2 = handles p.
Proof.
  intros (Hhas & Hdom & Hpos). unfold stopAutoSync.
  destruct (timer (manager p)) as [h|] eqn:Ht.
  - assert (truthy (VNum h) = true) as ->.
    { destruct (Hpos h eq_refl). simpl. destruct (Z.eqb_spec h 0); [lia | done]. }
    simpl. split_and!; try done.
    apply dom_empty_iff_L. rewrite dom_delete_L, Hdom. apply difference_diag_L.
  - simpl. split_and!; try done. by apply dom_empty_iff_L.
Qed.

Lemma startAutoSync_ok : preserves (keeps_page manager_ok) (startAutoSync (R := R)).
Proof.
  intros p r p' Hrun Hok. unfold startAutoSync, bind in Hrun.
  destruct (stopAutoSync_stops p Hok) as (Ht & Hi & Hr & _ & Hhas & Hsm & _ & Hh).
  destruct (stopAutoSync p) as [[[]|e] p1]; [|done]. simpl in *.
  injection Hrun as <- <-. destruct Hok as (Hstep & _ & _).
  split_and!; simpl.
  - by rewrite Hhas, Hsm.
  - rewrite dom_insert_L, Hi, dom_empty_L. apply (right_id_L ∅ (∪)).
  - intros h [= <-]. lia.
Qed.

Lemma onManager_ok {A} (m : M (StorageManager R) A) :
  (∀ mg r mg', m mg = (r, mg') →
     timer mg' = timer mg ∧
     (hasRemoteAdapter mg = bool_decide (is_Some (remoteAdapter (syncManager mg))) →
      hasRemoteAdapter mg' = bool_decide (is_Some (remoteAdapter (syncManager mg'))))) →
  preserves (keeps_page manager_ok) (onManager m).
Proof.
  intros Hm p r p'. unfold onManager.
  destruct (m (manager p)) as [r0 mg'] eqn:Hrun. intros [= <- <-] (H1 & H2 & H3).
  destruct (Hm _ _ _ Hrun) as [Ht Hhas].
  split_and!; simpl; [by apply Hhas | by rewrite Ht | by rewrite Ht].
Qed.

Lemma setupRemoteAdapter_ok (mg : StorageManager R) r mg' :
  setupRemoteAdapter createClient mg = (r, mg') →
  timer mg' = timer mg ∧ config mg' = config mg ∧
  strategy (syncManager mg') = strategy (syncManager mg) ∧
  (hasRemoteAdapter mg = bool_decide (is_Some (remoteAdapter (syncManager mg))) →
   hasRemoteAdapter mg' = bool_decide (is_Some (remoteAdapter (syncManager mg')))).
Proof.
  unfold setupRemoteAdapter.
  destruct (provider (config mg)); try (by intros [= <- <-]).
  destruct (supabase (config mg)) as [[url anonKey]|]; [|by intros [= <- <-]].
  unfold try_catch, bind, modify, lift, onSyncManager, setRemoteAdapter. simpl.
  destruct (supabase_initialize createClient url anonKey) as [r0|e];
    by intros [= <- <-].
Qed.
(** X24. [setupRemoteAdapter] never rejects and touches neither the
    configuration, the timer, the local adapter nor the queue. With the
    provider ['supabase'] and credentials configured, the manager and the
    synchroniser both get the new adapter when the url and the key are
    not empty and the client could be created, and both get [null]
    otherwise; in every other configuration nothing changes. *)
Theorem setupRemoteAdapter_installs (mg : StorageManager R) :
  ∃ mg',
    setupRemoteAdapter createClient mg = (Ok tt, mg') ∧
    config mg' = config mg ∧ timer mg' = timer mg ∧
    localAdapter (syncManager mg') = localAdapter (syncManager mg) ∧
    pendingOperations (syncManager mg') = pendingOperations (syncManager mg) ∧
    (∀ url anonKey,
       provider (config mg) = provider_supabase →
       supabase (config mg) = Some (url, anonKey) →
       (url = "" ∨ anonKey = "" →
        hasRemoteAdapter mg' = false ∧ remoteAdapter (syncManager mg') = None) ∧
       (∀ r, url ≠ "" → anonKey ≠ "" → createClient url anonKey = Ok r →
             hasRemoteAdapter mg' = true ∧ remoteAdapter (syncManager mg') = Some r) ∧
       (∀ e, createClient url anonKey = Err e →
             hasRemoteAdapter mg' = false ∧ remoteAdapter (syncManager mg') = None)) ∧
    (provider (config mg) ≠ provider_supabase ∨ supabase (config mg) = None → mg' = mg).
Proof.
  unfold setupRemoteAdapter.
  destruct (provider (config mg)) eqn:Hp;
    try (exists mg; split_and!; try done; intros; discriminate).
  destruct (supabase (config mg)) as [[url anonKey]|] eqn:Hs;
    [|exists mg; split_and!; try done; intros; discriminate].
  unfold try_catch, bind, modify, lift, onSyncManager, setRemoteAdapter,
    supabase_initialize. simpl.
  destruct (String.eqb_spec url "") as [->|Hurl].
  { simpl. eexists. split; [reflexivity|]. simpl. split_and!; try done.
    - intros u k _ [= <- <-]. by split_and!.
    - by intros [?|?]. }
  destruct (String.eqb_spec anonKey "") as [->|Hkey].
  { simpl. eexists. split; [reflexivity|]. simpl.
    split_and!; try done.
    - intros u k _ [= <- <-]. by split_and!.
    - by intros [?|?]. }
  simpl. destruct (createClient url anonKey) as [r|e] eqn:Hclient.
  - eexists. split; [reflexivity|]. simpl. split_and!; try done.
    + intros u k _ [= <- <-]. split_and!.
      * by intros [?|?].
      * intros r' _ _ Hr'. rewrite Hclient in Hr'. by injection Hr' as <-.
      * intros e' He'. by rewrite Hclient in He'.
    + by intros [?|?].
  - eexists. split; [reflexivity|]. simpl. split_and!; try done.
    + intros u k _ [= <- <-]. split_and!; try done.
      intros r' _ _ Hr'. by rewrite Hclient in Hr'.
    + by intros [?|?].
Qed.

Lemma onSyncManager_frame {A} (m : M (SyncManager R) A) (mg : StorageManager R) r mg' :
  onSyncManager m mg = (r, mg') →
  timer mg' = timer mg ∧ config mg' = config mg ∧
  hasRemoteAdapter mg' = hasRemoteAdapter mg ∧
  m (syncManager mg) = (r, syncManager mg').
Proof.
  unfold onSyncManager. destruct (m (syncManager mg)) as [r0 st0]. by intros [= <- <-].
Qed.

Lemma onSyncManager_ok {A} (m : M (SyncManager R) A) :
  preserves same_remote m →
  preserves (keeps_page manager_ok) (onManager (onSyncManager m)).
Proof.
  intros Hm. apply onManager_ok. intros mg r mg' Hrun.
  apply onSyncManager_frame in Hrun as (Ht & _ & Hhas & Hrun). split; [done|].
  intros Hstep. rewrite Hhas, Hstep. apply bool_decide_ext. symmetry. by eapply Hm.
Qed.

Lemma saveConfig_ok : preserves (keeps_page manager_ok) (saveConfig (R := R) configRoom).
Proof.
  intros p r p'. unfold saveConfig.
  destruct (configRoom _); intros [= <- <-] Hok; exact Hok.
Qed.

Lemma sync_ok : preserves (keeps_page manager_ok) (onManager (sync env quota)).
Proof.
  apply onManager_ok. intros mg r mg'. unfold sync.
  destruct (negb (hasRemoteAdapter mg)); [by intros [= <- <-]|].
  intros (Ht & _ & Hhas & Hrun)%onSyncManager_frame. split; [done|].
  intros Hstep. rewrite Hhas, Hstep. apply bool_decide_ext. symmetry.
  by eapply triggerSync_same_remote.
Qed.

Lemma autoSyncTick_ok online :
  preserves (keeps_page manager_ok) (onManager (autoSyncTick env quota online)).
Proof.
  apply onManager_ok. intros mg r mg'. unfold autoSyncTick.
  destruct (online && hasRemoteAdapter mg); [|by intros [= <- <-]].
  unfold try_catch.
  destruct (onSyncManager (triggerSync env quota) mg) as [[[]|e] mg1] eqn:Hrun;
    intros [= <- <-];
    apply onSyncManager_frame in Hrun as (Ht & _ & Hhas & Hrun); (split; [done|]);
    intros Hstep; rewrite Hhas, Hstep; apply bool_decide_ext; symmetry;
    by eapply triggerSync_same_remote.
Qed.

Lemma testConnection_ok :
  preserves (keeps_page manager_ok) (onManager (testConnection (R := R))).
Proof.
  apply onManager_ok. intros mg r mg'. unfold testConnection.
  destruct (negb (hasRemoteAdapter mg)); [by intros [= <- <-]|].
  unfold try_catch, bind, ret.
  destruct (onSyncManager _ mg) as [[x|e] mg1] eqn:Hrun;
    intros [= <- <-];
    apply onSyncManager_frame in Hrun as (Ht & _ & Hhas & Hrun); (split; [done|]);
    intros Hstep; rewrite Hhas, Hstep; apply bool_decide_ext; symmetry;
    by eapply onRemote_same_remote.
Qed.

Lemma setupRemoteAdapter_page_ok :
  preserves (keeps_page manager_ok) (onManager (setupRemoteAdapter createClient)).
Proof.
  apply onManager_ok. intros mg r mg' Hrun.
  by destruct (setupRemoteAdapter_ok _ _ _ Hrun) as (? & _ & _ & ?).
Qed.

Lemma drop_remote_ok :
  preserves (keeps_page manager_ok)
    (onManager (R := R) (modify (set_hasRemoteAdapter false) ;;;
                          onSyncManager (setRemoteAdapter None))).
Proof. apply onManager_ok. by intros mg r mg' [= <- <-]. Qed.

Lemma manager_initialize_ok origin :
  preserves (keeps_page manager_ok) (manager_initialize createClient origin).
Proof.
  unfold manager_initialize.
  apply preserves_bind; [apply _ | |intros _].
  { apply onSyncManager_ok. apply onLocal_same_remote. }
  apply preserves_bind; [apply _ | |intros _].
  - intros p r p'. destruct (provider (config (manager p)));
      try (intros [= <- <-]; reflexivity).
    apply setupRemoteAdapter_page_ok.
  - intros p r p'. destruct (_ && _); [apply startAutoSync_ok|].
    intros [= <- <-]. reflexivity.
Qed.

Lemma updateConfig_ok newConfig :
  preserves (keeps_page manager_ok) (updateConfig createClient configRoom newConfig).
Proof.
  intros p r p' Hrun. unfold updateConfig in Hrun. cbv zeta in Hrun.
  refine (preserves_bind (keeps_page manager_ok) _ _ _ _ p r p' Hrun).
  { apply onManager_ok. by intros mg r0 mg' [= <- <-]. }
  intros _. apply preserves_bind; [apply _ | apply saveConfig_ok | intros _].
  apply preserves_bind; [apply _ | | intros _].
  { destruct (p_provider newConfig) as [newProvider|]; [|apply preserves_ret; apply _].
    case_bool_decide; [|apply preserves_ret; apply _].
    assert (preserves (keeps_page manager_ok)
              (onManager (setupRemoteAdapter createClient) ;;;
               (λ p0 : Page R, if autoSync (config (manager p0)) then startAutoSync p0
                               else (Ok tt, p0)))) as Hother.
    { apply preserves_bind; [apply _ | apply setupRemoteAdapter_page_ok | intros _].
      intros p0 r0 p0'. destruct (autoSync _); [apply startAutoSync_ok|].
      intros [= <- <-]. reflexivity. }
    destruct newProvider; try exact Hother.
    apply preserves_bind; [apply _ | apply drop_remote_ok | intros _].
    apply stopAutoSync_ok. }
  apply preserves_bind; [apply _ | | intros _].
  { destruct (p_syncStrategy newConfig) as [s|]; [|apply preserves_ret; apply _].
    apply onSyncManager_ok. by intros st r0 st' [= <- <-]. }
  destruct (p_autoSync newConfig) as [b|]; [|apply preserves_ret; apply _].
  intros p0 r0 p0'. destruct (_ && _); [apply startAutoSync_ok | apply stopAutoSync_ok].
Qed.

(** X25. What the storage manager maintains. The manager holds a remote
    adapter exactly when the synchroniser does; it never has more than one
    interval running, and the one that runs is the one whose handle it
    holds. This is true of a new manager and is kept by [initialize],
    [updateConfig], [destroy], [sync], [testConnection] and the tick of the
    interval, whether they resolve or reject. *)
Theorem manager_keeps_invariants :
  (∀ online savedQueue device saved config issued,
     manager_ok (mkPage (new_StorageManager (R := R) online savedQueue device saved config)
                        saved ∅ issued)) ∧
  (∀ origin p r p',
     manager_initialize createClient origin p = (r, p') → manager_ok p → manager_ok p') ∧
  (∀ newConfig p r p',
     updateConfig createClient configRoom newConfig p = (r, p') →
     manager_ok p → manager_ok p') ∧
  (∀ (p : Page R) r p', destroy p = (r, p') → manager_ok p → manager_ok p') ∧
  (∀ p r p', onManager (sync env quota) p = (r, p') → manager_ok p → manager_ok p') ∧
  (∀ online p r p',
     onManager (autoSyncTick env quota online) p = (r, p') →
     manager_ok p → manager_ok p') ∧
  (∀ (p : Page R) r p',
     onManager testConnection p = (r, p') → manager_ok p → manager_ok p').
Proof.
  split_and!.
  - intros. split_and!; [done | apply dom_empty_L | done].
  - intros origin. apply manager_initialize_ok.
  - intros newConfig. apply updateConfig_ok.
  - apply stopAutoSync_ok.
  - apply sync_ok.
  - intros online. apply autoSyncTick_ok.
  - apply testConnection_ok.
Qed.
End ManagerProperties.

Lemma sample_page_ok : manager_ok sample_page.
Proof.
  split; [reflexivity|]. split.
  - apply dom_singleton_L.
  - intros h [= <-]. simpl. lia.
Qed.

Lemma setupRemoteAdapter_installs_witness :
  ∃ mg', setupRemoteAdapter sample_createClient (manager sample_page) = (Ok tt, mg') ∧
         hasRemoteAdapter mg' = true ∧
         remoteAdapter (syncManager mg') = Some ∅ ∧
         pendingOperations (syncManager mg') = [sample_other_op].
Proof.
  destruct (setupRemoteAdapter_installs sample_createClient (manager sample_page))
    as (mg' & Hrun & _ & _ & _ & Hqueue & Hsupabase & _).
  exists mg'. split; [exact Hrun|].
  destruct (Hsupabase "https://example.supabase.co" "anon-key" eq_refl eq_refl)
    as (_ & Hclient & _).
  destruct (Hclient ∅) as [Hflag Hremote]; [discriminate | discriminate | reflexivity |].
  split; [exact Hflag|]. split; [exact Hremote | exact Hqueue].
Defined.

Lemma manager_keeps_invariants_witness :
  manager_ok sample_page ∧
  manager_ok (updateConfig sample_createClient (λ _, true)
                (mkPartial None (Some false) None None None) sample_page).2.
Proof.
  split; [exact sample_page_ok|].
  destruct (manager_keeps_invariants (JS := sample_runtime) (RA := memory_adapter)
              sample_env (λ _, true) sample_createClient (λ _, true))
    as (_ & _ & Hupdate & _).
  apply (Hupdate (mkPartial None (Some false) None None None) sample_page
           (updateConfig sample_createClient (λ _, true)
              (mkPartial None (Some false) None None None) sample_page).1).
  - apply surjective_pairing.
  - exact sample_page_ok.
Defined.

Section ManagerSwitch.
Context `{JS : Runtime} {R : Type} `{RA : IStorageAdapter R}.
Variable env : nat → Env.
Variable quota : list SyncOperation → bool.
Variable createClient : string → string → result R.
Variable configRoom : StorageConfig → bool.

(** X26. Switching to the provider ['local'] with [updateConfig], when the
    configuration can be saved: the call resolves, the new configuration
    is the merged one and is saved, the manager and the synchroniser have
    no remote adapter any more, no interval is left running, the queue of
    pending operations and the local store are kept, and [sync] rejects
    from then on. *)
Theorem updateConfig_to_local newConfig (p : Page R) :
  manager_ok p →
  provider (config (manager p)) ≠ provider_local →
  p_provider newConfig = Some provider_local →
  configRoom (merge_config (config (manager p)) newConfig) = true →
  ∃ p',
    updateConfig createClient configRoom newConfig p = (Ok tt, p') ∧
    config (manager p') = merge_config (config (manager p)) newConfig ∧
    provider (config (manager p')) = provider_local ∧
    savedConfig p' = Some (config (manager p')) ∧
    hasRemoteAdapter (manager p') = false ∧
    remoteAdapter (syncManager (manager p')) = None ∧
    timer (manager p') = None ∧ intervals p' = ∅ ∧
    pendingOperations (syncManager (manager p'))
    = pendingOperations (syncManager (manager p)) ∧
    localAdapter (syncManager (manager p')) = localAdapter (syncManager (manager p)) ∧
    sync env quota (manager p')
    = (Err (Error "Remote adapter not configured. Enable cloud sync first."), manager p').
Proof.
  intros (Hhas & Hdom & Hpos) Hold Hnew Hroom.
  destruct newConfig as [pp pa pi ps psup]. simpl in Hnew. subst pp.
  unfold updateConfig. cbv zeta.
  unfold bind at 1. unfold onManager at 1, modify at 1. cbn [manager savedConfig intervals handles].
  unfold bind at 1. unfold saveConfig at 1. cbn [manager config set_config].
  rewrite Hroom. cbn [p_provider].
  rewrite bool_decide_eq_true_2 by done.
  unfold bind at 1. unfold bind at 1. unfold onManager at 1.
  unfold bind at 1, modify at 1, onSyncManager at 1, setRemoteAdapter at 1, modify at 1.
  cbn [manager savedConfig intervals handles syncManager set_hasRemoteAdapter config
       hasRemoteAdapter timer set_config].
  unfold stopAutoSync at 1.
  cbn [manager savedConfig intervals handles syncManager set_hasRemoteAdapter config
       hasRemoteAdapter timer set_config].
  assert (∀ h, timer (manager p) = Some h → truthy (VNum h) = true) as Htruthy.
  { intros h Hh. destruct (Hpos h Hh). simpl. destruct (Z.eqb_spec h 0); [lia | done]. }
  assert (∀ h, timer (manager p) = Some h → delete h (intervals p) = ∅) as Hcleared.
  { intros h Hh. apply dom_empty_iff_L. rewrite dom_delete_L, Hdom, Hh.
    apply difference_diag_L. }
  destruct (timer (manager p)) as [h|] eqn:Ht.
  - rewrite (Htruthy h eq_refl), (Hcleared h eq_refl).
    destruct ps as [s|], pa as [[|]|];
      (eexists; split; [reflexivity|]; cbn; split_and!; reflexivity).
  - assert (intervals p = ∅) as Hnone by (by apply dom_empty_iff_L).
    destruct ps as [s|], pa as [[|]|];
      (eexists; split; [unfold bind, onManager, onSyncManager, setStrategy, modify,
                          stopAutoSync, ret; cbn; rewrite ?Ht; reflexivity|];
       cbn; rewrite ?Ht, ?Hnone; split_and!; reflexivity).
Qed.
End ManagerSwitch.

Lemma updateConfig_to_local_witness :
  ∃ p', updateConfig sample_createClient (λ _, true)
          (mkPartial (Some provider_local) None None None None) sample_page
        = (Ok tt, p') ∧
        provider (config (manager p')) = provider_local ∧
        remoteAdapter (syncManager (manager p')) = None ∧
        intervals p' = ∅ ∧
        pendingOperations (syncManager (manager p')) = [sample_other_op].
Proof.
  destruct (updateConfig_to_local (JS := sample_runtime) (RA := memory_adapter)
              sample_env (λ _, true) sample_createClient (λ _, true)
              (mkPartial (Some provider_local) None None None None) sample_page)
    as (p' & Hrun & _ & Hprovider & _ & _ & Hremote & _ & Hintervals & Hqueue & _).
  - exact sample_page_ok.
  - discriminate.
  - reflexivity.
  - reflexivity.
  - exists p'. split; [exact Hrun|]. split; [exact Hprovider|].
    split; [exact Hremote|]. split; [exact Hintervals | exact Hqueue].
Defined.

Section ManagerStrategy.
Context `{JS : Runtime} {R : Type} `{RA : IStorageAdapter R}.
Variable createClient : string → string → result R.
Variable configRoom : StorageConfig → bool.

Lemma stopAutoSync_settings : preserves same_settings (stopAutoSync (R := R)).
Proof.
  intros p r p'. unfold stopAutoSync.
  destruct (timer (manager p)) as [h|]; [|by intros [= <- <-]].
  destruct (truthy (VNum h)); by intros [= <- <-].
Qed.

Lemma startAutoSync_settings : preserves same_settings (startAutoSync (R := R)).
Proof.
  unfold startAutoSync.
  apply preserves_bind; [apply _ | apply stopAutoSync_settings | intros _].
  by intros p r p' [= <- <-].
Qed.

Lemma saveConfig_settings : preserves same_settings (saveConfig (R := R) configRoom).
Proof.
  intros p r p'. unfold saveConfig. destruct (configRoom _); by intros [= <- <-].
Qed.

Lemma setupRemoteAdapter_settings :
  preserves same_settings (onManager (setupRemoteAdapter createClient)).
Proof.
  intros p r p'. unfold onManager.
  destruct (setupRemoteAdapter createClient (manager p)) as [r0 mg'] eqn:Hrun.
  intros [= <- <-].
  by destruct (setupRemoteAdapter_ok _ _ _ _ Hrun) as (_ & ? & ? & _).
Qed.

Lemma provider_step_settings (newProvider : option StorageProvider) oldProvider :
  preserves (same_settings (R := R))
    match newProvider with
    | Some newProvider =>
        if bool_decide (newProvider ≠ oldProvider) then
          match newProvider with
          | provider_local =>
              onManager (modify (set_hasRemoteAdapter false) ;;;
                         onSyncManager (setRemoteAdapter None)) ;;;
              stopAutoSync
          | _ =>
              onManager (setupRemoteAdapter createClient) ;;;
              (λ p, if autoSync (config (manager p)) then startAutoSync p
                    else (Ok tt, p))
          end
        else ret tt
    | None => ret tt
    end.
Proof.
  destruct newProvider as [newProvider|]; [|apply preserves_ret; apply _].
  case_bool_decide; [|apply preserves_ret; apply _].
  assert (preserves (same_settings (R := R))
            (onManager (setupRemoteAdapter createClient) ;;;
             (λ p0 : Page R, if autoSync (config (manager p0)) then startAutoSync p0
                             else (Ok tt, p0)))) as Hother.
  { apply preserves_bind; [apply _ | apply setupRemoteAdapter_settings | intros _].
    intros p0 r0 p0'. destruct (autoSync _); [apply startAutoSync_settings|].
    by intros [= <- <-]. }
  destruct newProvider; try exact Hother.
  apply preserves_bind; [apply _ | | intros _; apply stopAutoSync_settings].
  by intros p r p' [= <- <-].
Qed.

Lemma autoSync_step_settings (b : option bool) :
  preserves (same_settings (R := R))
    match b with
    | Some b =>
        (λ p, if b && hasRemoteAdapter (manager p) then startAutoSync p
              else stopAutoSync p)
    | None => ret tt
    end.
Proof.
  destruct b as [b|]; [|apply preserves_ret; apply _].
  intros p r p'. destruct (_ && _); [apply startAutoSync_settings | apply stopAutoSync_settings].
Qed.

(** X27. The synchroniser of a new manager resolves conflicts with the
    strategy of the constructor's argument (['newest-wins'] when there is
    none), while the configuration takes the strategy of the saved
    configuration when there is one. An [updateConfig] that names a
    strategy and resolves brings both to that strategy; one that names
    none leaves both as they are. *)
Theorem strategy_follows_updateConfig :
  (∀ online savedQueue device saved argument,
     let mg := new_StorageManager (R := R) online savedQueue device saved argument in
     strategy (syncManager mg) = default newest_wins (p_syncStrategy argument) ∧
     ∀ c, saved = Some c → syncStrategy (config mg) = syncStrategy c) ∧
  (∀ newConfig s (p : Page R) p',
     p_syncStrategy newConfig = Some s →
     updateConfig createClient configRoom newConfig p = (Ok tt, p') →
     strategy (syncManager (manager p')) = s ∧ syncStrategy (config (manager p')) = s) ∧
  (∀ newConfig (p : Page R) r p',
     p_syncStrategy newConfig = None →
     updateConfig createClient configRoom newConfig p = (r, p') →
     strategy (syncManager (manager p')) = strategy (syncManager (manager p)) ∧
     syncStrategy (config (manager p')) = syncStrategy (config (manager p))).
Proof.
  split_and!.
  - intros online savedQueue device saved argument mg. split; [done|].
    by intros c ->.
  - intros newConfig s p p' Hs Hrun. unfold updateConfig in Hrun. cbv zeta in Hrun.
    rewrite Hs in Hrun.
    apply bind_inv_ok in Hrun as ([] & p1 & H1 & Hrun).
    apply bind_inv_ok in Hrun as ([] & p2 & H2 & Hrun).
    apply bind_inv_ok in Hrun as ([] & p3 & H3 & Hrun).
    apply bind_inv_ok in Hrun as ([] & p4 & H4 & H5).
    injection H1 as <-.
    apply saveConfig_settings in H2 as [Hc2 _].
    apply provider_step_settings in H3 as [Hc3 _].
    injection H4 as <-.
    apply autoSync_step_settings in H5 as [Hc5 Hs5].
    rewrite Hs5, Hc5. cbn. rewrite Hc3, Hc2. cbn. by rewrite Hs.
  - intros newConfig p r p' Hs Hrun. unfold updateConfig in Hrun. cbv zeta in Hrun.
    rewrite Hs in Hrun.
    assert (same_settings
              (mkPage (set_config (merge_config (config (manager p)) newConfig) (manager p))
                      (savedConfig p) (intervals p) (handles p)) p') as [Hc Hst].
    { unfold bind at 1 in Hrun. unfold onManager at 1, modify at 1 in Hrun.
      refine (preserves_bind same_settings _ _ _ _ _ r p' Hrun);
        [apply saveConfig_settings | intros _].
      apply preserves_bind; [apply _ | apply provider_step_settings | intros _].
      apply preserves_bind; [apply _ | apply preserves_ret; apply _ | intros _].
      apply autoSync_step_settings. }
    rewrite Hst, Hc. cbn. by rewrite Hs.
Qed.
End ManagerStrategy.

Lemma strategy_follows_updateConfig_witness :
  let run := updateConfig sample_createClient (λ _, true)
               (mkPartial None None None (Some local_wins) None) sample_page in
  is_ok run.1 = true ∧
  strategy (syncManager (manager sample_page)) = manual ∧
  strategy (syncManager (manager run.2)) = local_wins ∧
  syncStrategy (config (manager run.2)) = local_wins.
Proof.
  intros run. split; [vm_compute; reflexivity|]. split; [reflexivity|].
  destruct (strategy_follows_updateConfig sample_createClient (λ _, true))
    as (_ & Hset & _).
  apply (Hset (mkPartial None None None (Some local_wins) None) local_wins sample_page
           run.2); [reflexivity|].
  apply (run_ok_unit run). vm_compute. reflexivity.
Defined.

(** ** The deletion rule in a whole pull pass *)

Section PullPass.
Context `{JS : Runtime} {R : Type} `{RA : IStorageAdapter R}.
Variable env : nat → Env.
Variable table : string.
Variable k : value.

(** A write to another table leaves the key alone. *)
Lemma create_stored_other e table' data a r a' :
  create e table' data a = (r, a') → table' ≠ table →
  stored a' table k = stored a table k.
Proof.
  rewrite create_unfold.
  destruct (db a) as [d|] eqn:Hd; [|by intros [= <- <-]].
  destruct (d !! table') as [s|] eqn:Hs; [|by intros [= <- <-]].
  destruct (store_add _ _ _) as [s'|]; [|by intros [= <- <-]].
  intros [= <- <-] Hne. rewrite (stored_after_commit a d) by done.
  by rewrite decide_False.
Qed.

Lemma pull_record_frame v table' localMap x :
  table' ≠ table →
  preserves (on_local (R := R) (keeps (λ a, stored a table k = v)))
    (pull_record env table' localMap x).
Proof.
  intros Hne. unfold pull_record.
  destruct (localMap !! getp x "id") as [lr|].
  - apply preserves_bind; [apply _ | |].
    { apply resolveConflict_preserves; [apply _ | |].
      - intros. apply on_local_reads. apply _.
      - intros. apply on_local_conflicts. apply _. }
    intros [| |].
    + apply preserves_bind; [apply _ | | intros; apply preserves_ret; apply _].
      apply onRemote_on_local. apply _.
    + apply preserves_bind; [apply _ | | intros; apply preserves_ret; apply _].
      apply preserves_bind; [apply _ | |].
      { apply readEnv_preserves. intros. apply on_local_reads. apply _. }
      intros e. apply onLocal_on_local. intros a r a' Hupd Hold.
      rewrite (update_stored_other _ _ _ _ _ _ _ table k Hupd); [done|]. by left.
    + apply preserves_ret; apply _.
  - apply preserves_bind; [apply _ | | intros; apply preserves_ret; apply _].
    apply preserves_bind; [apply _ | |].
    { apply readEnv_preserves. intros. apply on_local_reads. apply _. }
    intros e. apply onLocal_on_local. intros a r a' Hcreate Hold.
    by rewrite (create_stored_other _ _ _ _ _ _ Hcreate).
Qed.

(** The turn of another table leaves the key alone. *)
Lemma syncTable_frame v table' :
  table' ≠ table →
  preserves (on_local (R := R) (keeps (λ a, stored a table k = v))) (syncTable env table').
Proof.
  intros Hne st r st' Hrun.
  assert (st' = (syncTable_try env table' st).2) as ->.
  { rewrite <- syncTable_state. by rewrite Hrun. }
  clear Hrun. unfold on_local, keeps. intros Hv.
  destruct (syncTable_try_cases env table' st)
    as [(e & st1 & -> & Hlocal)|(remoteRecords & d & s & st1 & Hd & Hs & Hlocal & ->)].
  { simpl. by rewrite Hlocal. }
  rewrite <- Hlocal in Hv.
  eapply (loops_keep env (λ a, stored a table k = v));
    [| |apply surjective_pairing|exact Hv].
  - intros x _. by apply pull_record_frame.
  - intros lr _. apply (prune_record_keeps table k).
    + intros id Hid a r0 a' Hdelete Hold.
      by rewrite (delete_stored_other _ _ _ _ _ _ _ Hdelete Hid).
    + by left.
Qed.

Lemma forEach_syncTable_frame v tables :
  table ∉ tables →
  preserves (on_local (R := R) (keeps (λ a, stored a table k = v)))
    (forEach (syncTable env) tables).
Proof.
  intros Hnot. apply preserves_forEach; [apply _|].
  intros t Ht. apply syncTable_frame. by intros ->.
Qed.

Lemma forEach_syncTable_app l1 l2 : ∀ st : SyncManager R,
  (forEach (syncTable env) (l1 ++ l2) st).2
  = (forEach (syncTable env) l2 (forEach (syncTable env) l1 st).2).2.
Proof.
  induction l1 as [|t l1 IH]; intros st; simpl; [done|].
  unfold bind. pose proof (syncTable_ok env t st) as Ht.
  destruct (syncTable env t st) as [[[]|e] st1]; [apply IH | done].
Qed.

(** The turns keep the store consistent and its ids truthy. *)
Lemma forEach_syncTable_keeps_ok tables :
  preserves (on_local (R := R) (keeps (λ a, idb_ok a ∧ truthy_ids a)))
    (forEach (syncTable env) tables).
Proof.
  assert (∀ A (m : M IndexedDBAdapter A),
            preserves writes_through m → preserves (keeps idb_ok) m →
            preserves (keeps (λ a, idb_ok a ∧ truthy_ids a)) m) as Hboth.
  { intros A m Hw Hok. apply keeps_and; [done|].
    intros a r a' Hrun Ha. eapply writes_through_truthy; [|exact Ha]. by eapply Hw. }
  apply preserves_forEach; [apply _|]. intros t _.
  apply syncTable_preserves; try apply _.
  - intros. apply onLocal_on_local, Hboth;
      [apply create_writes_through | apply create_keeps_idb_ok].
  - intros. apply onLocal_on_local, Hboth;
      [apply update_writes_through | apply update_keeps_idb_ok].
  - intros. apply onLocal_on_local, Hboth;
      [apply delete_writes_through | apply delete_keeps_idb_ok].
  - intros. apply onLocal_on_local, list_preserves. apply _.
  - intros. apply onRemote_on_local. apply _.
  - intros n st. unfold on_local. simpl. reflexivity.
  - intros c st. unfold on_local. simpl. reflexivity.
Qed.

(** No write removes an object store. *)
Lemma create_keeps_has_store e t d :
  preserves (keeps (has_store table)) (create e t d).
Proof.
  intros a r a'. rewrite create_unfold. intros Hrun (d0 & s0 & Hd & Hs).
  rewrite Hd in Hrun.
  destruct (d0 !! t) as [s|]; [|injection Hrun as _ <-; by exists d0, s0].
  destruct (store_add _ _ _) as [s'|]; [|injection Hrun as _ <-; by exists d0, s0].
  injection Hrun as _ <-. unfold has_store. simpl.
  destruct (decide (t = table)) as [->|Hne].
  - eexists _, s'. split; [done|]. by rewrite lookup_insert_eq.
  - eexists _, s0. split; [done|]. by rewrite lookup_insert_ne.
Qed.

Lemma update_keeps_has_store e t id d :
  preserves (keeps (has_store table)) (update e t id d).
Proof.
  intros a r a'. rewrite update_unfold. intros Hrun (d0 & s0 & Hd & Hs).
  rewrite Hd in Hrun.
  destruct (d0 !! t) as [s|]; [|injection Hrun as _ <-; by exists d0, s0].
  destruct (valid_key id); [|injection Hrun as _ <-; by exists d0, s0].
  destruct (s !! id) as [existing|]; [|injection Hrun as _ <-; by exists d0, s0].
  simpl in Hrun.
  destruct (store_put _ _ _) as [s'|]; [|injection Hrun as _ <-; by exists d0, s0].
  injection Hrun as _ <-. unfold has_store. simpl.
  destruct (decide (t = table)) as [->|Hne].
  - eexists _, s'. split; [done|]. by rewrite lookup_insert_eq.
  - eexists _, s0. split; [done|]. by rewrite lookup_insert_ne.
Qed.

(** The deletion loop cannot fail on the snapshot of a consistent store. *)
Lemma prune_loop_ok remoteMap localRecords :
  Forall (λ lr, valid_key (getp lr "id") = true) localRecords →
  ∀ st : SyncManager R,
    has_store table (localAdapter st) →
    (forEach (prune_record table remoteMap) localRecords st).1 = Ok tt.
Proof.
  induction 1 as [|lr lrs Hlr _ IH]; intros st Hst; simpl; [done|].
  unfold bind. unfold prune_record at 1.
  destruct (negb _ && bool_decide _).
  - unfold onLocal. rewrite delete_unfold.
    destruct Hst as (d & s & Hd & Hs). rewrite Hd, Hs, Hlr. simpl.
    apply IH. simpl. eexists _, _. split; [done|]. by rewrite lookup_insert_eq.
  - simpl. by apply IH.
Qed.

(** C2. In a pull pass, take a local record whose id the remote does not
    list for its table. The pass always resolves. If the record is not
    marked synced (a pending record, say), it is never deleted: it is still
    in the store, not marked synced, after the pass, and unchanged when the
    stored ids are truthy. If it is marked synced, it is deleted when the
    [try] block of its table runs to its end: it is gone after the pass.
    When that [try] block throws (the remote cannot list the table, or a
    local write of the turn is rejected), the deletion loop of the table is
    skipped and the record is still there after the pass. [st1] is the
    state in which the turn of the table starts. *)
Theorem pull_deletion_rule (st : SyncManager R) rec :
  idb_ok (localAdapter st) →
  stored (localAdapter st) table k = Some rec →
  let st' := (syncFromRemote env st).2 in
  (syncFromRemote env st).1 = Ok tt ∧
  (getp rec "_sync_status" ≠ VStr "synced" → unsynced_at table k (localAdapter st')) ∧
  (∀ pre post,
     is_Some (remoteAdapter st) → TABLES = pre ++ table :: post →
     let st1 := (forEach (syncTable env) pre st).2 in
     stored (localAdapter st1) table k = Some rec ∧
     (∀ r1 e r2,
        remoteAdapter st1 = Some r1 → adapter_list table None r1 = (Err e, r2) →
        stored (localAdapter st') table k = Some rec) ∧
     (∀ r1 remoteRecords r2,
        remoteAdapter st1 = Some r1 →
        adapter_list table None r1 = (Ok remoteRecords, r2) →
        (∀ rr, rr ∈ remoteRecords → getp rr "id" ≠ k) →
        (getp rec "_sync_status" = VStr "synced" →
         ∀ st2, syncTable_try env table st1 = (Ok tt, st2) →
                stored (localAdapter st') table k = None) ∧
        (truthy_ids (localAdapter st) →
         (getp rec "_sync_status" ≠ VStr "synced" →
          stored (localAdapter st') table k = Some rec) ∧
         (∀ e st2, syncTable_try env table st1 = (Err e, st2) →
                   stored (localAdapter st') table k = Some rec)))) ∧
  (∀ r0 remoteRecords r1,
     remoteAdapter st = Some r0 →
     adapter_list table None r0 = (Ok remoteRecords, r1) →
     (∀ rr, rr ∈ remoteRecords → getp rr "id" ≠ k) →
     (getp rec "_sync_status" = VStr "synced" →
      ∀ st2, syncTable_try env table st = (Ok tt, st2) →
             stored (localAdapter st2) table k = None) ∧
     (getp rec "_sync_status" ≠ VStr "synced" → truthy_ids (localAdapter st) →
      stored (localAdapter (syncTable env table st).2) table k = Some rec)).
Proof.
  intros Hok Hrec st'.
  destruct (syncTable_deletion_rule env table k st rec Hok Hrec) as [Hturn Hpending].
  split; [apply syncFromRemote_ok|]. split; [exact Hpending|]. split; [|exact Hturn].
  intros pre post [r Hr] Hsplit st1.
  (* the tables before and after *)
  pose proof TABLES_NoDup as Hnd. rewrite Hsplit in Hnd.
  apply NoDup_app in Hnd as (_ & Hpre & Hnd). apply NoDup_cons in Hnd as [Hpost _].
  assert (table ∉ pre) as Hpre'.
  { intros Hin. apply (Hpre _ Hin). by left. }
  (* the pass is the turns before, the turn of the table, the turns after *)
  assert (st' = (forEach (syncTable env) post (syncTable env table st1).2).2) as Hst'.
  { unfold st', syncFromRemote. rewrite Hr, Hsplit, forEach_syncTable_app. fold st1.
    simpl. unfold bind. pose proof (syncTable_ok env table st1) as Ht.
    by destruct (syncTable env table st1) as [[[]|e] st2]. }
  assert (∀ v, stored (localAdapter (syncTable env table st1).2) table k = v →
               stored (localAdapter st') table k = v) as Hafter.
  { intros v Hv. rewrite Hst'.
    exact (forEach_syncTable_frame v post Hpost _ _ _ (surjective_pairing _) Hv). }
  assert (stored (localAdapter st1) table k = Some rec) as Hrec1.
  { exact (forEach_syncTable_frame (Some rec) pre Hpre' _ _ _ (surjective_pairing _) Hrec). }
  assert (truthy_ids (localAdapter st) →
          idb_ok (localAdapter st1) ∧ truthy_ids (localAdapter st1)) as Hok1.
  { intros Htruthy.
    exact (forEach_syncTable_keeps_ok pre _ _ _ (surjective_pairing _)
             (conj Hok Htruthy)). }
  assert (idb_ok (localAdapter st1)) as Hidb1.
  { assert (preserves (on_local (R := R) (keeps idb_ok)) (forEach (syncTable env) pre))
      as Hkeep.
    { apply preserves_forEach; [apply _|]. intros t _.
      apply syncTable_preserves; try apply _.
      - intros. apply onLocal_on_local, create_keeps_idb_ok.
      - intros. apply onLocal_on_local, update_keeps_idb_ok.
      - intros. apply onLocal_on_local, delete_keeps_idb_ok.
      - intros. apply onLocal_on_local, list_preserves. apply _.
      - intros. apply onRemote_on_local. apply _.
      - intros n st0. unfold on_local. simpl. reflexivity.
      - intros c st0. unfold on_local. simpl. reflexivity. }
    exact (Hkeep _ _ _ (surjective_pairing _) Hok). }
  split; [exact Hrec1|]. split.
  - (* the remote cannot list the table *)
    intros r1 e r2 Hr1 Hlist. apply Hafter.
    rewrite syncTable_state. unfold syncTable_try.
    unfold bind at 1. unfold onRemote at 1. rewrite Hr1, Hlist. exact Hrec1.
  - intros r1 remoteRecords r2 Hr1 Hlist Habsent.
    destruct (syncTable_deletion_rule env table k st1 rec Hidb1 Hrec1) as [Hturn1 _].
    destruct (Hturn1 r1 remoteRecords r2 Hr1 Hlist Habsent) as [Hdeleted Hkept].
    split.
    + (* marked synced, and the turn runs to its end *)
      intros Hsynced st2 Hrun. apply Hafter.
      unfold syncTable, try_catch. rewrite Hrun. simpl. by apply Hdeleted.
    + intros Htruthy. destruct (Hok1 Htruthy) as [_ Htruthy1]. split.
      * intros Hstatus. apply Hafter. by apply Hkept.
      * (* the turn throws *)
        intros e st2 Hrun. apply Hafter. rewrite syncTable_state, Hrun. simpl.
        destruct (stored_inv _ _ _ _ Hrec1) as (d & s & Hd & Hs & Hk).
        pose proof (idb_ok_store _ _ _ _ Hidb1 Hd Hs) as [Hin _].
        rewrite (syncTable_try_lists env table st1 r1 remoteRecords r2 d s Hr1 Hlist Hd Hs)
          in Hrun.
        unfold bind in Hrun.
        destruct (forEach (pull_record env table (mapById (getAll s))) remoteRecords
                    (set_remoteAdapter (Some r2) st1)) as [[[]|e'] s2] eqn:Hpull.
        -- (* the deletion loop itself cannot throw *)
           assert (has_store table (localAdapter s2)) as Hstore.
           { assert (preserves (on_local (R := R) (keeps (has_store table)))
                       (forEach (pull_record env table (mapById (getAll s)))
                          remoteRecords)) as Hkeep.
             { apply preserves_forEach; [apply _|]. intros x _.
               apply pull_record_keeps.
               - intros. apply create_keeps_has_store.
               - intros. apply update_keeps_has_store. }
             apply (Hkeep _ _ _ Hpull). simpl. by exists d, s. }
           assert (Forall (λ lr, valid_key (getp lr "id") = true) (getAll s)) as Hvalid.
           { apply Forall_forall. intros lr [k' Hk']%elem_of_getAll.
             destruct (Hin _ _ Hk') as [-> Hv]. exact Hv. }
           pose proof (prune_loop_ok (mapById remoteRecords) (getAll s) Hvalid s2 Hstore)
             as Hnever.
           rewrite Hrun in Hnever. discriminate.
        -- injection Hrun as _ <-.
           assert (preserves (on_local (R := R) (keeps (λ a, stored a table k = Some rec)))
                     (forEach (pull_record env table (mapById (getAll s)))
                        remoteRecords)) as Hkeep.
           { apply preserves_forEach; [apply _|]. intros x Hx.
             apply pull_record_other; [by apply Habsent|].
             intros [lr Hlr]. apply mapById_lookup_Some in Hlr as [Hmem <-].
             apply elem_of_getAll in Hmem as [k' Hk'].
             apply (Htruthy1 table k' lr). by rewrite (stored_eq _ d table s). }
           exact (Hkeep _ _ _ Hpull Hrec1).
Qed.
End PullPass.

(** C2, as the specification words it, fails: a record marked synced whose
    id the remote does not list is not deleted when the turn of its table
    throws before the deletion loop. In [sample_clash] the remote lists a
    project with the number of a local one; [create] rejects with
    [ConstraintError] on the unique index, the pass resolves, and the
    synced project ["s"] is still in the store. *)
Lemma pull_synced_record_not_always_deleted :
  ¬ (∀ (st : SyncManager (gmap string (list record))) table k rec r0 remoteRecords r1,
       idb_ok (localAdapter st) → truthy_ids (localAdapter st) →
       remoteAdapter st = Some r0 →
       adapter_list (IStorageAdapter := memory_adapter) table None r0
       = (Ok remoteRecords, r1) →
       stored (localAdapter st) table k = Some rec →
       (∀ rr, rr ∈ remoteRecords → getp rr "id" ≠ k) →
       getp rec "_sync_status" = VStr "synced" →
       stored (localAdapter (syncFromRemote (JS := sample_runtime) (RA := memory_adapter)
                               sample_env st).2) table k = None).
Proof.
  intros claim.
  assert (is_Some (stored (localAdapter (syncFromRemote (JS := sample_runtime)
                                           (RA := memory_adapter) sample_env
                                           sample_clash).2) "projects" (VStr "s")))
    as [rec Hstays] by (apply (bool_decide_unpack _); vm_compute; exact I).
  rewrite (claim sample_clash "projects" (VStr "s")
             (default ∅ (stored sample_projects_local "projects" (VStr "s")))
             {[ "projects" := [sample_project "n" 5] ]} [sample_project "n" 5]
             {[ "projects" := [sample_project "n" 5] ]}) in Hstays.
  - discriminate.
  - apply (bool_decide_unpack _). vm_compute. exact I.
  - apply (bool_decide_unpack _). vm_compute. exact I.
  - reflexivity.
  - cbv [adapter_list memory_adapter gets]. by rewrite lookup_singleton_eq.
  - apply some_default. vm_compute. reflexivity.
  - intros rr ->%list_elem_of_singleton. by vm_compute.
  - vm_compute. reflexivity.
Qed.

(** In [sample_pull] the remote lists only client ["c"]: after the pass
    the synced client ["s"] is deleted and the pending client ["p"] is as
    it was. In [sample_clash] the turn of [projects] throws, and the synced
    project ["s"] is still there after the pass. *)
Lemma pull_deletion_rule_witness :
  let pass (st : SyncManager (gmap string (list record))) :=
    localAdapter (syncFromRemote (JS := sample_runtime) (RA := memory_adapter)
                    sample_env st).2 in
  let synced := default ∅ (stored sample_pull_local "clients" (VStr "s")) in
  let pending := default ∅ (stored sample_pull_local "clients" (VStr "p")) in
  let project := default ∅ (stored sample_projects_local "projects" (VStr "s")) in
  (getp synced "_sync_status" = VStr "synced" ∧
   getp pending "_sync_status" = VStr "pending" ∧
   stored (pass sample_pull) "clients" (VStr "s") = None ∧
   stored (pass sample_pull) "clients" (VStr "p") = Some pending) ∧
  (getp project "_sync_status" = VStr "synced" ∧
   stored (pass sample_clash) "projects" (VStr "s") = Some project).
Proof.
  intros pass synced pending project.
  assert (∀ k, k ∈ [VStr "s"; VStr "p"] →
               ∀ rr, rr ∈ [sample_record "c" "Caio" 2] → getp rr "id" ≠ k) as Habsent.
  { intros k Hk rr ->%list_elem_of_singleton.
    apply elem_of_cons in Hk as [->|Hk]; [by vm_compute|].
    apply list_elem_of_singleton in Hk as ->. by vm_compute. }
  assert (adapter_list (IStorageAdapter := memory_adapter) "clients" None
            {[ "clients" := [sample_record "c" "Caio" 2] ]}
          = (Ok [sample_record "c" "Caio" 2],
             {[ "clients" := [sample_record "c" "Caio" 2] ]})) as Hlist.
  { cbv [adapter_list memory_adapter gets]. by rewrite lookup_singleton_eq. }
  split; [split_and!|split].
  - vm_compute. reflexivity.
  - vm_compute. reflexivity.
  - destruct (pull_deletion_rule (JS := sample_runtime) (RA := memory_adapter) sample_env
                "clients" (VStr "s") sample_pull synced) as (_ & _ & Hpass & _).
    { apply (bool_decide_unpack _). vm_compute. exact I. }
    { apply some_default. vm_compute. reflexivity. }
    destruct (Hpass [] ["products"; "product_components"; "projects"; "project_products";
                        "transactions"; "stock_movements"])
      as (_ & _ & Hturn); [by eexists | reflexivity |].
    destruct (Hturn _ [sample_record "c" "Caio" 2] _ eq_refl Hlist) as [Hdeleted _].
    { apply Habsent. by left. }
    apply (Hdeleted ltac:(vm_compute; reflexivity)
             (syncTable_try (JS := sample_runtime) (RA := memory_adapter) sample_env
                "clients" sample_pull).2).
    apply (run_ok_unit (syncTable_try (JS := sample_runtime) (RA := memory_adapter)
                          sample_env "clients" sample_pull)).
    vm_compute. reflexivity.
  - destruct (pull_deletion_rule (JS := sample_runtime) (RA := memory_adapter) sample_env
                "clients" (VStr "p") sample_pull pending) as (_ & _ & Hpass & _).
    { apply (bool_decide_unpack _). vm_compute. exact I. }
    { apply some_default. vm_compute. reflexivity. }
    destruct (Hpass [] ["products"; "product_components"; "projects"; "project_products";
                        "transactions"; "stock_movements"])
      as (_ & _ & Hturn); [by eexists | reflexivity |].
    destruct (Hturn _ [sample_record "c" "Caio" 2] _ eq_refl Hlist) as [_ Hkept].
    { apply Habsent. right. by left. }
    apply Hkept; [|by vm_compute].
    apply (bool_decide_unpack _). vm_compute. exact I.
  - vm_compute. reflexivity.
  - destruct (pull_deletion_rule (JS := sample_runtime) (RA := memory_adapter) sample_env
                "projects" (VStr "s") sample_clash project) as (_ & _ & Hpass & _).
    { apply (bool_decide_unpack _). vm_compute. exact I. }
    { apply some_default. vm_compute. reflexivity. }
    destruct (Hpass ["clients"; "products"; "product_components"]
                    ["project_products"; "transactions"; "stock_movements"])
      as (_ & _ & Hturn); [by eexists | reflexivity |].
    destruct (Hturn {[ "projects" := [sample_project "n" 5] ]} [sample_project "n" 5]
                    {[ "projects" := [sample_project "n" 5] ]}) as [_ Hrest].
    { apply (bool_decide_unpack _). vm_compute. exact I. }
    { cbv [adapter_list memory_adapter gets]. by rewrite lookup_singleton_eq. }
    { intros rr ->%list_elem_of_singleton. by vm_compute. }
    destruct Hrest as [_ Hthrows].
    { apply (bool_decide_unpack _). vm_compute. exact I. }
    eapply (Hthrows (DOMException "ConstraintError")).
    apply run_err. vm_compute. reflexivity.
Defined.
